(** * utils.js: the resilient request layer, embedded and verified

    A shallow embedding of the network helpers of [utils.js]
    ([safeFetch], [fetchWithCSRF], [getCSRFToken], [getCookie],
    [objectContainsFile], [getResponseType], [normalizeError],
    [createHeaders]) together with the small part of the browser runtime
    they run against (strings, JSON serialisation, [Headers], [fetch],
    [AbortController] and timers).

    Conventions.
    - A JavaScript string is a [string] of 8-bit code units (the Latin-1
      range, which is also the range of HTTP header values).
    - A JavaScript number is an integer [Z]; the configuration fields of
      [safeFetch] are integers in the data model of the library.  The
      numbers written out here (statuses, indices, values of a body) are
      taken below 10^21, where a number is written with all its digits.
    - Synchronous code that may throw returns a [completion]; an [async]
      function returns a [promise] together with the new [World]. *)

From Equations Require Import Equations.
From Stdlib Require Import List String Ascii Bool ZArith Lia PeanoNat.
From Stdlib Require Import DecimalString.
Import ListNotations.
Local Open Scope string_scope.
Local Open Scope bool_scope.

(* ================================================================== *)
(** ** Strings of the runtime *)
(* ================================================================== *)

Module Str.

(** The double quote, code unit 34. *)
Definition dquote : ascii := "034"%char.

Definition code (c : ascii) : nat := nat_of_ascii c.

Definition between (lo hi n : nat) : bool := (lo <=? n)%nat && (n <=? hi)%nat.

(** [String.prototype.toLowerCase] on one code unit of the Latin-1
    range: [A-Z] and the accented capitals U+00C0..U+00DE (U+00D7, the
    multiplication sign, has no case) move up by 32. *)
Definition lower_char (c : ascii) : ascii :=
  let n := code c in
  if between 65 90 n || (between 192 222 n && negb (n =? 215)%nat)
  then ascii_of_nat (n + 32)
  else c.

Fixpoint toLowerCase (s : string) : string :=
  match s with
  | EmptyString => EmptyString
  | String c s' => String (lower_char c) (toLowerCase s')
  end.

(** [s.startsWith(pat)] *)
Fixpoint startsWith (s pat : string) : bool :=
  match pat, s with
  | EmptyString, _ => true
  | String _ _, EmptyString => false
  | String p pat', String c s' => Ascii.eqb c p && startsWith s' pat'
  end.

(** [s.includes(pat)] *)
Fixpoint includes (s pat : string) : bool :=
  startsWith s pat ||
  match s with
  | EmptyString => false
  | String _ s' => includes s' pat
  end.

(** White space removed by [String.prototype.trim]: TAB, LF, VT, FF,
    CR, SPACE and the no-break space. *)
Definition is_space (c : ascii) : bool :=
  let n := code c in between 9 13 n || (n =? 32)%nat || (n =? 160)%nat.

Fixpoint dropWhile (p : ascii -> bool) (s : string) : string :=
  match s with
  | EmptyString => EmptyString
  | String c s' => if p c then dropWhile p s' else s
  end.

(** Drops the longest suffix whose characters all satisfy [p]. *)
Fixpoint dropWhileEnd (p : ascii -> bool) (s : string) : string :=
  match s with
  | EmptyString => EmptyString
  | String c s' =>
      match dropWhileEnd p s' with
      | EmptyString => if p c then EmptyString else String c EmptyString
      | rest => String c rest
      end
  end.

Definition trim (s : string) : string :=
  dropWhileEnd is_space (dropWhile is_space s).

(** [s.split(sep)] for a one-character separator: never empty. *)
Fixpoint split (sep : ascii) (s : string) : list string :=
  match s with
  | EmptyString => [EmptyString]
  | String c s' =>
      if Ascii.eqb c sep then EmptyString :: split sep s'
      else match split sep s' with
           | [] => [String c EmptyString]
           | piece :: pieces => String c piece :: pieces
           end
  end.

(** The decimal digits of an integer: what [String(n)] gives for an
    integer below 10^21 in absolute value (from there on JavaScript
    writes an exponent). *)
Definition ofZ (n : Z) : string := NilZero.string_of_int (Z.to_int n).

(** A non-empty string is truthy. *)
Definition truthy (s : string) : bool :=
  match s with EmptyString => false | _ => true end.

End Str.

(* ================================================================== *)
(** ** Values *)
(* ================================================================== *)

(** The JavaScript values that reach the request layer.  A plain object
    lists its own enumerable properties in [Object.entries] order.
    [JBackRef up] stands for a reference back to the container [up]
    levels above the place it occurs in: it is how a cyclic structure is
    written down as a finite term. *)
#[local] Set Warnings "-register-all".

Inductive jsval : Type :=
| JUndefined
| JNull
| JBool (b : bool)
| JNum (n : Z)
| JStr (s : string)
| JArr (items : list jsval)
| JObj (props : list (string * jsval))
| JBlob (isFile : bool)                        (* a [Blob]; a [File] when the flag is set *)
| JFileList (files : list jsval)
| JFormData (entries : list (string * jsval))
| JError (name message : string) (props : list (string * jsval))
| JBackRef (up : nat).

(** Outcome of synchronous code. *)
Inductive completion (A : Type) : Type :=
| Normal (a : A)
| Throw (e : jsval).
Arguments Normal {A} a.
Arguments Throw {A} e.

(** Outcome of an [async] function, as its caller observes it. *)
Inductive promise (A : Type) : Type :=
| Fulfilled (a : A)
| Rejected (e : jsval)
| Pending.
Arguments Fulfilled {A} a.
Arguments Rejected {A} e.
Arguments Pending {A}.

Module Js.

(** [ToBoolean] *)
Definition truthy (v : jsval) : bool :=
  match v with
  | JUndefined | JNull => false
  | JBool b => b
  | JNum n => negb (n =? 0)%Z
  | JStr s => Str.truthy s
  | _ => true
  end.

(** [typeof v === "object"] *)
Definition typeof_object (v : jsval) : bool :=
  match v with
  | JUndefined | JBool _ | JNum _ | JStr _ => false
  | _ => true
  end.

Definition is_null (v : jsval) : bool :=
  match v with JNull => true | _ => false end.

(** Property read [o[k]] on an association list of own properties. *)
Fixpoint lookup {A : Type} (k : string) (props : list (string * A)) : option A :=
  match props with
  | [] => None
  | (k', v) :: rest => if String.eqb k' k then Some v else lookup k rest
  end.

(** Property write [o[k] = v]: an existing key keeps its place. *)
Fixpoint assign {A : Type} (k : string) (v : A) (props : list (string * A))
  : list (string * A) :=
  match props with
  | [] => [(k, v)]
  | (k', v') :: rest =>
      if String.eqb k' k then (k', v) :: rest else (k', v') :: assign k v rest
  end.

(** Object spread [{...target, ...source}]. *)
Definition spread {A : Type} (target source : list (string * A))
  : list (string * A) :=
  fold_left (fun acc kv => assign (fst kv) (snd kv) acc) source target.

(** Own properties visible through [v.k]. *)
Definition get (v : jsval) (k : string) : jsval :=
  match v with
  | JObj props => match lookup k props with Some x => x | None => JUndefined end
  | JError name message props =>
      if String.eqb k "message" then JStr message
      else if String.eqb k "name" then JStr name
      else match lookup k props with Some x => x | None => JUndefined end
  | _ => JUndefined
  end.

End Js.

(* ================================================================== *)
(** ** Sequencing of code that may throw *)
(* ================================================================== *)

Definition bind {A B : Type} (c : completion A) (k : A -> completion B)
  : completion B :=
  match c with
  | Normal a => k a
  | Throw e => Throw e
  end.

Declare Scope js_scope.
Delimit Scope js_scope with js.
Notation "x <- c ;; k" := (bind c (fun x => k))
  (at level 61, c at next level, right associativity) : js_scope.
Local Open Scope js_scope.

(** Runs [f] over a list from left to right; the first throw ends it. *)
Definition traverse {A B : Type} (f : A -> completion B)
  : list A -> completion (list B) :=
  fix go (l : list A) : completion (list B) :=
    match l with
    | [] => Normal []
    | x :: rest =>
        y <- f x ;;
        ys <- go rest ;;
        Normal (y :: ys)
    end.

(** [Array.prototype.some] with a callback that may throw. *)
Definition some {A : Type} (f : A -> completion bool)
  : list A -> completion bool :=
  fix go (l : list A) : completion bool :=
    match l with
    | [] => Normal false
    | x :: rest =>
        hit <- f x ;;
        if hit then Normal true else go rest
    end.

(* ================================================================== *)
(** ** JSON.stringify *)
(* ================================================================== *)

Module JSON.

Definition TypeError (message : string) : jsval := JError "TypeError" message [].

Definition circular : jsval := TypeError "Converting circular structure to JSON".

Definition hex (n : nat) : ascii :=
  nth n (list_ascii_of_string "0123456789abcdef") "0"%char.

(** One code unit inside a JSON string literal. *)
Definition escape (c : ascii) : string :=
  let n := Str.code c in
  if (n =? 34)%nat then String "\"%char (String Str.dquote EmptyString)
  else if (n =? 92)%nat then "\\"
  else if (n =? 8)%nat then "\b"
  else if (n =? 9)%nat then "\t"
  else if (n =? 10)%nat then "\n"
  else if (n =? 12)%nat then "\f"
  else if (n =? 13)%nat then "\r"
  else if (n <? 32)%nat
       then "\u00" ++ String (hex (n / 16)) (String (hex (n mod 16)) EmptyString)
       else String c EmptyString.

Fixpoint escape_all (s : string) : string :=
  match s with
  | EmptyString => EmptyString
  | String c s' => escape c ++ escape_all s'
  end.

Definition quote (s : string) : string :=
  String Str.dquote (escape_all s ++ String Str.dquote EmptyString).

(** Index keys ["0"], ["1"], ... of an array-like object. *)
Definition indexed {A : Type} (l : list A) : list (string * A) :=
  combine (map (fun i => Str.ofZ (Z.of_nat i)) (seq 0 (List.length l))) l.

Definition braces (members : list (option string)) : string :=
  "{" ++ String.concat "," (flat_map (fun m => match m with Some s => [s] | None => [] end) members) ++ "}".

(** The member [key:value] of an object literal, when there is a value. *)
Definition keyed (key : string) (o : option string) : option string :=
  option_map (fun s => quote key ++ ":" ++ s) o.

(** [JSON.stringify(v)]: [None] is the result [undefined].  A property
    whose value serialises to [undefined] is left out of an object and
    written [null] in an array; a [Blob], [File] or [FormData] has no own
    enumerable property; reaching a cycle throws a [TypeError]. *)
Fixpoint stringify (v : jsval) : completion (option string) :=
  let member (kv : string * jsval) : completion (option string) :=
    o <- stringify (snd kv) ;;
    Normal (keyed (fst kv) o) in
  match v with
  | JUndefined => Normal None
  | JNull => Normal (Some "null")
  | JBool b => Normal (Some (if b then "true" else "false"))
  | JNum n => Normal (Some (Str.ofZ n))
  | JStr s => Normal (Some (quote s))
  | JArr items =>
      parts <- traverse (fun x => o <- stringify x ;;
                                  Normal (match o with Some s => s | None => "null" end))
                        items ;;
      Normal (Some ("[" ++ String.concat "," parts ++ "]"))
  | JObj props =>
      members <- traverse member props ;;
      Normal (Some (braces members))
  | JError _ _ props =>
      members <- traverse member props ;;
      Normal (Some (braces members))
  | JFileList files =>
      parts <- traverse stringify files ;;
      Normal (Some (braces (map (fun kv => keyed (fst kv) (snd kv)) (indexed parts))))
  | JBlob _ => Normal (Some "{}")
  | JFormData _ => Normal (Some "{}")
  | JBackRef _ => Throw circular
  end.

End JSON.

(* ================================================================== *)
(** ** Headers and responses *)
(* ================================================================== *)

Module Headers.

(** A header list.  Names are compared without regard to case. *)
Definition t : Type := list (string * string).

Definition empty : t := [].

Definition same_name (a b : string) : bool :=
  String.eqb (Str.toLowerCase a) (Str.toLowerCase b).

Definition named (name : string) (kv : string * string) : bool :=
  same_name (fst kv) name.

(** [headers.get(name)]: the values under [name] joined by a comma and a
    space, [None] (that is [null]) when there is none. *)
Definition get (h : t) (name : string) : option string :=
  match filter (named name) h with
  | [] => None
  | found => Some (String.concat ", " (map snd found))
  end.

(** Setting a header in a header list: the first header of that name
    takes the value and the others go; a new name is appended. *)
Fixpoint put (h : t) (name value : string) : t :=
  match h with
  | [] => [(name, value)]
  | (k, v) :: rest =>
      if same_name k name
      then (k, value) :: filter (fun kv => negb (named name kv)) rest
      else (k, v) :: put rest name value
  end.

Fixpoint all_chars (p : ascii -> bool) (s : string) : bool :=
  match s with
  | EmptyString => true
  | String c s' => p c && all_chars p s'
  end.

(** HTTP white space: TAB, LF, CR and SPACE. *)
Definition is_http_whitespace (c : ascii) : bool :=
  let n := Str.code c in
  (n =? 9)%nat || (n =? 10)%nat || (n =? 13)%nat || (n =? 32)%nat.

(** A value is stored without its leading and trailing HTTP white
    space. *)
Definition normalize (value : string) : string :=
  Str.dropWhileEnd is_http_whitespace (Str.dropWhile is_http_whitespace value).

(** The characters of a token: letters, digits and
    [! # $ % & ' * + - . ^ _ ` | ~]. *)
Definition is_token_char (c : ascii) : bool :=
  let n := Str.code c in
  Str.between 48 57 n || Str.between 65 90 n || Str.between 97 122 n
  || existsb (Nat.eqb n) [33; 35; 36; 37; 38; 39; 42; 43; 45; 46; 94; 95; 96; 124; 126].

(** A header name is a non-empty token. *)
Definition valid_name (name : string) : bool :=
  Str.truthy name && all_chars is_token_char name.

(** A normalized value is a header value when it holds no NUL, LF or
    CR. *)
Definition valid_value (value : string) : bool :=
  all_chars (fun c => let n := Str.code c in
                      negb ((n =? 0)%nat || (n =? 10)%nat || (n =? 13)%nat)) value.

(** The [TypeError] of a name or value that is not one; its message
    depends on the engine. *)
Definition invalid : jsval := JSON.TypeError "Invalid header name or value".

(** [headers.set(name, value)] on a [Headers] object made by
    [new Headers()]: the value is normalized, then the name and the
    value are checked, then the header is set in the list. *)
Definition set (h : t) (name value : string) : completion t :=
  let value := normalize value in
  if valid_name name && valid_value value
  then Normal (put h name value)
  else Throw invalid.

End Headers.

(** A response as the transport delivers it, its body not yet read.
    [body_json] is what [JSON.parse] makes of [body_text]: [None] when
    the text is not JSON. *)
Record Response : Type := mkResponse {
  status : Z;
  statusText : string;
  url : string;
  headers : Headers.t;
  body_text : string;
  body_json : option jsval
}.

(** [response.ok]: the status is in the range 200-299. *)
Definition ok (r : Response) : bool :=
  (200 <=? status r)%Z && (status r <=? 299)%Z.

Definition SyntaxError (message : string) : jsval := JError "SyntaxError" message [].

(** [response.json()].  The body has arrived with the response: reading
    it neither stalls nor is cut short by an abort. *)
Definition json (r : Response) : completion jsval :=
  match body_json r with
  | Some v => Normal v
  | None => Throw (SyntaxError "Unexpected token in JSON")
  end.

(** [response.text()] *)
Definition text (r : Response) : completion jsval :=
  Normal (JStr (body_text r)).

(* ================================================================== *)
(** ** Response classifier: [getResponseType] (utils.js 994-1011) *)
(* ================================================================== *)

(** The header read at line 995 is [get("Content-Type") || ""], lower
    case. *)
Definition getResponseType (response : Response) : string :=
  let contentType :=
    Str.toLowerCase
      (match Headers.get (headers response) "Content-Type" with
       | Some s => if Str.truthy s then s else EmptyString
       | None => EmptyString
       end) in
  if Str.includes contentType "application/json" then "json"
  else if Str.startsWith contentType "text/" then "text"
  else if Str.startsWith contentType "multipart/" then "multipart"
  else if Str.includes contentType "application/octet-stream"
          || Str.startsWith contentType "image/"
          || Str.startsWith contentType "audio/"
          || Str.startsWith contentType "video/"
          || Str.includes contentType "application/pdf"
  then "blob"
  else "unknown".

(* ================================================================== *)
(** ** Binary detection: [objectContainsFile] (utils.js 944-957) *)
(* ================================================================== *)

Definition ReferenceError (name : string) : jsval :=
  JError "ReferenceError" (name ++ " is not defined") [].

Definition RangeError (message : string) : jsval := JError "RangeError" message [].

(** [Object.values(obj)] of an object. *)
Definition Object_values (obj : jsval) : list jsval :=
  match obj with
  | JArr items => items
  | JObj props => map snd props
  | JError _ _ props => map snd props
  | JFileList files => files
  | _ => []
  end.

(** The body of [objectContainsFile], with the identifier [containsFile]
    it reads at lines 949 and 954 taken from the enclosing scope:
    [Normal f] when the scope binds it to [f], a throw when it does not.
    At line 954 the identifier is evaluated as the argument of [some]
    before any element is visited. *)
Definition objectContainsFile_in
    (containsFile : completion (jsval -> completion bool)) (obj : jsval)
  : completion bool :=
  match obj with
  | JBlob _ => Normal true
  | JFileList (_ :: _) => Normal true
  | JFormData entries =>
      some (fun value => f <- containsFile ;; f value) (map snd entries)
  | JArr _ | JObj _ | JError _ _ _ | JFileList [] | JBackRef _ =>
      f <- containsFile ;;
      some f (Object_values obj)
  | JUndefined | JNull | JBool _ | JNum _ | JStr _ => Normal false
  end.

(** utils.js declares no [containsFile] at module level: the one function
    of that name is local to [formParser] in the older copy of the file
    (see [containsFile] below), out of scope here. *)
Definition module_scope_containsFile : completion (jsval -> completion bool) :=
  Throw (ReferenceError "containsFile").

Definition objectContainsFile (obj : jsval) : completion bool :=
  objectContainsFile_in module_scope_containsFile obj.

(** The helper [containsFile] local to [formParser] in the older copy of
    the file: the same tests, recursing through its own name.  On a
    cyclic structure the recursion comes back to a container it is
    already visiting, with every value before the cycle already found
    file-free, and never ends: the engine throws a [RangeError]. *)
Fixpoint containsFile (val : jsval) : completion bool :=
  match val with
  | JBlob _ => Normal true
  | JFileList (_ :: _) => Normal true
  | JFormData entries => some (fun kv => containsFile (snd kv)) entries
  | JArr items => some containsFile items
  | JObj props => some (fun kv => containsFile (snd kv)) props
  | JError _ _ props => some (fun kv => containsFile (snd kv)) props
  | JFileList [] => Normal false
  | JBackRef _ => Throw (RangeError "Maximum call stack size exceeded")
  | JUndefined | JNull | JBool _ | JNum _ | JStr _ => Normal false
  end.

(* ================================================================== *)
(** ** Header builder: [createHeaders] (utils.js 1146-1162) *)
(* ================================================================== *)

(** The argument of [createHeaders] after its destructuring defaults
    ([isJson = true], [token = null], [extra = {}]) have been applied. *)
Record HeaderConfig : Type := mkHeaderConfig {
  isJson : bool;
  token : option string;
  extra : list (string * string)
}.

Definition truthy_opt (o : option string) : bool :=
  match o with Some s => Str.truthy s | None => false end.

(** The loop of lines 1157-1159: a throw of [set] ends it. *)
Definition set_each (entries : list (string * string)) (headers : Headers.t)
  : completion Headers.t :=
  fold_left (fun acc kv => h <- acc ;; Headers.set h (fst kv) (snd kv))
            entries (Normal headers).

Definition createHeaders (cfg : HeaderConfig) : completion Headers.t :=
  let headers := Headers.empty in
  headers <-
    (if isJson cfg && negb (truthy_opt (Js.lookup "Content-Type" (extra cfg)))
     then Headers.set headers "Content-Type" "application/json"
     else Normal headers) ;;
  headers <-
    (match token cfg with
     | Some tok =>
         if Str.truthy tok
         then Headers.set headers "Authorization" ("Bearer " ++ tok)
         else Normal headers
     | None => Normal headers
     end) ;;
  set_each (extra cfg) headers.

(* ================================================================== *)
(** ** Error normaliser: [normalizeError] (utils.js 1090-1121) *)
(* ================================================================== *)

(** The body of a response handed over: not read yet, already read, or
    none at all (a response with a null body, whose text is empty). *)
Inductive BodyState : Type :=
| BodyUnread
| BodyUsed
| BodyNull.

(** What a caller may hand to [normalizeError]: a [Response], with the
    state of its body, or any other value. *)
Inductive thrown : Type :=
| ThrownResponse (r : Response) (state : BodyState)
| ThrownValue (v : jsval).

Definition or_string (v : jsval) (fallback : string) : jsval :=
  if Js.truthy v then v else JStr fallback.

(** The [body] of the [Response] branch.  A response whose body has
    been read cannot be cloned: [error.clone()] throws and the [catch]
    clause gives [null].  Otherwise [clone.json()] reads the body of the
    clone; when that fails the [catch] handler calls [clone.text()], which
    rejects on the body just read, so that the [catch] clause gives
    [null] again, and which resolves with the empty string when there is
    no body to have been read. *)
Definition normalized_body (r : Response) (state : BodyState) : jsval :=
  match state with
  | BodyUsed => JNull
  | BodyUnread => match json r with Normal v => v | Throw _ => JNull end
  | BodyNull => JStr EmptyString
  end.

(** [error.stack]: an own property of that name if the error has one,
    otherwise the trace the engine recorded when the error was made, a
    string. *)
Definition stack_of (stack_trace : jsval -> string) (e : jsval) : jsval :=
  match e with
  | JError _ _ props =>
      match Js.lookup "stack" props with
      | Some v => v
      | None => JStr (stack_trace e)
      end
  | _ => JUndefined
  end.

(** [stack_trace] is the engine: the trace it gives each error. *)
Definition normalizeError (stack_trace : jsval -> string) (error : thrown)
  : promise jsval :=
  match error with
  | ThrownResponse r state =>
      Fulfilled (JObj [("type", JStr "http");
                       ("status", JNum (status r));
                       ("statusText", JStr (statusText r));
                       ("url", JStr (url r));
                       ("body", normalized_body r state)])
  | ThrownValue (JError name message props as e) =>
      Fulfilled (JObj [("type", JStr "js");
                       ("message", or_string (Js.get e "message") "Unknown error");
                       ("stack", stack_of stack_trace e)])
  | ThrownValue v =>
      Fulfilled (JObj [("type", JStr "unknown"); ("value", v)])
  end.

(* ================================================================== *)
(** ** Cookies and the CSRF token (utils.js 1564-1610) *)
(* ================================================================== *)

(** The part of the page the token resolver looks at: the value of the
    first [input[name="csrfmiddlewaretoken"]], the content of the first
    [meta[name="csrf-token"]] ([None] when there is no such element) and
    [document.cookie]. *)
Record Document : Type := mkDocument {
  csrf_input : option string;
  csrf_meta : option string;
  cookie : string
}.

(** The [replace] of line 1572: the double quotes at the start and at
    the end of the string are removed. *)
Definition strip_quotes (s : string) : string :=
  let is_quote c := Ascii.eqb c Str.dquote in
  Str.dropWhileEnd is_quote (Str.dropWhile is_quote s).

Definition getCookie (document : Document) (name : string) : option string :=
  if negb (Str.truthy (cookie document)) then None
  else
    match find (fun c => Str.startsWith c (name ++ "="))
               (map Str.trim (Str.split ";"%char (cookie document))) with
    | None => None
    | Some c =>
        match nth_error (Str.split "="%char c) 1 with
        | None => None
        | Some value => Some (strip_quotes value)
        end
    end.

(** Reads of the page made by the resolver, in the order they happen. *)
Inductive Access : Type :=
| QueryInput
| QueryMeta
| ReadCookie.

(** The closure variable [cachedToken] of [getCSRFToken], with the reads
    of the page made so far (the newest first). *)
Record CsrfState : Type := mkCsrfState {
  cachedToken : option string;
  accesses : list Access
}.

Definition csrf_initial : CsrfState :=
  {| cachedToken := None; accesses := [] |}.

Definition accessed (a : Access) (st : CsrfState) : CsrfState :=
  {| cachedToken := cachedToken st; accesses := a :: accesses st |}.

Definition cache (tok : string) (st : CsrfState) : CsrfState :=
  {| cachedToken := Some tok; accesses := accesses st |}.

(** An element that is present with a non-empty string: the tests
    [input && input.value], [meta && meta.content] and [cookieToken]. *)
Definition present (o : option string) : option string :=
  match o with
  | Some s => if Str.truthy s then Some s else None
  | None => None
  end.

Definition getCSRFToken (document : Document) (st : CsrfState)
  : option string * CsrfState :=
  match present (cachedToken st) with
  | Some tok => (Some tok, st)
  | None =>
      let st := accessed QueryInput st in
      match present (csrf_input document) with
      | Some value => let st := cache value st in (cachedToken st, st)
      | None =>
          let st := accessed QueryMeta st in
          match present (csrf_meta document) with
          | Some content => let st := cache content st in (cachedToken st, st)
          | None =>
              let st := accessed ReadCookie st in
              match present (getCookie document "csrftoken") with
              | Some cookieToken =>
                  let st := cache cookieToken st in (cachedToken st, st)
              | None => (None, st)
              end
          end
      end
  end.

(* ================================================================== *)
(** ** The runtime seen by [safeFetch]: controllers, timers, [fetch] *)
(* ================================================================== *)

Module Req.

(** The fields of a [RequestInit] the request layer reads or writes.
    [signal] names an [AbortController] of the [World]. *)
Record t : Type := make {
  method : option string;
  headers : option (list (string * jsval));
  body : jsval;
  signal : option nat
}.

End Req.

(** What the network does with one request.  [Stalls] is a request that
    does not settle before a pending timeout on its signal fires; with no
    such timeout it never settles. *)
Inductive Behaviour : Type :=
| Responds (r : Response)
| Fails (message : string)
| Stalls.

(** The network: its behaviour on the [n]-th call of [fetch]. *)
Definition Transport : Type := nat -> string -> Req.t -> Behaviour.

Inductive Timer : Type :=
| TimerPending (target : nat) (delay : Z)
| TimerCleared
| TimerFired.

Inductive CallOutcome : Type :=
| Arrived
| Failed
| TimedOut
| Refused
| Hung.

(** One call of [fetch]: what it was given, whether its signal was
    already aborted when it was issued, and how it ended. *)
Record Call : Type := mkCall {
  call_url : string;
  call_opts : Req.t;
  call_aborted : bool;
  call_outcome : CallOutcome
}.

(** [signals]: the [aborted] flag of every [AbortController] created so
    far; [timers]: every timer created so far; [calls]: the calls of
    [fetch] so far, the oldest first. *)
Record World : Type := mkWorld {
  signals : list bool;
  timers : list Timer;
  calls : list Call
}.

Definition world_initial : World :=
  {| signals := []; timers := []; calls := [] |}.

Fixpoint replace_nth {A : Type} (n : nat) (x : A) (l : list A) : list A :=
  match l, n with
  | [], _ => []
  | _ :: rest, O => x :: rest
  | y :: rest, S n' => y :: replace_nth n' x rest
  end.

(** [new AbortController()] *)
Definition AbortController_new (w : World) : nat * World :=
  (List.length (signals w),
   {| signals := signals w ++ [false]; timers := timers w; calls := calls w |}).

(** [setTimeout(() => controller.abort(), delay)] *)
Definition setTimeout_abort (controller : nat) (delay : Z) (w : World)
  : nat * World :=
  (List.length (timers w),
   {| signals := signals w;
      timers := timers w ++ [TimerPending controller delay];
      calls := calls w |}).

(** [clearTimeout(id)]: nothing happens for [null] or a timer that is
    no longer pending. *)
Definition clearTimeout (id : option nat) (w : World) : World :=
  match id with
  | None => w
  | Some i =>
      match nth_error (timers w) i with
      | Some (TimerPending _ _) =>
          {| signals := signals w;
             timers := replace_nth i TimerCleared (timers w);
             calls := calls w |}
      | _ => w
      end
  end.

Definition signal_aborted (w : World) (s : option nat) : bool :=
  match s with
  | Some c => nth c (signals w) false
  | None => false
  end.

(** The first pending timer that aborts controller [c]. *)
Fixpoint pending_timer (c : nat) (ts : list Timer) (i : nat) : option nat :=
  match ts with
  | [] => None
  | TimerPending target _ :: rest =>
      if (target =? c)%nat then Some i else pending_timer c rest (S i)
  | _ :: rest => pending_timer c rest (S i)
  end.

Definition AbortError : jsval := JError "AbortError" "The operation was aborted." [].

Definition logged (w : World) (url : string) (opts : Req.t) (o : CallOutcome)
  : list Call :=
  calls w ++ [{| call_url := url; call_opts := opts;
                 call_aborted := signal_aborted w (Req.signal opts);
                 call_outcome := o |}].

(** [fetch(url, opts)].  A signal that is already aborted rejects the
    call before the network is reached.  Otherwise the network decides;
    when it stalls, a pending timer on the signal fires, aborts the
    controller and rejects the call, and without one the call never
    settles. *)
Definition fetch (T : Transport) (url : string) (opts : Req.t) (w : World)
  : promise Response * World :=
  let record o := logged w url opts o in
  if signal_aborted w (Req.signal opts)
  then (Rejected AbortError,
        {| signals := signals w; timers := timers w; calls := record Refused |})
  else
    match T (List.length (calls w)) url opts with
    | Responds r =>
        (Fulfilled r,
         {| signals := signals w; timers := timers w; calls := record Arrived |})
    | Fails message =>
        (Rejected (JSON.TypeError message),
         {| signals := signals w; timers := timers w; calls := record Failed |})
    | Stalls =>
        match Req.signal opts with
        | Some c =>
            match pending_timer c (timers w) 0 with
            | Some i =>
                (Rejected AbortError,
                 {| signals := replace_nth c true (signals w);
                    timers := replace_nth i TimerFired (timers w);
                    calls := record TimedOut |})
            | None =>
                (Pending,
                 {| signals := signals w; timers := timers w; calls := record Hung |})
            end
        | None =>
            (Pending,
             {| signals := signals w; timers := timers w; calls := record Hung |})
        end
    end.

(* ================================================================== *)
(** ** Resilient executor: [safeFetch] (utils.js 811-858) *)
(* ================================================================== *)

(** The third argument of [safeFetch]; [None] is a property left out,
    which the destructuring pattern replaces by its default. *)
Record Config : Type := mkConfig {
  autoJSON : option bool;
  retries : option Z;
  timeout : option Z
}.

Definition default {A : Type} (d : A) (o : option A) : A :=
  match o with Some a => a | None => d end.

Definition is_FormData (v : jsval) : bool :=
  match v with JFormData _ => true | _ => false end.

(** The error thrown at lines 843-846 for a response that is not [ok]. *)
Definition http_error (response : Response) (data : jsval) : jsval :=
  JError "Error"
         ("HTTP " ++ Str.ofZ (status response) ++ ": " ++ statusText response)
         [("status", JNum (status response)); ("data", data)].

(** Lines 837-840: the body is read as JSON when the [content-type]
    header includes [application/json] as it is written, as text
    otherwise. *)
Definition read_body (response : Response) : completion jsval :=
  let contentType := Headers.get (headers response) "content-type" in
  match contentType with
  | Some ct => if Str.includes ct "application/json" then json response else text response
  | None => text response
  end.

(** The [try] block, lines 834-849: [Fulfilled v] is [return v],
    [Rejected err] is a throw that reaches the [catch] clause, [Pending]
    is an [await] that never resumes. *)
Definition try_block (T : Transport) (url : string) (opts : Req.t)
    (id : option nat) (w : World) : promise jsval * World :=
  match fetch T url opts w with
  | (Pending, w) => (Pending, w)
  | (Rejected err, w) => (Rejected err, w)
  | (Fulfilled response, w) =>
      let w := clearTimeout id w in
      match read_body response with
      | Throw err => (Rejected err, w)
      | Normal data =>
          if negb (ok response)
          then (Rejected (http_error response data), w)
          else (Fulfilled (JArr [JNull; data]), w)
      end
  end.

#[local] Unset Equations With Funext.

(** The loop of lines 831-857, entered with the current value of
    [attempts].  Leaving the [while] by its test falls off the end of the
    function, which resolves with [undefined]. *)
Equations? safeFetch_loop (T : Transport) (url : string) (opts : Req.t)
    (id : option nat) (retries : Z) (attempts : Z) (w : World)
  : promise jsval * World
  by wf (Z.to_nat (retries + 1 - attempts)) lt :=
  safeFetch_loop T url opts id retries attempts w
    with (attempts <=? retries)%Z => {
    | false => (Fulfilled JUndefined, w)
    | true with try_block T url opts id w => {
      | (Fulfilled v, w') => (Fulfilled v, w')
      | (Pending, w') => (Pending, w')
      | (Rejected err, w') with Z_lt_dec attempts retries => {
        | left _ => safeFetch_loop T url opts id retries (attempts + 1) w'
        | right _ => (Fulfilled (JArr [err; JNull]), w') } } }.
Proof. lia. Qed.

(** Lines 816-829: the options sent with every attempt.  A thrown
    serialisation error leaves the function. *)
Definition build_opts (options : Req.t) (controller : nat) (autoJSON : bool)
  : completion Req.t :=
  let headers :=
    Js.spread [("Accept", JStr "application/json")]
              (default [] (Req.headers options)) in
  let body := Req.body options in
  if autoJSON && Js.truthy body && Js.typeof_object body && negb (is_FormData body)
  then
    serialised <- JSON.stringify body ;;
    Normal {| Req.method := Req.method options;
              Req.headers := Some (Js.assign "Content-Type" (JStr "application/json") headers);
              Req.body := match serialised with Some s => JStr s | None => JUndefined end;
              Req.signal := Some controller |}
  else
    Normal {| Req.method := Req.method options;
              Req.headers := Some headers;
              Req.body := body;
              Req.signal := Some controller |}.

Definition safeFetch (T : Transport) (url : string) (options : Req.t)
    (config : Config) (w : World) : promise jsval * World :=
  let autoJSON := default true (autoJSON config) in
  let retries := default 0%Z (retries config) in
  let timeout := default 0%Z (timeout config) in
  let (controller, w) := AbortController_new w in
  let (id, w) :=
    if negb (timeout =? 0)%Z
    then let (i, w) := setTimeout_abort controller timeout w in (Some i, w)
    else (None, w) in
  match build_opts options controller autoJSON with
  | Throw err => (Rejected err, w)
  | Normal opts => safeFetch_loop T url opts id retries 0%Z w
  end.

(* ================================================================== *)
(** ** CSRF-aware wrapper: [fetchWithCSRF] (utils.js 1614-1630) *)
(* ================================================================== *)

Definition token_value (tok : option string) : jsval :=
  match tok with Some s => JStr s | None => JNull end.

Definition fetchWithCSRF (T : Transport) (document : Document) (url : string)
    (options : Req.t) (st : CsrfState) (w : World)
  : promise jsval * CsrfState * World :=
  let (csrfToken, st) := getCSRFToken document st in
  let headers :=
    Js.spread [("X-CSRFToken", token_value csrfToken)]
              (default [] (Req.headers options)) in
  let (result, w) :=
    safeFetch T url
      {| Req.method := Some (match present (Req.method options) with
                             | Some m => m
                             | None => "POST"
                             end);
         Req.headers := Some headers;
         Req.body := Req.body options;
         Req.signal := Req.signal options |}
      {| autoJSON := Some true; retries := None; timeout := None |}
      w in
  (result, st, w).

(* ================================================================== *)
(** ** The classifier as the specification words it *)
(* ================================================================== *)

(** The five handling strategies. *)
Inductive Category : Type :=
| CatJson
| CatText
| CatMultipart
| CatBinary
| CatUnknown.

(** The string [getResponseType] returns for a category. *)
Definition category_name (c : Category) : string :=
  match c with
  | CatJson => "json"
  | CatText => "text"
  | CatMultipart => "multipart"
  | CatBinary => "blob"
  | CatUnknown => "unknown"
  end.

(** [pat] occurs in [s], letter case ignored. *)
Definition ci_contains (pat s : string) : Prop :=
  exists pre mid post,
    s = pre ++ mid ++ post /\ Str.toLowerCase mid = Str.toLowerCase pat.

(** [s] starts with [pat], letter case ignored. *)
Definition ci_prefix (pat s : string) : Prop :=
  exists mid post,
    s = mid ++ post /\ Str.toLowerCase mid = Str.toLowerCase pat.

Definition is_json (h : string) : Prop := ci_contains "application/json" h.
Definition is_text (h : string) : Prop := ci_prefix "text/" h.
Definition is_multipart (h : string) : Prop := ci_prefix "multipart/" h.
Definition is_binary (h : string) : Prop :=
  ci_prefix "image/" h \/ ci_prefix "audio/" h \/ ci_prefix "video/" h \/
  ci_contains "application/octet-stream" h \/ ci_contains "application/pdf" h.

(** The matching order of the specification, first match wins; the
    argument is the content-type header, [None] when it is absent. *)
Inductive classify : option string -> Category -> Prop :=
| classify_absent : classify None CatUnknown
| classify_json h :
    is_json h -> classify (Some h) CatJson
| classify_text h :
    ~ is_json h -> is_text h -> classify (Some h) CatText
| classify_multipart h :
    ~ is_json h -> ~ is_text h -> is_multipart h -> classify (Some h) CatMultipart
| classify_binary h :
    ~ is_json h -> ~ is_text h -> ~ is_multipart h -> is_binary h ->
    classify (Some h) CatBinary
| classify_unknown h :
    ~ is_json h -> ~ is_text h -> ~ is_multipart h -> ~ is_binary h ->
    classify (Some h) CatUnknown.

Definition content_type (r : Response) : option string :=
  Headers.get (headers r) "Content-Type".

(* ================================================================== *)
(** ** The token sources as the specification words them *)
(* ================================================================== *)

(** First the hidden form field, else the meta tag, else the cookie named
    [csrftoken]: the first source that yields a token wins. *)
Definition first_successful_source (document : Document) : option string :=
  match present (csrf_input document) with
  | Some tok => Some tok
  | None =>
      match present (csrf_meta document) with
      | Some tok => Some tok
      | None => present (getCookie document "csrftoken")
      end
  end.

(** A page whose token sits in the hidden form field. *)
Definition page_with_hidden_field : Document :=
  {| csrf_input := Some "tok123"; csrf_meta := Some "meta456"; cookie := EmptyString |}.

(** A page with no token anywhere. *)
Definition page_without_token : Document :=
  {| csrf_input := None; csrf_meta := Some EmptyString; cookie := "theme=dark; lang=en" |}.

(** A response of type PDF. *)
Definition pdf_response : Response :=
  {| status := 200; statusText := "OK"; url := "/report";
     headers := [("content-type", "Application/PDF")];
     body_text := "%PDF-1.7"; body_json := None |}.

(* ================================================================== *)
(** ** Header precedence, stated on the result of [createHeaders] *)
(* ================================================================== *)

(** The value [extra] gives to a header: that of its last entry with
    that name, letter case ignored. *)
Fixpoint last_named (name : string) (entries : list (string * string))
  : option string :=
  match entries with
  | [] => None
  | (k, v) :: rest =>
      match last_named name rest with
      | Some later => Some later
      | None => if Headers.same_name k name then Some v else None
      end
  end.

(** The default the specification expects next to the JSON content
    type: [Accept: application/json], unless [extra] names the header. *)
Definition accept_default_present (cfg : HeaderConfig) : Prop :=
  last_named "Accept" (extra cfg) = None ->
  exists h,
    createHeaders cfg = Normal h /\
    Headers.get h "Accept" = Some "application/json".

(** Every name and every value [createHeaders] hands to [set] is one the
    [Headers] object takes. *)
Definition settable (kv : string * string) : bool :=
  Headers.valid_name (fst kv) && Headers.valid_value (Headers.normalize (snd kv)).

Definition all_settable (cfg : HeaderConfig) : bool :=
  match present (token cfg) with
  | Some tok => Headers.valid_value (Headers.normalize ("Bearer " ++ tok))
  | None => true
  end
  && forallb settable (extra cfg).

(** [createHeaders()] with every default. *)
Definition no_header_options : HeaderConfig :=
  {| isJson := true; token := None; extra := [] |}.

(* ================================================================== *)
(** ** Vocabulary for the properties of [safeFetch] *)
(* ================================================================== *)

(** The signal names a controller of the world. *)
Definition valid_signal (w : World) (s : option nat) : Prop :=
  match s with Some c => c < List.length (signals w) | None => True end.

(** The error an attempt ends with when the network behaves as [b] and
    no timeout interferes: a network fault, a body that cannot be read,
    or a status outside the success range.  [None] for an attempt that
    succeeds or stalls. *)
Definition failure_of (b : Behaviour) : option jsval :=
  match b with
  | Fails message => Some (JSON.TypeError message)
  | Responds response =>
      match read_body response with
      | Throw err => Some err
      | Normal data =>
          if ok response then None else Some (http_error response data)
      end
  | Stalls => None
  end.

(** A transport that fails on every attempt. *)
Definition always_fails (T : Transport) : Prop :=
  forall n url opts, failure_of (T n url opts) <> None.

(** A transport that answers every attempt with a readable response
    whose status is outside the success range. *)
Definition always_refuses (T : Transport) : Prop :=
  forall n url opts, exists response data,
    T n url opts = Responds response /\
    ok response = false /\ read_body response = Normal data.

(** The body can be serialised: [JSON.stringify] does not throw on it. *)
Definition serialisable (body : jsval) : Prop :=
  exists s, JSON.stringify body = Normal s.

(** A call that found its signal aborted and never reached the network. *)
Definition refused (c : Call) : Prop :=
  call_aborted c = true /\ call_outcome c = Refused.

(** The third argument of [safeFetch] left out. *)
Definition no_config : Config :=
  {| autoJSON := None; retries := None; timeout := None |}.

(** [safeFetch(url)] with empty options. *)
Definition no_options : Req.t :=
  {| Req.method := None; Req.headers := None; Req.body := JUndefined;
     Req.signal := None |}.

(** *** The claims that fail, as they are worded *)

(** Exactly one side of the pair is populated. *)
Definition exactly_one_side (v : jsval) : Prop :=
  exists err data,
    v = JArr [err; data] /\
    ((err <> JNull /\ data = JNull) \/ (err = JNull /\ data <> JNull)).

(** Every attempt is issued with a signal that is not aborted. *)
Definition fresh_signal_per_attempt (T : Transport) (url : string)
    (options : Req.t) (config : Config) : Prop :=
  Forall (fun c => call_aborted c = false)
         (calls (snd (safeFetch T url options config world_initial))).

(** The value is an [http] variant made by the error normaliser. *)
Definition http_variant (e : jsval) : Prop :=
  exists stack_trace r state,
    normalizeError stack_trace (ThrownResponse r state) = Fulfilled e.

(** The call resolves with an error of the [http] variant that carries
    the status of [response]. *)
Definition resolves_with_http_variant (T : Transport) (url : string)
    (options : Req.t) (config : Config) (response : Response) : Prop :=
  exists err w',
    safeFetch T url options config world_initial
    = (Fulfilled (JArr [err; JNull]), w') /\
    Js.get err "status" = JNum (status response) /\
    http_variant err.

(** Against a transport that fails on every attempt the call resolves
    with an error and [null] after [retries + 1] calls of [fetch]. *)
Definition invoked_retries_plus_one (T : Transport) (url : string)
    (options : Req.t) (config : Config) : Prop :=
  exists err w',
    safeFetch T url options config world_initial
    = (Fulfilled (JArr [err; JNull]), w') /\
    List.length (calls w') = Z.to_nat (default 0%Z (retries config)) + 1.

(** The call of [fetchWithCSRF] makes exactly one attempt. *)
Definition exactly_one_attempt (T : Transport) (document : Document)
    (url : string) (options : Req.t) : Prop :=
  List.length
    (calls (snd (fetchWithCSRF T document url options csrf_initial world_initial)))
  = 1.

(** *** Inputs *)

(** [const o = { name: "a" }; o.self = o] *)
Definition cyclic_body : jsval :=
  JObj [("name", JStr "a"); ("self", JBackRef 0)].

Definition cyclic_request : Req.t :=
  {| Req.method := Some "POST"; Req.headers := None; Req.body := cyclic_body;
     Req.signal := None |}.

(** [{ username: "alice" }], the text-only example of the documentation
    of [objectContainsFile]. *)
Definition alice : jsval := JObj [("username", JStr "alice")].

(** [{ username: "alice", avatar: file }] *)
Definition alice_with_avatar : jsval :=
  JObj [("username", JStr "alice"); ("avatar", JBlob true)].

Definition not_found : Response :=
  {| status := 404; statusText := "Not Found"; url := "/api/items";
     headers := [("Content-Type", "text/plain")];
     body_text := "no such item"; body_json := None |}.

(** A successful JSON response whose body is the text [null]. *)
Definition json_null : Response :=
  {| status := 200; statusText := "OK"; url := "/api/items";
     headers := [("Content-Type", "application/json")];
     body_text := "null"; body_json := Some JNull |}.

(** The network stalls on the first attempt and answers the second. *)
Definition stalls_then_answers : Transport :=
  fun n _ _ => match n with O => Stalls | _ => Responds json_null end.

Definition unreachable : Transport :=
  fun _ _ _ => Fails "Failed to fetch".

Definition server_error : Response :=
  {| status := 500; statusText := "Internal Server Error"; url := "/api/items";
     headers := [("Content-Type", "text/plain")];
     body_text := "try again"; body_json := None |}.

(** The server answers the first attempt with a 500 and stalls on the
    second. *)
Definition fails_then_stalls : Transport :=
  fun n _ _ => match n with O => Responds server_error | _ => Stalls end.

(** [{ retries: 2 }] *)
Definition two_retries : Config :=
  {| autoJSON := None; retries := Some 2%Z; timeout := None |}.

(** [{ retries: 1, timeout: 100 }] *)
Definition one_retry_with_timeout : Config :=
  {| autoJSON := None; retries := Some 1%Z; timeout := Some 100%Z |}.

(** *** The state in which [safeFetch] enters its loop *)

(** Lines 813-814 run once per call: one controller, and one timer when
    [timeout] is not zero. *)
Definition prepared_world (timeout : Z) (w : World) : World :=
  {| signals := signals w ++ [false];
     timers := if negb (timeout =? 0)%Z
               then timers w ++ [TimerPending (List.length (signals w)) timeout]
               else timers w;
     calls := calls w |}.

Definition prepared_timer (timeout : Z) (w : World) : option nat :=
  if negb (timeout =? 0)%Z then Some (List.length (timers w)) else None.

(* ================================================================== *)
(** ** Vocabulary for further properties of the request layer *)
(* ================================================================== *)

(** The test of line 825: the body is serialised by [safeFetch]. *)
Definition auto_encoded (autoJSON : bool) (body : jsval) : bool :=
  autoJSON && Js.truthy body && Js.typeof_object body && negb (is_FormData body).

(** The value an object gives to a key when a list of entries is written
    into it in order: that of the last entry with the key. *)
Definition last_value {A : Type} (k : string) (entries : list (string * A))
  : option A :=
  Js.lookup k (rev entries).

(** The timer of a call of [safeFetch] is not left to fire on a live
    signal: it is pending on controller [c], or cleared, or it has fired
    and the signal of [c] is aborted. *)
Definition timer_accounted (id : option nat) (c : nat) (w : World) : Prop :=
  match id with
  | None => True
  | Some i =>
      match nth_error (timers w) i with
      | Some (TimerPending _ _) => True
      | Some TimerCleared => True
      | Some TimerFired => signal_aborted w (Some c) = true
      | None => False
      end
  end.

(* ================================================================== *)
(** ** Response reader: [safelyReadResponse] (utils.js 1045-1063) *)
(* ================================================================== *)

(** What a body is read as: a value (parsed JSON or a string), a [Blob]
    or an [ArrayBuffer], the last two given by their bytes. *)
Inductive body_read : Type :=
| ReadValue (v : jsval)
| ReadBlob (bytes : string)
| ReadArrayBuffer (bytes : string).

(** The body is read from a clone of the response, which is fresh; a
    throw is the rejection of the returned promise. *)
Definition safelyReadResponse (response : Response) : completion body_read :=
  let type := getResponseType response in
  if String.eqb type "json" then (v <- json response ;; Normal (ReadValue v))%js
  else if String.eqb type "text" then (v <- text response ;; Normal (ReadValue v))%js
  else if String.eqb type "blob" then Normal (ReadBlob (body_text response))
  else if String.eqb type "multipart"
       then (v <- text response ;; Normal (ReadValue v))%js
       else Normal (ReadArrayBuffer (body_text response)).

(** The body as [safeFetch] reads it at lines 837-840, in the type of
    [safelyReadResponse]. *)
Definition read_by_safeFetch (response : Response) : completion body_read :=
  (v <- read_body response ;; Normal (ReadValue v))%js.

(** The header [safeFetch] looks at includes [application/json] as it is
    written. *)
Definition spells_json (response : Response) : bool :=
  match Headers.get (headers response) "content-type" with
  | Some ct => Str.includes ct "application/json"
  | None => false
  end.

(* ================================================================== *)
(** ** [isCSRFTokenAvailable] (utils.js 1692-1694) *)
(* ================================================================== *)


(* ================================================================== *)
(** ** Cookie strings, for the properties of [getCookie] *)
(* ================================================================== *)

Fixpoint has_char (c : ascii) (s : string) : bool :=
  match s with
  | EmptyString => false
  | String d s' => Ascii.eqb d c || has_char c s'
  end.

Definition starts_with (p : ascii -> bool) (s : string) : bool :=
  match s with
  | EmptyString => false
  | String c _ => p c
  end.

Fixpoint ends_with (p : ascii -> bool) (s : string) : bool :=
  match s with
  | EmptyString => false
  | String c EmptyString => p c
  | String _ s' => ends_with p s'
  end.

(** The part of [s] before its first [c]; all of [s] when there is no
    [c]. *)
Fixpoint before (c : ascii) (s : string) : string :=
  match s with
  | EmptyString => EmptyString
  | String d s' => if Ascii.eqb d c then EmptyString else String d (before c s')
  end.

Definition cookie_pair (kv : string * string) : string :=
  fst kv ++ "=" ++ snd kv.

(** [document.cookie] for a jar of cookies: [name=value] pairs joined by
    a semicolon and a space. *)
Definition cookie_string (jar : list (string * string)) : string :=
  String.concat "; " (map cookie_pair jar).

(** A pair as it can stand in [document.cookie]: no semicolon in it, no
    equals sign in the name, no white space before the name or after the
    value. *)
Definition tidy_pair (kv : string * string) : bool :=
  negb (has_char ";" (fst kv)) && negb (has_char "=" (fst kv))
  && negb (starts_with Str.is_space (fst kv))
  && negb (has_char ";" (snd kv)) && negb (ends_with Str.is_space (snd kv)).

(* ================================================================== *)
(** ** Form payloads: [formParser] *)
(* ================================================================== *)

(** The argument of [formParser]: a form element, given by the entries
    [new FormData(form)] collects from it, or any other value. *)
Inductive form_input : Type :=
| FormElement (fields : list (string * jsval))
| Value (v : jsval).

Definition Error (message : string) : jsval := JError "Error" message [].

(** [Object.entries(obj)] of an object. *)
Definition Object_entries (obj : jsval) : list (string * jsval) :=
  match obj with
  | JObj props => props
  | JError _ _ props => props
  | JArr items => JSON.indexed items
  | JFileList files => JSON.indexed files
  | _ => []
  end.

(** The calls of [fd.append] made for one entry: one per file of a
    [FileList], one for any other value, each with the key and the value
    handed over. *)
Definition append_entry (kv : string * jsval) : list (string * jsval) :=
  match snd kv with
  | JFileList files => map (fun f => (fst kv, f)) files
  | _ => [kv]
  end.

(** The integers a number holds exactly, written by [String] with all
    their digits. *)
Definition safe_integer (n : Z) : bool := (Z.abs n <=? 9007199254740991)%Z.

Definition not_primitive : jsval :=
  JSON.TypeError "Cannot convert object to primitive value".

(** [Error.prototype.toString] *)
Definition Error_toString (name message : string) : string :=
  if negb (Str.truthy name) then message
  else if negb (Str.truthy message) then name
  else name ++ ": " ++ message.

(** [String(v)].  An object is converted by the [toString] it inherits:
    an own property of that name, which holds no function, leaves only
    [valueOf], which returns the object, and the conversion throws.  An
    array joins the conversions of its elements, [null] and [undefined]
    counting as empty.  [None] is a conversion the model does not cover:
    that of a number outside the safe integers, and that of a reference
    back to a container, which depends on what is being converted around
    it. *)
Fixpoint ToString (v : jsval) : option (completion string) :=
  match v with
  | JUndefined => Some (Normal "undefined")
  | JNull => Some (Normal "null")
  | JBool b => Some (Normal (if b then "true" else "false"))
  | JNum n => if safe_integer n then Some (Normal (Str.ofZ n)) else None
  | JStr s => Some (Normal s)
  | JArr items =>
      let fix join (l : list jsval) : option (completion (list string)) :=
        match l with
        | [] => Some (Normal [])
        | x :: rest =>
            match (match x with
                   | JUndefined | JNull => Some (Normal EmptyString)
                   | _ => ToString x
                   end) with
            | Some (Normal piece) =>
                match join rest with
                | Some (Normal pieces) => Some (Normal (piece :: pieces))
                | other => other
                end
            | Some (Throw e) => Some (Throw e)
            | None => None
            end
        end in
      match join items with
      | Some (Normal pieces) => Some (Normal (String.concat "," pieces))
      | Some (Throw e) => Some (Throw e)
      | None => None
      end
  | JObj props =>
      match Js.lookup "toString" props with
      | Some _ => Some (Throw not_primitive)
      | None => Some (Normal "[object Object]")
      end
  | JError name message props =>
      match Js.lookup "toString" props with
      | Some _ => Some (Throw not_primitive)
      | None => Some (Normal (Error_toString name message))
      end
  | JBlob isFile => Some (Normal (if isFile then "[object File]" else "[object Blob]"))
  | JFileList _ => Some (Normal "[object FileList]")
  | JFormData _ => Some (Normal "[object FormData]")
  | JBackRef _ => None
  end.

(** What [fd.append(key, value)] stores for [value]: a [Blob] as a
    [File], any other value as the string it converts to. *)
Definition appended (value : jsval) : option (completion jsval) :=
  match value with
  | JBlob _ => Some (Normal (JBlob true))
  | _ =>
      match ToString value with
      | Some (Normal s) => Some (Normal (JStr s))
      | Some (Throw e) => Some (Throw e)
      | None => None
      end
  end.

(** The calls of [append] in order; the first throw ends them. *)
Fixpoint append_all (calls : list (string * jsval))
  : option (completion (list (string * jsval))) :=
  match calls with
  | [] => Some (Normal [])
  | (key, value) :: rest =>
      match appended value with
      | Some (Normal stored) =>
          match append_all rest with
          | Some (Normal entries) => Some (Normal ((key, stored) :: entries))
          | other => other
          end
      | Some (Throw e) => Some (Throw e)
      | None => None
      end
  end.

(** Lines 904-911: [None] when a conversion is not covered. *)
Definition to_FormData (dataObj : jsval) : option (completion jsval) :=
  match append_all (flat_map append_entry (Object_entries dataObj)) with
  | Some (Normal entries) => Some (Normal (JFormData entries))
  | Some (Throw e) => Some (Throw e)
  | None => None
  end.

Definition accepted_input (form : form_input) (message : string) : completion jsval :=
  match form with
  | FormElement fields => Normal (JFormData fields)
  | Value v =>
      if Js.typeof_object v && negb (Js.is_null v) then Normal v
      else Throw (Error message)
  end.

(** [formParser] of utils.js, lines 884-915. *)
Definition formParser (form : form_input) (autoJson : bool)
  : option (completion jsval) :=
  match accepted_input form "formParser expects a form element or a plain object" with
  | Throw e => Some (Throw e)
  | Normal dataObj =>
      if is_FormData dataObj then Some (Normal dataObj)
      else
        match objectContainsFile dataObj with
        | Throw e => Some (Throw e)
        | Normal true => to_FormData dataObj
        | Normal false =>
            if autoJson
            then Some (s <- JSON.stringify dataObj ;;
                       Normal (match s with Some s => JStr s | None => JUndefined end))%js
            else Some (Normal dataObj)
        end
  end.

Module Older.

(** [formParser] of the older copy of the file: it detects files with
    its local helper [containsFile] and returns a text-only object as it
    is. *)
Definition formParser (form : form_input) : option (completion jsval) :=
  match accepted_input form "formParser expects a form element or an object" with
  | Throw e => Some (Throw e)
  | Normal dataObj =>
      if is_FormData dataObj then Some (Normal dataObj)
      else
        match containsFile dataObj with
        | Throw e => Some (Throw e)
        | Normal true => to_FormData dataObj
        | Normal false => Some (Normal dataObj)
        end
  end.

(** [safeFetch(url, options)] of the oldest copy: one attempt, the
    options handed to [fetch] as they are, the whole body inside one
    [try]. *)
Definition safeFetch (T : Transport) (url : string) (options : Req.t) (w : World)
  : promise jsval * World :=
  match fetch T url options w with
  | (Pending, w) => (Pending, w)
  | (Rejected err, w) => (Fulfilled (JArr [err; JNull]), w)
  | (Fulfilled response, w) =>
      match read_body response with
      | Throw err => (Fulfilled (JArr [err; JNull]), w)
      | Normal data =>
          if negb (ok response)
          then (Fulfilled (JArr [http_error response data; JNull]), w)
          else (Fulfilled (JArr [JNull; data]), w)
      end
  end.

End Older.

(** A value written without a reference back to one of its
    containers. *)
Fixpoint cycle_free (v : jsval) : bool :=
  match v with
  | JBackRef _ => false
  | JArr items => forallb cycle_free items
  | JFileList files => forallb cycle_free files
  | JObj props => forallb (fun kv => cycle_free (snd kv)) props
  | JFormData entries => forallb (fun kv => cycle_free (snd kv)) entries
  | JError _ _ props => forallb (fun kv => cycle_free (snd kv)) props
  | _ => true
  end.

(** The value is, or holds at some depth, a [File], a [Blob] or a
    [FileList] that is not empty. *)
Inductive file_inside : jsval -> Prop :=
| file_blob isFile : file_inside (JBlob isFile)
| file_list f files : file_inside (JFileList (f :: files))
| file_in_array items v :
    In v items -> file_inside v -> file_inside (JArr items)
| file_in_object props k v :
    In (k, v) props -> file_inside v -> file_inside (JObj props)
| file_in_form entries k v :
    In (k, v) entries -> file_inside v -> file_inside (JFormData entries)
| file_in_error name message props k v :
    In (k, v) props -> file_inside v -> file_inside (JError name message props).

(* ================================================================== *)
(** ** Rate limiters: what happens to a wrapped function *)
(* ================================================================== *)

(** A function returned by [throttle] or [debounce] lives through two
    kinds of events: it is called with some arguments, or one of the
    timers it has set fires.  Each event carries the reading of the
    clock when it happens, one clock serving [Date.now()] and the
    timers; [k] is the position of the timer among the pending ones.  A
    pending timer is kept with the time from which it may fire. *)
Inductive event (A : Type) : Type :=
| Invoke (now : Z) (args : A)
| TimerFires (now : Z) (k : nat).
Arguments Invoke {A} now args.
Arguments TimerFires {A} now k.

(** The delay a timer set by [setTimeout(f, ms)] is sure to wait: [ms]
    when it lies between 0 and 2^31 - 1.  A negative delay is taken as
    zero, and a larger one does not fit the signed 32-bit integer the
    delay is kept in: such a timer may fire at once.  A host may make a
    timer wait longer, never less. *)
Definition delay_of (ms : Z) : Z :=
  if ((0 <=? ms) && (ms <=? 2147483647))%Z then ms else 0%Z.

(** A list without its [k]-th element. *)
Fixpoint without_nth {A : Type} (k : nat) (l : list A) : list A :=
  match l, k with
  | [], _ => []
  | _ :: l', O => l'
  | x :: l', S k' => x :: without_nth k' l'
  end.

(** The calls of a history, latest first. *)
Fixpoint calls_of {A : Type} (events : list (event A)) (acc : list (Z * A))
  : list (Z * A) :=
  match events with
  | [] => acc
  | Invoke now args :: rest => calls_of rest ((now, args) :: acc)
  | TimerFires _ _ :: rest => calls_of rest acc
  end.

(* ================================================================== *)
(** ** [throttle] (utils.js 1817-1831) *)
(* ================================================================== *)

Module Throttle.
Section Throttled.

Context {A R : Type}.

(** The wrapped function, taken not to call the wrapper itself: what it
    does may depend on the time and on its arguments; its result is
    dropped by the wrapper, a throw is not caught. *)
Variable func : Z -> A -> completion R.
Variable limit : Z.

(** The closure variable [inThrottle] ([undefined] at first, read as
    false), the due times of the pending timers, all of which run
    [inThrottle = false], and, to state properties, the applications of
    [func] so far (latest first) and the clock. *)
Record state : Type := mk {
  inThrottle : bool;
  pending : list Z;
  applied : list (Z * A);
  clock : Z
}.

Definition init (now : Z) : state :=
  {| inThrottle := false; pending := []; applied := []; clock := now |}.

Definition at_time (now : Z) (s : state) : state :=
  {| inThrottle := inThrottle s; pending := pending s; applied := applied s;
     clock := now |}.

(** Lines 1824-1829: the returned function. *)
Definition throttled (now : Z) (args : A) (s : state) : completion unit * state :=
  if negb (inThrottle s) then
    match func now args with
    | Throw e =>
        (Throw e,
         {| inThrottle := inThrottle s; pending := pending s;
            applied := (now, args) :: applied s; clock := clock s |})
    | Normal _ =>
        (Normal tt,
         {| inThrottle := true;
            pending := (pending s ++ [(now + delay_of limit)%Z])%list;
            applied := (now, args) :: applied s; clock := clock s |})
    end
  else (Normal tt, s).

(** Line 1828: the callback of the timer. *)
Definition reopen (k : nat) (s : state) : state :=
  {| inThrottle := false; pending := without_nth k (pending s);
     applied := applied s; clock := clock s |}.

(** One event; [None] when the event cannot happen: the clock would run
    backwards, or the timer is not pending or not yet due. *)
Definition step (e : event A) (s : state) : option (completion unit * state) :=
  match e with
  | Invoke now args =>
      if (clock s <=? now)%Z then Some (throttled now args (at_time now s)) else None
  | TimerFires now k =>
      match nth_error (pending s) k with
      | Some due =>
          if ((clock s <=? now) && (due <=? now))%Z
          then Some (Normal tt, reopen k (at_time now s))
          else None
      | None => None
      end
  end.

Fixpoint run (events : list (event A)) (s : state) : option state :=
  match events with
  | [] => Some s
  | e :: rest =>
      match step e s with
      | Some (_, s') => run rest s'
      | None => None
      end
  end.

(** Successive applications, latest first, are the delay of the timer
    apart, unless the earlier one threw. *)
Fixpoint spaced (log : list (Z * A)) : Prop :=
  match log with
  | [] => True
  | (t2, _) :: older =>
      match older with
      | [] => True
      | (t1, a1) :: _ =>
          ((exists r, func t1 a1 = Normal r) -> (t1 + delay_of limit <= t2)%Z)
      end /\ spaced older
  end.

(** What holds of every state the throttled function goes through. *)
Definition invariant (s : state) : Prop :=
  spaced (applied s) /\
  match applied s with
  | [] => inThrottle s = false /\ pending s = []
  | (t, a) :: _ =>
      (t <= clock s)%Z /\
      if inThrottle s
      then pending s = [(t + delay_of limit)%Z] /\
           (exists r, func t a = Normal r)
      else pending s = [] /\
           ((exists r, func t a = Normal r) -> (t + delay_of limit <= clock s)%Z)
  end.

End Throttled.
End Throttle.

(* ================================================================== *)
(** ** [debounce] (utils.js 1288-1320) *)
(* ================================================================== *)

Module Debounce.

(** The closure variable [timeoutId]: [undefined] at first, [null] once
    [later] has run to its end, the identifier of a timer otherwise. *)
Inductive timer_id : Type :=
| Undefined
| Null
| Id (n : nat).

(** [!timeoutId]. *)
Definition falsy (t : timer_id) : bool :=
  match t with
  | Undefined | Null => true
  | Id n => Nat.eqb n 0
  end.

(** The [options] argument after the destructuring of line 1289. *)
Record options : Type := mkOptions {
  immediate : bool;
  maxWait : option Z
}.

Section Debounced.

Context {A R : Type}.

(** The wrapped function, taken not to call the wrapper itself. *)
Variable func : Z -> A -> completion R.
Variable wait : Z.
Variable opts : options.

(** A pending timer: all of them run [later(context, args)]. *)
Record timer : Type := mkTimer {
  id : nat;
  due : Z;
  args : A
}.

(** The closure variables, the pending timers, the next timer
    identifier, and, to state properties, the applications of [func] so
    far (latest first) and the clock.  [result] is [None] while it is
    [undefined]. *)
Record state : Type := mk {
  timeoutId : timer_id;
  lastCallTime : option Z;
  result : option R;
  pending : list timer;
  next_id : nat;
  applied : list (Z * A);
  clock : Z
}.

(** Timer identifiers are positive integers. *)
Definition init (now : Z) : state :=
  {| timeoutId := Undefined; lastCallTime := None; result := None;
     pending := []; next_id := 1; applied := []; clock := now |}.

Definition at_time (now : Z) (s : state) : state :=
  {| timeoutId := timeoutId s; lastCallTime := lastCallTime s; result := result s;
     pending := pending s; next_id := next_id s; applied := applied s;
     clock := now |}.

(** [clearTimeout(timeoutId)]: nothing happens unless the identifier is
    that of a pending timer. *)
Definition clearTimeout (t : timer_id) (s : state) : state :=
  match t with
  | Id n =>
      {| timeoutId := timeoutId s; lastCallTime := lastCallTime s;
         result := result s;
         pending := filter (fun tm => negb (Nat.eqb (id tm) n)) (pending s);
         next_id := next_id s; applied := applied s; clock := clock s |}
  | Undefined | Null => s
  end.

(** [timeoutId = setTimeout(() => later(context, args), wait)]. *)
Definition arm (now : Z) (a : A) (s : state) : state :=
  {| timeoutId := Id (next_id s); lastCallTime := lastCallTime s;
     result := result s;
     pending := (pending s ++ [{| id := next_id s; due := (now + delay_of wait)%Z;
                                  args := a |}])%list;
     next_id := S (next_id s); applied := applied s; clock := clock s |}.

(** [result = func.apply(context, args)]; a throw leaves [result] as it
    was. *)
Definition apply_func (now : Z) (a : A) (s : state) : completion unit * state :=
  match func now a with
  | Normal r =>
      (Normal tt,
       {| timeoutId := timeoutId s; lastCallTime := lastCallTime s;
          result := Some r; pending := pending s; next_id := next_id s;
          applied := (now, a) :: applied s; clock := clock s |})
  | Throw e =>
      (Throw e,
       {| timeoutId := timeoutId s; lastCallTime := lastCallTime s;
          result := result s; pending := pending s; next_id := next_id s;
          applied := (now, a) :: applied s; clock := clock s |})
  end.

(** [maxWait && timeSinceLastCall < maxWait] of line 1296; with
    [lastCallTime] undefined the difference is [NaN] and the comparison
    false. *)
Definition within_maxWait (now : Z) (s : state) : bool :=
  match maxWait opts, lastCallTime s with
  | Some m, Some l => (negb (m =? 0) && (now - l <? m))%Z
  | _, _ => false
  end.

(** Lines 1292-1301. *)
Definition later (now : Z) (a : A) (s : state) : completion unit * state :=
  if within_maxWait now s then (Normal tt, arm now a s)
  else
    let s1 := {| timeoutId := Null; lastCallTime := lastCallTime s;
                 result := result s; pending := pending s; next_id := next_id s;
                 applied := applied s; clock := clock s |} in
    if negb (immediate opts) then apply_func now a s1 else (Normal tt, s1).

(** Lines 1303-1319: the returned function; its two [else] branches are
    the same statement. *)
Definition debounced (now : Z) (a : A) (s : state)
  : completion (option R) * state :=
  let callNow := immediate opts && falsy (timeoutId s) in
  let s1 := clearTimeout (timeoutId s) s in
  let s2 := {| timeoutId := timeoutId s1; lastCallTime := Some now;
               result := result s1; pending := pending s1; next_id := next_id s1;
               applied := applied s1; clock := clock s1 |} in
  if callNow then
    match apply_func now a s2 with
    | (Normal _, s3) => (Normal (result s3), s3)
    | (Throw e, s3) => (Throw e, s3)
    end
  else
    let s3 := arm now a s2 in (Normal (result s3), s3).

(** One event; [None] when the event cannot happen: the clock would run
    backwards, or the timer is not pending or not yet due.  A throw out
    of a timer callback goes to the host, not to a caller. *)
Definition step (e : event A) (s : state)
  : option (completion (option R) * state) :=
  match e with
  | Invoke now a =>
      if (clock s <=? now)%Z then Some (debounced now a (at_time now s)) else None
  | TimerFires now k =>
      match nth_error (pending s) k with
      | Some tm =>
          if ((clock s <=? now) && (due tm <=? now))%Z
          then
            let s1 := at_time now s in
            let s2 := {| timeoutId := timeoutId s1; lastCallTime := lastCallTime s1;
                         result := result s1;
                         pending := without_nth k (pending s1);
                         next_id := next_id s1; applied := applied s1;
                         clock := clock s1 |} in
            let (c, s3) := later now (args tm) s2 in
            Some ((_ <- c ;; Normal None)%js, s3)
          else None
      | None => None
      end
  end.

Fixpoint run (events : list (event A)) (s : state) : option state :=
  match events with
  | [] => Some s
  | e :: rest =>
      match step e s with
      | Some (_, s') => run rest s'
      | None => None
      end
  end.

(** The latest result that an application of [func] returned, none when
    none returned. *)
Fixpoint latest_result (log : list (Z * A)) : option R :=
  match log with
  | [] => None
  | (t, a) :: older =>
      match func t a with
      | Normal r => Some r
      | Throw _ => latest_result older
      end
  end.

(** What holds of every state the debounced function goes through,
    [calls] being the calls made so far, latest first. *)
Definition invariant (calls : list (Z * A)) (s : state) : Prop :=
  result s = latest_result (applied s) /\
  if immediate opts
  then timeoutId s = Undefined /\ pending s = [] /\ applied s = calls
  else pending s = [] \/
       exists tm tc earlier,
         pending s = [tm] /\ timeoutId s = Id (id tm) /\
         calls = (tc, args tm) :: earlier /\ lastCallTime s = Some tc /\
         (tc + delay_of wait <= due tm)%Z.

End Debounced.
End Debounce.

(* ================================================================== *)
(** ** Elements of the page *)
(* ================================================================== *)

Module Dom.

(** What the functions below touch of an element: its content
    attributes other than [style], [class] among them (names as the
    page has them, in lower case), and [style.display]. *)
Record Element : Type := mkElement {
  attributes : list (string * string);
  display : string
}.

Definition hasAttribute (el : Element) (name : string) : bool :=
  match Js.lookup name (attributes el) with
  | Some _ => true
  | None => false
  end.

(** A new attribute comes last; an existing one keeps its place. *)
Definition setAttribute (el : Element) (name value : string) : Element :=
  {| attributes := Js.assign name value (attributes el); display := display el |}.

Definition removeAttribute (el : Element) (name : string) : Element :=
  {| attributes := filter (fun kv => negb (String.eqb (fst kv) name)) (attributes el);
     display := display el |}.

(** ASCII white space: TAB, LF, FF, CR and SPACE. *)
Definition is_ascii_whitespace (c : ascii) : bool :=
  let n := Str.code c in
  (n =? 9)%nat || (n =? 10)%nat || (n =? 12)%nat || (n =? 13)%nat || (n =? 32)%nat.

(** The word a string starts with, empty when it starts with white
    space, and the words after that one. *)
Fixpoint split_words (s : string) : string * list string :=
  match s with
  | EmptyString => (EmptyString, [])
  | String c s' =>
      let (word, others) := split_words s' in
      if is_ascii_whitespace c
      then (EmptyString, if Str.truthy word then word :: others else others)
      else (String c word, others)
  end.

(** A string split on ASCII white space. *)
Definition words (s : string) : list string :=
  let (word, others) := split_words s in
  if Str.truthy word then word :: others else others.

(** The first occurrence of each token, in order. *)
Fixpoint ordered_set (l : list string) : list string :=
  match l with
  | [] => []
  | x :: rest => x :: filter (fun y => negb (String.eqb y x)) (ordered_set rest)
  end.

(** [el.classList]: the tokens of the [class] attribute. *)
Definition classList (el : Element) : list string :=
  ordered_set (words (match Js.lookup "class" (attributes el) with
                      | Some value => value
                      | None => EmptyString
                      end)).

Definition serialize (tokens : list string) : string := String.concat " " tokens.

(** The update steps of a token list: the attribute is written back,
    unless there is none and no token to write. *)
Definition update (el : Element) (tokens : list string) : Element :=
  match Js.lookup "class" (attributes el), tokens with
  | None, [] => el
  | _, _ => setAttribute el "class" (serialize tokens)
  end.

(** [add] and [remove] throw on a token that is empty or holds white
    space. *)
Definition checked (token : string) : completion unit :=
  if negb (Str.truthy token)
  then Throw (JError "SyntaxError" "The token provided must not be empty." [])
  else if Headers.all_chars (fun c => negb (is_ascii_whitespace c)) token
       then Normal tt
       else Throw (JError "InvalidCharacterError"
                          "The token provided contains white space." []).

(** [classList.add(token)]: a token already there is not added again. *)
Definition classList_add (el : Element) (token : string) : completion Element :=
  (_ <- checked token ;;
   let tokens := classList el in
   Normal (update el (if existsb (String.eqb token) tokens
                      then tokens
                      else (tokens ++ [token])%list)))%js.

Definition classList_remove (el : Element) (token : string) : completion Element :=
  (_ <- checked token ;;
   Normal (update el (filter (fun c => negb (String.eqb c token)) (classList el))))%js.

Definition set_display (el : Element) (value : string) : Element :=
  {| attributes := attributes el; display := value |}.

(** A token: not empty, no white space. *)
Definition is_token (t : string) : bool :=
  Str.truthy t && Headers.all_chars (fun c => negb (is_ascii_whitespace c)) t.

(** A list without repetition: each element is absent from what
    follows it. *)
Fixpoint distinct (l : list string) : bool :=
  match l with
  | [] => true
  | x :: rest => negb (existsb (String.eqb x) rest) && distinct rest
  end.

End Dom.

(* ================================================================== *)
(** ** [setElementLocked] (utils.js 1375-1393) *)
(* ================================================================== *)

(** The result is [null], [true] or [false]; the element is returned as
    the call leaves it. *)
Definition setElementLocked (el : option Dom.Element) (isDisabled : bool)
  : completion (option bool * option Dom.Element) :=
  match el with
  | None => Normal (None, None)
  | Some el =>
      let isAlreadyDisabled := Dom.hasAttribute el "disabled" in
      if isDisabled then
        if isAlreadyDisabled then Normal (Some true, Some el)
        else
          let el := Dom.setAttribute el "disabled" "true" in
          (el <- Dom.classList_add el "is-locked" ;;
           Normal (Some false, Some el))%js
      else
        let el := Dom.removeAttribute el "disabled" in
        (el <- Dom.classList_remove el "is-locked" ;;
         Normal (Some true, Some el))%js
  end.

(* ================================================================== *)
(** ** [showElement] and [hideElement] (utils.js 1257-1262) *)
(* ================================================================== *)

(** The page: its elements, referred to by their position. *)
Definition Page : Type := list Dom.Element.

Definition restyle (page : Page) (ref : nat) (value : string) : Page :=
  match nth_error page ref with
  | Some e => replace_nth ref (Dom.set_display e value) page
  | None => page
  end.

(** Both functions test their parameter [element] and then write to
    [el], which is not a parameter or a local: the identifier is
    resolved outside the function, [el] being what that gives, an
    element of the page or the [ReferenceError] of an unbound name. *)
Definition showElement_in (el : completion nat) (element : option nat) (page : Page)
  : completion unit * Page :=
  match element with
  | Some _ =>
      match el with
      | Normal ref => (Normal tt, restyle page ref EmptyString)
      | Throw e => (Throw e, page)
      end
  | None => (Normal tt, page)
  end.

Definition hideElement_in (el : completion nat) (element : option nat) (page : Page)
  : completion unit * Page :=
  match element with
  | Some _ =>
      match el with
      | Normal ref => (Normal tt, restyle page ref "none")
      | Throw e => (Throw e, page)
      end
  | None => (Normal tt, page)
  end.

(** utils.js declares no [el] at module level. *)
Definition module_scope_el : completion nat := Throw (ReferenceError "el").

Definition showElement : option nat -> Page -> completion unit * Page :=
  showElement_in module_scope_el.

Definition hideElement : option nat -> Page -> completion unit * Page :=
  hideElement_in module_scope_el.

(* ================================================================== *)
(** ** [serializeForm] (utils.js 1633-1650) *)
(* ================================================================== *)

(** The members every object literal inherits from [Object.prototype]. *)
Definition Object_prototype_names : list string :=
  ["constructor"; "__defineGetter__"; "__defineSetter__"; "hasOwnProperty";
   "__lookupGetter__"; "__lookupSetter__"; "isPrototypeOf";
   "propertyIsEnumerable"; "toString"; "valueOf"; "__proto__"; "toLocaleString"].

Definition is_digit (c : ascii) : bool :=
  (48 <=? nat_of_ascii c)%nat && (nat_of_ascii c <=? 57)%nat.

Fixpoint all_digits (s : string) : bool :=
  match s with
  | EmptyString => true
  | String c s' => is_digit c && all_digits s'
  end.

(** Field names for which the reducer of line 1639 works on own
    properties kept in the order of their creation: not the name of an
    inherited member, which [key in acc] finds in a fresh object, and
    not a run of digits, which an object lists before its other keys. *)
Definition plain_name (key : string) : bool :=
  negb (existsb (String.eqb key) Object_prototype_names) && negb (all_digits key).

(** The reducer of lines 1639-1647. *)
Definition collect (acc : list (string * jsval)) (entry : string * jsval)
  : list (string * jsval) :=
  let (key, value) := entry in
  match Js.lookup key acc with
  | Some (JArr items) => Js.assign key (JArr (items ++ [value])%list) acc
  | Some single => Js.assign key (JArr [single; value]) acc
  | None => Js.assign key value acc
  end.

(** [None] when a field has a name that is not plain: the model does not
    cover these.  A form is given by the entries [new FormData(form)]
    collects from it. *)
Definition serializeForm (form : form_input) (asJSON : bool)
  : option (completion jsval) :=
  match form with
  | Value _ => Some (Normal (if asJSON then JStr "{}" else JObj []))
  | FormElement fields =>
      if forallb (fun kv => plain_name (fst kv)) fields then
        let serialized := JObj (fold_left collect fields []) in
        if asJSON
        then Some (s <- JSON.stringify serialized ;;
                   Normal (match s with Some s => JStr s | None => JUndefined end))%js
        else Some (Normal serialized)
      else None
  end.

(** The values a form gives to a name, in the order of the form. *)
Definition values_of (key : string) (fields : list (string * jsval)) : list jsval :=
  map snd (filter (fun kv => String.eqb (fst kv) key) fields).

(** The value of an entry of a [FormData]: a string or a [File]. *)
Definition entry_value (v : jsval) : bool :=
  match v with
  | JStr _ | JBlob _ => true
  | _ => false
  end.

(** One value stands for itself, several make an array. *)
Definition grouped (values : list jsval) : option jsval :=
  match values with
  | [] => None
  | [v] => Some v
  | _ => Some (JArr values)
  end.

(* ================================================================== *)
(** * Properties *)
(* ================================================================== *)

(** ** Strings *)

Lemma toLowerCase_app (a b : string) :
  Str.toLowerCase (a ++ b) = Str.toLowerCase a ++ Str.toLowerCase b.
Proof.
  induction a as [|c a IH]; simpl; [reflexivity | now rewrite IH].
Qed.

(** A lower-cased string splits where its original splits. *)
Lemma toLowerCase_split (s a b : string) :
  Str.toLowerCase s = a ++ b ->
  exists a' b', s = a' ++ b' /\ Str.toLowerCase a' = a /\ Str.toLowerCase b' = b.
Proof.
  revert s. induction a as [|c a IH]; intros s H.
  - exists EmptyString, s. auto.
  - destruct s as [|d s]; simpl in H; [discriminate|].
    injection H as Hc Hs. destruct (IH _ Hs) as (a' & b' & -> & Ha & Hb).
    exists (String d a'), b'. simpl. now rewrite Hc, Ha, Hb.
Qed.

Lemma startsWith_spec (s pat : string) :
  Str.startsWith s pat = true <-> exists post, s = pat ++ post.
Proof.
  revert s. induction pat as [|p pat IH]; intros s; simpl.
  - split; [exists s; reflexivity | now destruct s].
  - destruct s as [|c s]; simpl.
    + split; [discriminate | intros [post H]; discriminate].
    + rewrite andb_true_iff, Ascii.eqb_eq, IH. split.
      * intros [-> [post ->]]. now exists post.
      * intros [post H]. injection H as -> ->. split; [reflexivity | now exists post].
Qed.

Lemma includes_spec (s pat : string) :
  Str.includes s pat = true <-> exists pre post, s = pre ++ pat ++ post.
Proof.
  induction s as [|c s IH].
  - cbn [Str.includes]. rewrite orb_false_r, startsWith_spec. split.
    + intros [post H]. now exists EmptyString, post.
    + intros (pre & post & H). destruct pre; simpl in H; [now exists post | discriminate].
  - cbn [Str.includes]. rewrite orb_true_iff, startsWith_spec, IH. split.
    + intros [[post H] | (pre & post & H)].
      * now exists EmptyString, post.
      * exists (String c pre), post. simpl. now rewrite H.
    + intros (pre & post & H). destruct pre as [|d pre]; simpl in H.
      * left. now exists post.
      * right. injection H as _ H. now exists pre, post.
Qed.

Lemma ci_prefix_spec (pat s : string) :
  ci_prefix pat s <-> Str.startsWith (Str.toLowerCase s) (Str.toLowerCase pat) = true.
Proof.
  rewrite startsWith_spec. split.
  - intros (mid & post & -> & H). rewrite toLowerCase_app, H. eauto.
  - intros [post H]. apply toLowerCase_split in H as (a & b & -> & Ha & _).
    now exists a, b.
Qed.

Lemma ci_contains_spec (pat s : string) :
  ci_contains pat s <-> Str.includes (Str.toLowerCase s) (Str.toLowerCase pat) = true.
Proof.
  rewrite includes_spec. split.
  - intros (pre & mid & post & -> & H). rewrite !toLowerCase_app, H. eauto.
  - intros (pre & post & H).
    apply toLowerCase_split in H as (a & rest & -> & _ & H).
    apply toLowerCase_split in H as (m & b & -> & Hm & _).
    now exists a, m, b.
Qed.

(** ** The response classifier *)

Lemma is_json_iff (h : string) :
  is_json h <-> Str.includes (Str.toLowerCase h) "application/json" = true.
Proof. exact (ci_contains_spec "application/json" h). Qed.

Lemma is_text_iff (h : string) :
  is_text h <-> Str.startsWith (Str.toLowerCase h) "text/" = true.
Proof. exact (ci_prefix_spec "text/" h). Qed.

Lemma is_multipart_iff (h : string) :
  is_multipart h <-> Str.startsWith (Str.toLowerCase h) "multipart/" = true.
Proof. exact (ci_prefix_spec "multipart/" h). Qed.

Lemma is_binary_iff (h : string) :
  is_binary h <->
  Str.includes (Str.toLowerCase h) "application/octet-stream"
  || Str.startsWith (Str.toLowerCase h) "image/"
  || Str.startsWith (Str.toLowerCase h) "audio/"
  || Str.startsWith (Str.toLowerCase h) "video/"
  || Str.includes (Str.toLowerCase h) "application/pdf" = true.
Proof.
  unfold is_binary. rewrite !orb_true_iff.
  rewrite (ci_prefix_spec "image/"), (ci_prefix_spec "audio/"),
    (ci_prefix_spec "video/"), (ci_contains_spec "application/octet-stream"),
    (ci_contains_spec "application/pdf").
  cbn [Str.toLowerCase]. tauto.
Qed.

Lemma not_true_iff (P : Prop) (b : bool) : (P <-> b = true) -> b = false -> ~ P.
Proof. intros H E HP. apply H in HP. congruence. Qed.

Lemma classify_functional (h : option string) (c1 c2 : Category) :
  classify h c1 -> classify h c2 -> c1 = c2.
Proof.
  intros H1 H2; inversion H1; subst; inversion H2; subst;
    solve [reflexivity | contradiction].
Qed.

Lemma getResponseType_classify (r : Response) :
  exists c, getResponseType r = category_name c /\ classify (content_type r) c.
Proof.
  unfold getResponseType. fold (content_type r).
  destruct (content_type r) as [h|].
  - replace (if Str.truthy h then h else EmptyString) with h by now destruct h.
    destruct (Str.includes (Str.toLowerCase h) "application/json") eqn:Ej.
    { exists CatJson. split; [reflexivity|]. constructor. now apply is_json_iff. }
    pose proof (not_true_iff _ _ (is_json_iff h) Ej) as Nj.
    destruct (Str.startsWith (Str.toLowerCase h) "text/") eqn:Et.
    { exists CatText. split; [reflexivity|]. constructor; [assumption|]. now apply is_text_iff. }
    pose proof (not_true_iff _ _ (is_text_iff h) Et) as Nt.
    destruct (Str.startsWith (Str.toLowerCase h) "multipart/") eqn:Em.
    { exists CatMultipart. split; [reflexivity|].
      constructor; [assumption..|]. now apply is_multipart_iff. }
    pose proof (not_true_iff _ _ (is_multipart_iff h) Em) as Nm.
    match goal with |- context [if ?b then _ else _] => destruct b eqn:Eb end.
    { exists CatBinary. split; [reflexivity|].
      constructor; [assumption..|]. now apply is_binary_iff. }
    exists CatUnknown. split; [reflexivity|].
    constructor; [assumption..|]. exact (not_true_iff _ _ (is_binary_iff h) Eb).
  - exists CatUnknown. split; [reflexivity | constructor].
Qed.

(** C6.  [getResponseType] computes the category that the matching order
    of the specification assigns to the content-type header of the
    response (first match wins, letter case ignored, an absent header is
    unknown); that order assigns one category only; and two responses
    with the same header get the same answer. *)
Theorem getResponseType_first_match :
  (forall r, exists c,
      getResponseType r = category_name c /\ classify (content_type r) c) /\
  (forall h c1 c2, classify h c1 -> classify h c2 -> c1 = c2) /\
  (forall r1 r2, content_type r1 = content_type r2 ->
                 getResponseType r1 = getResponseType r2).
Proof.
  split; [exact getResponseType_classify|].
  split; [exact classify_functional|].
  intros r1 r2 H. unfold getResponseType. fold (content_type r1) (content_type r2).
  now rewrite H.
Qed.

Lemma getResponseType_first_match_witness :
  getResponseType pdf_response = "blob" /\
  classify (content_type pdf_response) CatBinary.
Proof.
  destruct (proj1 getResponseType_first_match pdf_response) as (c & Hname & Hc).
  destruct c; try discriminate Hname. split; [reflexivity | exact Hc].
Defined.

(** ** The CSRF token resolver *)

Lemma present_Some (o : option string) (tok : string) :
  present o = Some tok -> o = Some tok /\ present (Some tok) = Some tok.
Proof.
  destruct o as [s|]; simpl; [|discriminate].
  destruct (Str.truthy s) eqn:E; [|discriminate].
  intros [= ->]. simpl. now rewrite E.
Qed.

(** A call that finds the cache filled returns it and reads nothing. *)
Lemma getCSRFToken_hit (document : Document) (st : CsrfState) (tok : string) :
  present (cachedToken st) = Some tok ->
  getCSRFToken document st = (Some tok, st).
Proof. intros H. unfold getCSRFToken. now rewrite H. Qed.

(** A call that finds the cache empty asks the sources in order. *)
Lemma getCSRFToken_miss (document : Document) (st : CsrfState) :
  present (cachedToken st) = None ->
  fst (getCSRFToken document st) = first_successful_source document.
Proof.
  intros H. unfold getCSRFToken, first_successful_source. rewrite H.
  destruct (present (csrf_input document)); [reflexivity|].
  destruct (present (csrf_meta document)); [reflexivity|].
  destruct (present (getCookie document "csrftoken")); reflexivity.
Qed.

(** Whatever a call returns is, when it is a token, in the cache. *)
Lemma getCSRFToken_caches (document : Document) (st st' : CsrfState) (tok : string) :
  getCSRFToken document st = (Some tok, st') ->
  present (cachedToken st') = Some tok.
Proof.
  unfold getCSRFToken.
  destruct (present (cachedToken st)) as [t|] eqn:Hc.
  { intros [= -> ->]. exact Hc. }
  destruct (present (csrf_input document)) as [v|] eqn:Hi.
  { simpl. intros [= -> <-]. simpl. now apply present_Some in Hi. }
  destruct (present (csrf_meta document)) as [v|] eqn:Hm.
  { simpl. intros [= -> <-]. simpl. now apply present_Some in Hm. }
  destruct (present (getCookie document "csrftoken")) as [v|] eqn:Hk.
  { simpl. intros [= -> <-]. simpl. now apply present_Some in Hk. }
  discriminate.
Qed.

Lemma getCSRFToken_fails (document : Document) (st st' : CsrfState) :
  getCSRFToken document st = (None, st') ->
  first_successful_source document = None /\
  cachedToken st' = cachedToken st /\ present (cachedToken st) = None /\
  accesses st' = ReadCookie :: QueryMeta :: QueryInput :: accesses st.
Proof.
  unfold getCSRFToken, first_successful_source.
  destruct (present (cachedToken st)) as [t|] eqn:Hc; [discriminate|].
  destruct (present (csrf_input document)) as [v|] eqn:Hi.
  { simpl. discriminate. }
  destruct (present (csrf_meta document)) as [v|] eqn:Hm.
  { simpl. discriminate. }
  destruct (present (getCookie document "csrftoken")) as [v|] eqn:Hk.
  { simpl. discriminate. }
  intros [= <-]. simpl. auto.
Qed.

(** C9.  The resolver asks the hidden form field, then the meta tag, then
    the cookie [csrftoken], and the first token found is the answer; a
    token once returned is returned by every later call, whatever the
    page has become, without reading the page again; with a token in the
    hidden field two calls in a row return the same string and read the
    page at most once; a call that finds nothing leaves the cache empty
    after asking all three sources, and the next call asks again. *)
Theorem getCSRFToken_resolves_and_caches (document : Document) (st : CsrfState) :
  (present (cachedToken st) = None ->
   fst (getCSRFToken document st) = first_successful_source document) /\
  (forall tok st',
      getCSRFToken document st = (Some tok, st') ->
      forall document', getCSRFToken document' st' = (Some tok, st')) /\
  (forall value,
      present (csrf_input document) = Some value ->
      forall document',
        let (first, st1) := getCSRFToken document st in
        let (second, st2) := getCSRFToken document' st1 in
        first = second /\
        (exists tok, first = Some tok) /\
        (present (cachedToken st) = None -> first = Some value) /\
        List.length (accesses st2) <= List.length (accesses st) + 1) /\
  (forall st',
      getCSRFToken document st = (None, st') ->
      present (cachedToken st') = None /\
      accesses st' = ReadCookie :: QueryMeta :: QueryInput :: accesses st /\
      forall document',
        fst (getCSRFToken document' st') = first_successful_source document').
Proof.
  split; [apply getCSRFToken_miss|].
  split.
  { intros tok st' H document'.
    apply getCSRFToken_hit. now apply getCSRFToken_caches in H. }
  split.
  { intros value Hi document'.
    destruct (getCSRFToken document st) as [first st1] eqn:E1.
    assert (exists tok, first = Some tok /\ present (cachedToken st1) = Some tok /\
                        (present (cachedToken st) = None -> tok = value) /\
                        List.length (accesses st1) <= List.length (accesses st) + 1)
      as (tok & -> & Hc & Hv & Hn).
    { revert E1. unfold getCSRFToken.
      destruct (present (cachedToken st)) as [t|] eqn:Hc.
      - intros [= <- <-]. exists t. repeat split; [assumption | discriminate | lia].
      - rewrite Hi. simpl. intros [= <- <-]. exists value. simpl.
        apply present_Some in Hi. repeat split; [tauto | lia]. }
    rewrite (getCSRFToken_hit document' st1 tok Hc).
    repeat split; [now exists tok | intros H; now rewrite (Hv H) | exact Hn]. }
  intros st' H. apply getCSRFToken_fails in H as (_ & Hc & Hp & Ha).
  assert (present (cachedToken st') = None) as Hp' by now rewrite Hc.
  repeat split; [assumption.. | intros document'; now apply getCSRFToken_miss].
Qed.

Lemma getCSRFToken_resolves_and_caches_witness :
  let (first, st1) := getCSRFToken page_with_hidden_field csrf_initial in
  let (second, st2) := getCSRFToken page_without_token st1 in
  first = second /\ (exists tok, first = Some tok) /\
  (present (cachedToken csrf_initial) = None -> first = Some "tok123") /\
  List.length (accesses st2) <= List.length (accesses csrf_initial) + 1.
Proof.
  exact (proj1 (proj2 (proj2
           (getCSRFToken_resolves_and_caches page_with_hidden_field csrf_initial)))
           "tok123" eq_refl page_without_token).
Defined.

(** ** The header builder *)

Ltac names :=
  unfold Headers.named, Headers.same_name in *; cbn [fst snd] in *;
  repeat match goal with
         | |- context [String.eqb ?a ?b] => destruct (String.eqb_spec a b)
         | H : context [String.eqb ?a ?b] |- _ => destruct (String.eqb_spec a b)
         end;
  cbn [negb] in *; try congruence.

Lemma filter_named_after_removal_same (h : Headers.t) (n n' : string) :
  Headers.same_name n n' = true ->
  filter (Headers.named n') (filter (fun kv => negb (Headers.named n kv)) h) = [].
Proof.
  intros E. induction h as [|[k x] h IH]; [reflexivity|].
  cbn [filter]. destruct (negb (Headers.named n (k, x))) eqn:Ek; [|exact IH].
  cbn [filter]. rewrite IH. names.
Qed.

Lemma filter_named_after_removal_other (h : Headers.t) (n n' : string) :
  Headers.same_name n n' = false ->
  filter (Headers.named n') (filter (fun kv => negb (Headers.named n kv)) h)
  = filter (Headers.named n') h.
Proof.
  intros E. induction h as [|[k x] h IH]; [reflexivity|].
  cbn [filter]. destruct (negb (Headers.named n (k, x))) eqn:Ek; cbn [filter];
    rewrite IH; [reflexivity|]. names.
Qed.

Lemma filter_named_put_same (h : Headers.t) (n n' v : string) :
  Headers.same_name n n' = true ->
  exists k, filter (Headers.named n') (Headers.put h n v) = [(k, v)].
Proof.
  intros E. induction h as [|[k x] h IH]; cbn [Headers.put].
  - exists n. cbn [filter]. names.
  - destruct (Headers.same_name k n) eqn:Ek.
    + exists k. cbn [filter]. rewrite (filter_named_after_removal_same h n n' E). names.
    + destruct IH as [k' IH]. exists k'. cbn [filter]. rewrite IH. names.
Qed.

Lemma filter_named_put_other (h : Headers.t) (n n' v : string) :
  Headers.same_name n n' = false ->
  filter (Headers.named n') (Headers.put h n v) = filter (Headers.named n') h.
Proof.
  intros E. induction h as [|[k x] h IH]; cbn [Headers.put].
  - cbn [filter]. names.
  - destruct (Headers.same_name k n) eqn:Ek; cbn [filter].
    + rewrite (filter_named_after_removal_other h n n' E). names.
    + rewrite IH. reflexivity.
Qed.

(** Reading a header after a write in the list. *)
Lemma get_put (h : Headers.t) (n n' v : string) :
  Headers.get (Headers.put h n v) n' =
  if Headers.same_name n n' then Some v else Headers.get h n'.
Proof.
  unfold Headers.get. destruct (Headers.same_name n n') eqn:E.
  - destruct (filter_named_put_same h n n' v E) as [k ->]. reflexivity.
  - now rewrite filter_named_put_other.
Qed.

(** [set] either writes the normalized value or throws. *)
Lemma set_settable (h : Headers.t) (n v : string) :
  Headers.set h n v =
  if settable (n, v) then Normal (Headers.put h n (Headers.normalize v))
  else Throw Headers.invalid.
Proof. reflexivity. Qed.

Lemma set_each_thrown (entries : list (string * string)) (e : jsval) :
  fold_left (fun acc kv => h <- acc ;; Headers.set h (fst kv) (snd kv))
            entries (Throw e) = Throw e.
Proof. induction entries as [|kv entries IH]; [reflexivity | exact IH]. Qed.

(** The loop over [extra] writes every entry, normalized, when all of
    them can be set, and throws otherwise. *)
Lemma set_each_settable (entries : list (string * string)) (h : Headers.t) :
  set_each entries h =
  if forallb settable entries
  then Normal (fold_left (fun h kv => Headers.put h (fst kv) (Headers.normalize (snd kv)))
                         entries h)
  else Throw Headers.invalid.
Proof.
  unfold set_each. revert h.
  induction entries as [|[k v] entries IH]; intros h; [reflexivity|].
  cbn [fold_left forallb bind fst snd]. rewrite set_settable.
  destruct (settable (k, v)); cbn [andb fst snd].
  - apply IH.
  - apply set_each_thrown.
Qed.

(** The entries of [extra] are written in order: the last one of a name
    is the one that stays. *)
Lemma get_fold_put (entries : list (string * string)) (h : Headers.t) (name : string) :
  Headers.get
    (fold_left (fun h kv => Headers.put h (fst kv) (Headers.normalize (snd kv)))
               entries h) name =
  match last_named name entries with
  | Some v => Some (Headers.normalize v)
  | None => Headers.get h name
  end.
Proof.
  revert h. induction entries as [|[k v] entries IH]; intros h; [reflexivity|].
  cbn [fold_left last_named fst snd]. rewrite IH, get_put.
  destruct (last_named name entries); [reflexivity|].
  destruct (Headers.same_name k name); reflexivity.
Qed.

(** An exact key of [extra] is also a name of [extra]. *)
Lemma lookup_last_named (entries : list (string * string)) (key name : string) :
  Headers.same_name key name = true ->
  last_named name entries = None -> Js.lookup key entries = None.
Proof.
  intros E. induction entries as [|[k v] entries IH]; [reflexivity|].
  cbn [last_named Js.lookup].
  destruct (last_named name entries); [discriminate|].
  destruct (Headers.same_name k name) eqn:Ek; [discriminate|].
  intros _. destruct (String.eqb_spec k key) as [->|]; [congruence | now apply IH].
Qed.

Lemma authorization_is_not_content_type (name : string) :
  Headers.same_name "Authorization" name = true ->
  Headers.same_name "Content-Type" name = false.
Proof.
  unfold Headers.same_name. intros Ha.
  destruct (String.eqb_spec (Str.toLowerCase "Content-Type") (Str.toLowerCase name))
    as [Hc|]; [|reflexivity].
  apply String.eqb_eq in Ha. rewrite <- Hc in Ha. discriminate Ha.
Qed.

(** The headers written before the loop over [extra]. *)
Lemma createHeaders_defaults (cfg : HeaderConfig) :
  match present (token cfg) with
  | Some tok => Headers.valid_value (Headers.normalize ("Bearer " ++ tok))
  | None => true
  end = true ->
  exists h1 h0,
    (if isJson cfg && negb (truthy_opt (Js.lookup "Content-Type" (extra cfg)))
     then Headers.set Headers.empty "Content-Type" "application/json"
     else Normal Headers.empty) = Normal h1 /\
    match token cfg with
    | Some tok =>
        if Str.truthy tok
        then Headers.set h1 "Authorization" ("Bearer " ++ tok)
        else Normal h1
    | None => Normal h1
    end = Normal h0 /\
    forall name,
      last_named name (extra cfg) = None ->
      Headers.get h0 name =
      if Headers.same_name "Authorization" name
      then option_map (fun tok => Headers.normalize ("Bearer " ++ tok))
                      (present (token cfg))
      else if Headers.same_name "Content-Type" name
           then (if isJson cfg then Some "application/json" else None)
           else None.
Proof.
  intros Htok.
  set (h1 := if isJson cfg && negb (truthy_opt (Js.lookup "Content-Type" (extra cfg)))
             then Headers.put Headers.empty "Content-Type" "application/json"
             else Headers.empty).
  exists h1.
  assert ((if isJson cfg && negb (truthy_opt (Js.lookup "Content-Type" (extra cfg)))
           then Headers.set Headers.empty "Content-Type" "application/json"
           else Normal Headers.empty) = Normal h1) as Hh1.
  { subst h1. destruct (_ && _); reflexivity. }
  assert (forall name,
             last_named name (extra cfg) = None ->
             Headers.get h1 name
             = if Headers.same_name "Content-Type" name
               then (if isJson cfg then Some "application/json" else None)
               else None) as Hct.
  { intros name El. subst h1.
    destruct (Headers.same_name "Content-Type" name) eqn:Ec.
    - rewrite (lookup_last_named _ _ _ Ec El). cbn [truthy_opt negb].
      rewrite andb_true_r.
      destruct (isJson cfg); [|reflexivity]. now rewrite get_put, Ec.
    - destruct (_ && _); [|reflexivity]. now rewrite get_put, Ec. }
  clearbody h1. unfold present in *.
  destruct (token cfg) as [tok|].
  - destruct (Str.truthy tok); cbv beta iota in Htok.
    + exists (Headers.put h1 "Authorization" (Headers.normalize ("Bearer " ++ tok))).
      split; [exact Hh1|]. split.
      { rewrite set_settable. unfold settable. cbn [fst snd].
        change (Headers.valid_name "Authorization") with true. cbn [andb].
        now rewrite Htok. }
      intros name El. rewrite get_put. cbn [option_map].
      destruct (Headers.same_name "Authorization" name); [reflexivity | now apply Hct].
    + exists h1. split; [exact Hh1|]. split; [reflexivity|].
      intros name El. cbn [option_map].
      rewrite (Hct name El).
      destruct (Headers.same_name "Authorization" name) eqn:Ea; [|reflexivity].
      now rewrite (authorization_is_not_content_type name Ea).
  - exists h1. split; [exact Hh1|]. split; [reflexivity|].
    intros name El. cbn [option_map].
    rewrite (Hct name El).
    destruct (Headers.same_name "Authorization" name) eqn:Ea; [|reflexivity].
    now rewrite (authorization_is_not_content_type name Ea).
Qed.

(** C8 (as the code has it).  When the token and every entry of [extra]
    can be set (names that are tokens, values without NUL, LF or CR once
    their surrounding white space is removed), [createHeaders] returns a
    header set in which, for every header name, letter case ignored: an
    entry of [extra] decides (the last of that name, its value
    normalized); failing that, [Authorization] is [Bearer] and the token
    when the token is a non-empty string, [Content-Type] is
    [application/json] when [isJson] is set, and any other header is
    absent.  Otherwise [createHeaders] throws a [TypeError].  There is no
    CSRF header and no default [Accept]. *)
Theorem createHeaders_precedence (cfg : HeaderConfig) :
  if all_settable cfg
  then exists h,
      createHeaders cfg = Normal h /\
      forall name,
        Headers.get h name =
        match last_named name (extra cfg) with
        | Some v => Some (Headers.normalize v)
        | None =>
            if Headers.same_name "Authorization" name
            then option_map (fun tok => Headers.normalize ("Bearer " ++ tok))
                            (present (token cfg))
            else if Headers.same_name "Content-Type" name
                 then (if isJson cfg then Some "application/json" else None)
                 else None
        end
  else exists message, createHeaders cfg = Throw (JSON.TypeError message).
Proof.
  unfold all_settable, createHeaders.
  destruct (match present (token cfg) with
            | Some tok => Headers.valid_value (Headers.normalize ("Bearer " ++ tok))
            | None => true
            end) eqn:Htok; cbn [andb].
  - destruct (createHeaders_defaults cfg Htok) as (h1 & h0 & Hh1 & Hh0 & Hget).
    rewrite Hh1. cbn [bind]. rewrite Hh0. cbn [bind]. rewrite set_each_settable.
    destruct (forallb settable (extra cfg)).
    + eexists. split; [reflexivity|]. intros name. rewrite get_fold_put.
      destruct (last_named name (extra cfg)) eqn:El; [reflexivity | now apply Hget].
    + eexists. reflexivity.
  - unfold present in Htok. destruct (token cfg) as [tok|]; [|discriminate].
    destruct (Str.truthy tok); [|discriminate]. cbv beta iota in Htok.
    assert (forall h1, Headers.set h1 "Authorization" ("Bearer " ++ tok)
                       = Throw Headers.invalid) as Hthrow.
    { intros h1. rewrite set_settable. unfold settable. cbn [fst snd].
      change (Headers.valid_name "Authorization") with true. cbn [andb].
      now rewrite Htok. }
    exists "Invalid header name or value".
    destruct (isJson cfg && negb (truthy_opt (Js.lookup "Content-Type" (extra cfg)))).
    + change (Headers.set Headers.empty "Content-Type" "application/json")
        with (@Normal Headers.t [("Content-Type", "application/json")]).
      cbn [bind]. rewrite Hthrow. reflexivity.
    + cbn [bind]. rewrite Hthrow. reflexivity.
Qed.

(** C8 as claimed fails: [createHeaders()] carries no [Accept] header. *)
Lemma createHeaders_no_accept_default :
  ~ accept_default_present no_header_options.
Proof.
  unfold accept_default_present. intros H.
  destruct (H eq_refl) as (h & Hh & Hget).
  vm_compute in Hh. injection Hh as <-. vm_compute in Hget. discriminate.
Qed.

(** ** The retry loop *)

(** One turn of the loop of [safeFetch]. *)
Lemma safeFetch_loop_turn T url opts id retries attempts w :
  safeFetch_loop T url opts id retries attempts w =
  if (attempts <=? retries)%Z
  then match try_block T url opts id w with
       | (Fulfilled v, w') => (Fulfilled v, w')
       | (Pending, w') => (Pending, w')
       | (Rejected err, w') =>
           if (attempts <? retries)%Z
           then safeFetch_loop T url opts id retries (attempts + 1) w'
           else (Fulfilled (JArr [err; JNull]), w')
       end
  else (Fulfilled JUndefined, w).
Proof.
  rewrite safeFetch_loop_equation_1.
  destruct (attempts <=? retries)%Z; cbn; [|reflexivity].
  destruct (try_block T url opts id w) as [[v|err|] w']; cbn; try reflexivity.
  destruct (Z_lt_dec attempts retries) as [H|H]; cbn.
  - apply Z.ltb_lt in H. now rewrite H.
  - apply Z.ltb_nlt in H. now rewrite H.
Qed.

(** Induction along the turns of the loop: the test fails; the [try]
    block returns; it hangs; it throws on the last attempt; it throws
    with attempts left and the loop goes round again. *)
Lemma safeFetch_loop_induction
    (T : Transport) (url : string) (opts : Req.t) (id : option nat) (retries : Z)
    (P : Z -> World -> promise jsval * World -> Prop) :
  (forall attempts w, (retries < attempts)%Z -> P attempts w (Fulfilled JUndefined, w)) ->
  (forall attempts w v w',
      (attempts <= retries)%Z ->
      try_block T url opts id w = (Fulfilled v, w') ->
      P attempts w (Fulfilled v, w')) ->
  (forall attempts w w',
      (attempts <= retries)%Z ->
      try_block T url opts id w = (Pending, w') ->
      P attempts w (Pending, w')) ->
  (forall w err w',
      try_block T url opts id w = (Rejected err, w') ->
      P retries w (Fulfilled (JArr [err; JNull]), w')) ->
  (forall attempts w err w',
      (attempts < retries)%Z ->
      try_block T url opts id w = (Rejected err, w') ->
      P (attempts + 1)%Z w' (safeFetch_loop T url opts id retries (attempts + 1) w') ->
      P attempts w (safeFetch_loop T url opts id retries (attempts + 1) w')) ->
  forall attempts w, P attempts w (safeFetch_loop T url opts id retries attempts w).
Proof.
  intros Hexit Hret Hhang Hlast Hretry attempts w.
  remember (Z.to_nat (retries + 1 - attempts)) as n eqn:Hn.
  revert attempts w Hn. induction n as [|n IH]; intros attempts w Hn;
    rewrite safeFetch_loop_turn.
  - destruct (Z.leb_spec attempts retries); [lia|]. now apply Hexit.
  - destruct (Z.leb_spec attempts retries); [|lia].
    destruct (try_block T url opts id w) as [[v|err|] w'] eqn:Et.
    + now apply Hret.
    + destruct (Z.ltb_spec attempts retries).
      * apply (Hretry attempts w err w'); [assumption..|]. apply IH. lia.
      * assert (attempts = retries) as -> by lia. now apply Hlast.
    + now apply Hhang.
Qed.

(** *** One call of [fetch] *)

Lemma length_replace_nth {A : Type} (n : nat) (x : A) (l : list A) :
  List.length (replace_nth n x l) = List.length l.
Proof.
  revert n. induction l as [|y l IH]; intros [|n]; simpl; auto.
Qed.

Lemma nth_replace_nth {A : Type} (n : nat) (x d : A) (l : list A) :
  n < List.length l -> nth n (replace_nth n x l) d = x.
Proof.
  revert n. induction l as [|y l IH]; intros [|n]; simpl; intros H; try lia; auto.
  apply IH. lia.
Qed.

Lemma length_clearTimeout_timers (id : option nat) (w : World) :
  List.length (timers (clearTimeout id w)) = List.length (timers w).
Proof.
  unfold clearTimeout. destruct id as [i|]; [|reflexivity].
  destruct (nth_error (timers w) i) as [[| |]|]; try reflexivity.
  simpl. apply length_replace_nth.
Qed.

Lemma clearTimeout_signals (id : option nat) (w : World) :
  signals (clearTimeout id w) = signals w.
Proof.
  unfold clearTimeout. destruct id as [i|]; [|reflexivity].
  destruct (nth_error (timers w) i) as [[| |]|]; reflexivity.
Qed.

Lemma clearTimeout_calls (id : option nat) (w : World) :
  calls (clearTimeout id w) = calls w.
Proof.
  unfold clearTimeout. destruct id as [i|]; [|reflexivity].
  destruct (nth_error (timers w) i) as [[| |]|]; reflexivity.
Qed.

(** What one call of [fetch] does to the world. *)
Lemma fetch_step T url opts w r w' :
  fetch T url opts w = (r, w') ->
  exists o,
    calls w' = logged w url opts o /\
    List.length (signals w') = List.length (signals w) /\
    List.length (timers w') = List.length (timers w) /\
    (signal_aborted w (Req.signal opts) = true ->
     o = Refused /\ signals w' = signals w /\ r = Rejected AbortError) /\
    (o = Refused -> signal_aborted w (Req.signal opts) = true) /\
    (o = TimedOut -> valid_signal w (Req.signal opts) ->
     signal_aborted w' (Req.signal opts) = true) /\
    (o = Arrived <-> exists response, r = Fulfilled response) /\
    (forall response, r = Fulfilled response ->
                      T (List.length (calls w)) url opts = Responds response) /\
    (forall e, r = Rejected e -> exists name message props, e = JError name message props).
Proof.
  unfold fetch.
  destruct (signal_aborted w (Req.signal opts)) eqn:Ea.
  { intros [= <- <-]. exists Refused. cbn.
    repeat split; try congruence; try discriminate; eauto.
    - intros [response H]; discriminate.
    - intros e [= <-]. unfold AbortError. eauto. }
  destruct (T (List.length (calls w)) url opts) as [response|message|] eqn:Eb.
  - intros [= <- <-]. exists Arrived. cbn.
    repeat split; try congruence; try discriminate; eauto.
  - intros [= <- <-]. exists Failed. cbn.
    repeat split; try congruence; try discriminate.
    + intros [response H]; discriminate.
    + intros e [= <-]. unfold JSON.TypeError. eauto.
  - destruct (Req.signal opts) as [c|] eqn:Es.
    + destruct (pending_timer c (timers w) 0) as [i|].
      * intros [= <- <-]. exists TimedOut. cbn.
        repeat split; try congruence; try discriminate;
          try apply length_replace_nth.
        -- intros _ Hv. now apply nth_replace_nth.
        -- intros [response H]; discriminate.
        -- intros e [= <-]. unfold AbortError. eauto.
      * intros [= <- <-]. exists Hung. cbn.
        repeat split; try congruence; try discriminate.
        intros [response H]; discriminate.
    + intros [= <- <-]. exists Hung. cbn.
      repeat split; try congruence; try discriminate.
      intros [response H]; discriminate.
Qed.

(** *** One attempt *)

Lemma read_body_throws (response : Response) (err : jsval) :
  read_body response = Throw err ->
  exists name message props, err = JError name message props.
Proof.
  unfold read_body, json, text.
  destruct (Headers.get (headers response) "content-type") as [ct|]; [|discriminate].
  destruct (Str.includes ct "application/json"); [|discriminate].
  destruct (body_json response); [discriminate|].
  intros [= <-]. unfold SyntaxError. eauto.
Qed.

(** What one attempt does to the world. *)
Lemma try_block_step T url opts id w r w' :
  try_block T url opts id w = (r, w') ->
  exists o,
    calls w' = logged w url opts o /\
    List.length (signals w') = List.length (signals w) /\
    List.length (timers w') = List.length (timers w) /\
    (signal_aborted w (Req.signal opts) = true ->
     o = Refused /\ signal_aborted w' (Req.signal opts) = true) /\
    (o = Refused -> signal_aborted w (Req.signal opts) = true) /\
    (o = TimedOut -> valid_signal w (Req.signal opts) ->
     signal_aborted w' (Req.signal opts) = true).
Proof.
  unfold try_block.
  destruct (fetch T url opts w) as [r1 w1] eqn:Ef.
  destruct (fetch_step _ _ _ _ _ _ Ef)
    as (o & Hc & Hs & Ht & Hab & Hre & Hto & Har & _).
  destruct r1 as [response|err|].
  - assert (o = Arrived) as -> by (apply Har; eauto).
    intros H. exists Arrived.
    assert (w' = clearTimeout id w1) as ->.
    { destruct (read_body response); [destruct (negb (ok response))|];
        now injection H. }
    rewrite clearTimeout_calls, clearTimeout_signals, length_clearTimeout_timers.
    split; [assumption|]. split; [assumption|]. split; [assumption|].
    split; [|split; discriminate].
    intros Ha. destruct (Hab Ha) as (? & _). discriminate.
  - intros [= <- <-]. exists o.
    split; [assumption|]. split; [assumption|]. split; [assumption|].
    split; [|split; assumption].
    intros Ha. destruct (Hab Ha) as (? & Hsig & _). split; [assumption|].
    unfold signal_aborted in *. now rewrite Hsig.
  - intros [= <- <-]. exists o.
    split; [assumption|]. split; [assumption|]. split; [assumption|].
    split; [|split; assumption].
    intros Ha. destruct (Hab Ha) as (_ & _ & ?). discriminate.
Qed.

(** What one attempt ends with. *)
Lemma try_block_result T url opts id w r w' :
  try_block T url opts id w = (r, w') ->
  match r with
  | Pending => True
  | Rejected err => exists name message props, err = JError name message props
  | Fulfilled v =>
      exists response data,
        T (List.length (calls w)) url opts = Responds response /\
        ok response = true /\ read_body response = Normal data /\
        v = JArr [JNull; data]
  end.
Proof.
  unfold try_block.
  destruct (fetch T url opts w) as [r1 w1] eqn:Ef.
  destruct (fetch_step _ _ _ _ _ _ Ef) as (o & _ & _ & _ & _ & _ & _ & _ & Hresp & Herr).
  destruct r1 as [response|err|].
  - destruct (read_body response) as [data|err] eqn:Er.
    + destruct (ok response) eqn:Eo; cbn [negb]; intros [= <- <-].
      * exists response, data. auto.
      * unfold http_error. eauto.
    + intros [= <- <-]. eapply read_body_throws; eassumption.
  - intros [= <- <-]. now apply Herr.
  - intros [= <- <-]. exact I.
Qed.

(** An attempt on a live signal against a network that fails. *)
Lemma try_block_failure T url opts id w err :
  signal_aborted w (Req.signal opts) = false ->
  failure_of (T (List.length (calls w)) url opts) = Some err ->
  exists w' o,
    try_block T url opts id w = (Rejected err, w') /\
    signals w' = signals w /\
    List.length (timers w') = List.length (timers w) /\
    calls w' = logged w url opts o.
Proof.
  intros Ha Hf. unfold try_block, fetch. rewrite Ha.
  destruct (T (List.length (calls w)) url opts) as [response|message|];
    cbn [failure_of] in Hf; [| |discriminate].
  - destruct (read_body response) as [data|e].
    + destruct (ok response); [discriminate|]. injection Hf as <-. cbn [negb].
      eexists _, Arrived. rewrite clearTimeout_signals, clearTimeout_calls,
        length_clearTimeout_timers. auto.
    + injection Hf as <-.
      eexists _, Arrived. rewrite clearTimeout_signals, clearTimeout_calls,
        length_clearTimeout_timers. auto.
  - injection Hf as <-. eexists _, Failed. cbn. auto.
Qed.

(** The call an attempt adds to the log. *)
Lemma try_block_call T url opts id w r w' :
  try_block T url opts id w = (r, w') ->
  valid_signal w (Req.signal opts) ->
  exists c,
    calls w' = (calls w ++ [c])%list /\
    (call_url c = url /\ call_opts c = opts) /\
    call_aborted c = signal_aborted w (Req.signal opts) /\
    List.length (signals w') = List.length (signals w) /\
    List.length (timers w') = List.length (timers w) /\
    valid_signal w' (Req.signal opts) /\
    (signal_aborted w (Req.signal opts) = true ->
     refused c /\ signal_aborted w' (Req.signal opts) = true) /\
    (call_outcome c = TimedOut -> signal_aborted w' (Req.signal opts) = true).
Proof.
  intros Ht Hv.
  destruct (try_block_step _ _ _ _ _ _ _ Ht) as (o & Hc & Hs & Htm & Hab & _ & Hto).
  eexists. split; [exact Hc|]. cbn.
  split; [auto|]. split; [reflexivity|]. split; [assumption|]. split; [assumption|].
  split.
  { unfold valid_signal in *. destruct (Req.signal opts); [|exact I]. now rewrite Hs. }
  split.
  - intros Ha. destruct (Hab Ha) as [-> Ha']. unfold refused. cbn. auto.
  - intros ->. now apply Hto.
Qed.

Lemma split_singleton {A : Type} (c c0 : A) (before after : list A) :
  [c] = (before ++ c0 :: after)%list -> after = [].
Proof.
  destruct before as [|b before]; cbn; intros [= ]; subst; [reflexivity|].
  now destruct before.
Qed.

(** The calls made by the loop: each carries the options and the signal
    the loop was entered with; once the signal is aborted every call is
    refused; and after a call that timed out all calls are refused. *)
Lemma safeFetch_loop_trace T url opts id retries attempts w :
  valid_signal w (Req.signal opts) ->
  exists added,
    calls (snd (safeFetch_loop T url opts id retries attempts w)) = (calls w ++ added)%list /\
    List.length (signals (snd (safeFetch_loop T url opts id retries attempts w)))
    = List.length (signals w) /\
    List.length (timers (snd (safeFetch_loop T url opts id retries attempts w)))
    = List.length (timers w) /\
    Forall (fun c => call_url c = url /\ call_opts c = opts) added /\
    (signal_aborted w (Req.signal opts) = true -> Forall refused added) /\
    (forall before c after,
        added = (before ++ c :: after)%list ->
        call_outcome c = TimedOut -> Forall refused after) /\
    List.length added <= Z.to_nat (retries + 1 - attempts) /\
    ((attempts <= retries)%Z -> 1 <= List.length added).
Proof.
  revert attempts w.
  apply (safeFetch_loop_induction T url opts id retries
           (fun attempts w res =>
              valid_signal w (Req.signal opts) ->
              exists added,
                calls (snd res) = (calls w ++ added)%list /\
                List.length (signals (snd res)) = List.length (signals w) /\
                List.length (timers (snd res)) = List.length (timers w) /\
                Forall (fun c => call_url c = url /\ call_opts c = opts) added /\
                (signal_aborted w (Req.signal opts) = true -> Forall refused added) /\
                (forall before c after,
                    added = (before ++ c :: after)%list ->
                    call_outcome c = TimedOut -> Forall refused after) /\
                List.length added <= Z.to_nat (retries + 1 - attempts) /\
                ((attempts <= retries)%Z -> 1 <= List.length added))).
  - intros attempts w Hlt _. exists []. cbn. rewrite app_nil_r.
    repeat split; auto; try lia. intros [|? ?] ? ? ?; discriminate.
  - intros attempts w v w' Hle Ht Hv.
    destruct (try_block_call _ _ _ _ _ _ _ Ht Hv)
      as (c & Hc & Hco & _ & Hs & Htm & _ & Hab & _).
    exists [c]. cbn [snd List.length].
    repeat split; auto; try lia.
    + intros Ha. constructor; [now apply Hab | constructor].
    + intros before c0 after E _. apply split_singleton in E as ->. constructor.
  - intros attempts w w' Hle Ht Hv.
    destruct (try_block_call _ _ _ _ _ _ _ Ht Hv)
      as (c & Hc & Hco & _ & Hs & Htm & _ & Hab & _).
    exists [c]. cbn [snd List.length].
    repeat split; auto; try lia.
    + intros Ha. constructor; [now apply Hab | constructor].
    + intros before c0 after E _. apply split_singleton in E as ->. constructor.
  - intros w err w' Ht Hv.
    destruct (try_block_call _ _ _ _ _ _ _ Ht Hv)
      as (c & Hc & Hco & _ & Hs & Htm & _ & Hab & _).
    exists [c]. cbn [snd List.length].
    repeat split; auto; try lia.
    + intros Ha. constructor; [now apply Hab | constructor].
    + intros before c0 after E _. apply split_singleton in E as ->. constructor.
  - intros attempts w err w1 Hlt Ht IH Hv.
    destruct (try_block_call _ _ _ _ _ _ _ Ht Hv)
      as (c & Hc & Hco & _ & Hs & Htm & Hv1 & Hab & Hto).
    destruct (IH Hv1) as (added & Hc' & Hs' & Htm' & Hall & Hab' & Hsplit & Hlen & _).
    exists (c :: added).
    split; [rewrite Hc', Hc, <- app_assoc; reflexivity|].
    split; [congruence|]. split; [congruence|].
    split; [constructor; assumption|].
    split.
    { intros Ha. destruct (Hab Ha) as [Hr Ha1]. constructor; auto. }
    split.
    { intros [|b before] c0 after E Hout; cbn in E; injection E as <- ->.
      - apply Hab'. now apply Hto.
      - now apply (Hsplit before c0 after). }
    cbn [List.length]. split; lia.
Qed.

(** What the loop resolves with: it never rejects; a pair carries either
    an error object and [null], or [null] and the body of a successful
    response. *)
Lemma safeFetch_loop_result T url opts id retries attempts w :
  (attempts <= retries)%Z ->
  match fst (safeFetch_loop T url opts id retries attempts w) with
  | Pending => True
  | Rejected _ => False
  | Fulfilled v =>
      (exists name message props, v = JArr [JError name message props; JNull]) \/
      (exists n response data,
          T n url opts = Responds response /\ ok response = true /\
          read_body response = Normal data /\ v = JArr [JNull; data])
  end.
Proof.
  revert attempts w.
  apply (safeFetch_loop_induction T url opts id retries
           (fun attempts w res =>
              (attempts <= retries)%Z ->
              match fst res with
              | Pending => True
              | Rejected _ => False
              | Fulfilled v =>
                  (exists name message props,
                      v = JArr [JError name message props; JNull]) \/
                  (exists n response data,
                      T n url opts = Responds response /\ ok response = true /\
                      read_body response = Normal data /\ v = JArr [JNull; data])
              end)).
  - intros; lia.
  - intros attempts w v w' _ Ht _. cbn [fst].
    destruct (try_block_result _ _ _ _ _ _ _ Ht) as (response & data & H).
    right. eauto.
  - intros; exact I.
  - intros w err w' Ht _. cbn [fst].
    destruct (try_block_result _ _ _ _ _ _ _ Ht) as (name & message & props & ->).
    left. eauto.
  - intros attempts w err w' Hlt _ IH _. apply IH. lia.
Qed.

Lemma failure_of_error (b : Behaviour) (err : jsval) :
  failure_of b = Some err ->
  exists name message props, err = JError name message props.
Proof.
  destruct b as [response|message|]; cbn; [| |discriminate].
  - destruct (read_body response) as [data|e] eqn:Er.
    + destruct (ok response); [discriminate|]. intros [= <-]. unfold http_error. eauto.
    + intros [= <-]. eapply read_body_throws; eassumption.
  - intros [= <-]. unfold JSON.TypeError. eauto.
Qed.

(** Against a network that fails every time the loop makes one call per
    value of [attempts] up to [retries] and resolves with the error of
    the last one. *)
Lemma safeFetch_loop_exhausts T url opts id retries attempts w :
  (forall n, failure_of (T n url opts) <> None) ->
  (attempts <= retries)%Z ->
  signal_aborted w (Req.signal opts) = false ->
  exists err w' added,
    safeFetch_loop T url opts id retries attempts w
    = (Fulfilled (JArr [err; JNull]), w') /\
    failure_of (T (List.length (calls w) + Z.to_nat (retries - attempts)) url opts)
    = Some err /\
    calls w' = (calls w ++ added)%list /\
    List.length added = Z.to_nat (retries - attempts) + 1 /\
    Forall (fun c => call_aborted c = false) added.
Proof.
  intros Hfail. revert attempts w.
  apply (safeFetch_loop_induction T url opts id retries
           (fun attempts w res =>
              (attempts <= retries)%Z ->
              signal_aborted w (Req.signal opts) = false ->
              exists err w' added,
                res = (Fulfilled (JArr [err; JNull]), w') /\
                failure_of (T (List.length (calls w) + Z.to_nat (retries - attempts))
                              url opts) = Some err /\
                calls w' = (calls w ++ added)%list /\
                List.length added = Z.to_nat (retries - attempts) + 1 /\
                Forall (fun c => call_aborted c = false) added)).
  - intros; lia.
  - intros attempts w v w' _ Ht _ Ha.
    destruct (failure_of (T (List.length (calls w)) url opts)) as [err|] eqn:Ef;
      [|now destruct (Hfail (List.length (calls w)))].
    destruct (try_block_failure T url opts id w err Ha Ef) as (? & ? & Ht' & _).
    congruence.
  - intros attempts w w' _ Ht _ Ha.
    destruct (failure_of (T (List.length (calls w)) url opts)) as [err|] eqn:Ef;
      [|now destruct (Hfail (List.length (calls w)))].
    destruct (try_block_failure T url opts id w err Ha Ef) as (? & ? & Ht' & _).
    congruence.
  - intros w err w' Ht _ Ha.
    destruct (failure_of (T (List.length (calls w)) url opts)) as [err0|] eqn:Ef;
      [|now destruct (Hfail (List.length (calls w)))].
    destruct (try_block_failure T url opts id w err0 Ha Ef)
      as (w0 & o & Ht' & _ & _ & Hc).
    rewrite Ht in Ht'. injection Ht' as -> ->.
    exists err0, w0, [{| call_url := url; call_opts := opts;
                         call_aborted := signal_aborted w (Req.signal opts);
                         call_outcome := o |}].
    rewrite Z.sub_diag, Nat.add_0_r. cbn [Z.to_nat List.length Nat.add].
    repeat split; auto.
  - intros attempts w err w1 Hlt Ht IH _ Ha.
    destruct (failure_of (T (List.length (calls w)) url opts)) as [err0|] eqn:Ef;
      [|now destruct (Hfail (List.length (calls w)))].
    destruct (try_block_failure T url opts id w err0 Ha Ef)
      as (w0 & o & Ht' & Hs & _ & Hc).
    rewrite Ht in Ht'. injection Ht' as -> ->.
    assert (signal_aborted w0 (Req.signal opts) = false) as Ha0.
    { unfold signal_aborted in *. now rewrite Hs. }
    assert (attempts + 1 <= retries)%Z as Hle by lia.
    destruct (IH Hle Ha0) as (err & w' & added & Hres & Hlast & Hc' & Hlen & Hall).
    exists err, w', ({| call_url := url; call_opts := opts;
                        call_aborted := signal_aborted w (Req.signal opts);
                        call_outcome := o |} :: added).
    split; [exact Hres|]. split.
    { rewrite <- Hlast, Hc. unfold logged. rewrite length_app. cbn [List.length].
      do 2 f_equal. lia. }
    split.
    { rewrite Hc', Hc. unfold logged. now rewrite <- app_assoc. }
    split; [cbn [List.length]; lia|].
    constructor; assumption.
Qed.

(** *** The options sent with every attempt *)

Lemma build_opts_fields options controller autoJSON opts :
  build_opts options controller autoJSON = Normal opts ->
  Req.signal opts = Some controller /\ Req.method opts = Req.method options.
Proof.
  unfold build_opts.
  destruct (autoJSON && Js.truthy (Req.body options)
            && Js.typeof_object (Req.body options)
            && negb (is_FormData (Req.body options))).
  - destruct (JSON.stringify (Req.body options)); cbn; [|discriminate].
    intros [= <-]. auto.
  - intros [= <-]. auto.
Qed.

Lemma build_opts_serialisable options controller autoJSON :
  serialisable (Req.body options) ->
  exists opts, build_opts options controller autoJSON = Normal opts.
Proof.
  intros [s Hs]. unfold build_opts. rewrite Hs.
  destruct (autoJSON && Js.truthy (Req.body options)
            && Js.typeof_object (Req.body options)
            && negb (is_FormData (Req.body options))); cbn; eauto.
Qed.

(** A controller is created with its signal not aborted. *)
Lemma new_signal_live (l : list bool) : nth (List.length l) (l ++ [false])%list false = false.
Proof. induction l; cbn; auto. Qed.

(** ** [safeFetch] *)

Lemma safeFetch_unfold T url options config w :
  safeFetch T url options config w =
  match build_opts options (List.length (signals w)) (default true (autoJSON config)) with
  | Throw err => (Rejected err, prepared_world (default 0%Z (timeout config)) w)
  | Normal opts =>
      safeFetch_loop T url opts (prepared_timer (default 0%Z (timeout config)) w)
                     (default 0%Z (retries config)) 0%Z
                     (prepared_world (default 0%Z (timeout config)) w)
  end.
Proof.
  unfold safeFetch, AbortController_new, setTimeout_abort, prepared_world, prepared_timer.
  destruct (negb (default 0%Z (timeout config) =? 0)%Z); reflexivity.
Qed.

Lemma prepared_world_signal (timeout : Z) (w : World) :
  signal_aborted (prepared_world timeout w) (Some (List.length (signals w))) = false /\
  valid_signal (prepared_world timeout w) (Some (List.length (signals w))).
Proof.
  unfold signal_aborted, valid_signal, prepared_world. cbn [signals].
  split; [apply new_signal_live|]. rewrite length_app. cbn. lia.
Qed.

Lemma build_opts_throws options controller autoJSON err :
  build_opts options controller autoJSON = Throw err ->
  JSON.stringify (Req.body options) = Throw err.
Proof.
  unfold build_opts.
  destruct (autoJSON && Js.truthy (Req.body options)
            && Js.typeof_object (Req.body options)
            && negb (is_FormData (Req.body options))); [|discriminate].
  destruct (JSON.stringify (Req.body options)); cbn; [discriminate|].
  now intros [= ->].
Qed.

(** The one fault that leaves [safeFetch] is the error thrown by
    [JSON.stringify] on the body: everything thrown inside the loop is
    caught. *)
Lemma safeFetch_rejects_only_on_serialisation T url options config w err w' :
  safeFetch T url options config w = (Rejected err, w') ->
  JSON.stringify (Req.body options) = Throw err.
Proof.
  rewrite safeFetch_unfold.
  destruct (build_opts options (List.length (signals w)) (default true (autoJSON config)))
    as [opts|e] eqn:Eb.
  - intros H. exfalso.
    destruct (Z.leb_spec 0 (default 0%Z (retries config))) as [Hr|Hr].
    + pose proof (safeFetch_loop_result T url opts
                    (prepared_timer (default 0%Z (timeout config)) w)
                    (default 0%Z (retries config)) 0%Z
                    (prepared_world (default 0%Z (timeout config)) w) Hr) as Hres.
      now rewrite H in Hres.
    + rewrite safeFetch_loop_turn in H.
      destruct (Z.leb_spec 0 (default 0%Z (retries config))); [lia | discriminate].
  - intros [= <- _]. eapply build_opts_throws; eassumption.
Qed.

(** With a body that cannot be serialised [fetchWithCSRF] is over before
    any call of [fetch]. *)
Lemma fetchWithCSRF_cyclic_body_no_attempt :
  calls (snd (fetchWithCSRF unreachable page_with_hidden_field "/api/items"
                            cyclic_request csrf_initial world_initial)) = [].
Proof. reflexivity. Qed.

(** C10 as claimed fails: with a body that cannot be serialised the call
    makes no attempt at all. *)
Lemma fetchWithCSRF_cyclic_body_not_one_attempt :
  ~ exactly_one_attempt unreachable page_with_hidden_field "/api/items" cyclic_request.
Proof. unfold exactly_one_attempt. vm_compute. discriminate. Qed.

(** C1 (the code at the failing input).  With a cyclic body and the
    default [autoJSON], [safeFetch] rejects with the [TypeError] of
    [JSON.stringify], whatever the transport, before any call of [fetch]:
    the caller sees a raised fault, not a pair. *)
Theorem safeFetch_cyclic_body_rejects (T : Transport) (w : World) :
  fst (safeFetch T "/api/items" cyclic_request no_config w) = Rejected JSON.circular /\
  calls (snd (safeFetch T "/api/items" cyclic_request no_config w)) = calls w.
Proof. split; reflexivity. Qed.

(** C7 (the code at the failing input).  On every plain object, the
    text-only example of its own documentation included,
    [objectContainsFile] throws a [ReferenceError] where the helper local
    to [formParser] answers. *)
Theorem objectContainsFile_throws_on_objects :
  (forall props, objectContainsFile (JObj props) = Throw (ReferenceError "containsFile")) /\
  objectContainsFile alice = Throw (ReferenceError "containsFile") /\
  objectContainsFile alice_with_avatar = Throw (ReferenceError "containsFile") /\
  containsFile alice = Normal false /\
  containsFile alice_with_avatar = Normal true.
Proof. repeat split; reflexivity. Qed.

(** A call of [safeFetch] creates one controller, and one timer when
    [timeout] is not zero, before its first attempt; every attempt is
    issued with the signal of that one controller; so after an attempt
    that the timeout aborted, every later attempt finds the signal
    aborted and is refused without reaching the network. *)
Lemma safeFetch_shares_one_signal T url options config w :
  exists added,
    calls (snd (safeFetch T url options config w)) = (calls w ++ added)%list /\
    List.length (signals (snd (safeFetch T url options config w)))
    = List.length (signals w) + 1 /\
    List.length (timers (snd (safeFetch T url options config w)))
    = List.length (timers w)
      + (if (default 0%Z (timeout config) =? 0)%Z then 0 else 1) /\
    Forall (fun c => Req.signal (call_opts c) = Some (List.length (signals w))) added /\
    (forall before c after,
        added = (before ++ c :: after)%list ->
        call_outcome c = TimedOut -> Forall refused after).
Proof.
  rewrite safeFetch_unfold.
  assert (List.length (signals (prepared_world (default 0%Z (timeout config)) w))
          = List.length (signals w) + 1) as Hs.
  { unfold prepared_world. cbn [signals]. now rewrite length_app. }
  assert (List.length (timers (prepared_world (default 0%Z (timeout config)) w))
          = List.length (timers w)
            + (if (default 0%Z (timeout config) =? 0)%Z then 0 else 1)) as Ht.
  { unfold prepared_world. cbn [timers].
    destruct (default 0%Z (timeout config) =? 0)%Z; cbn [negb];
      [lia | now rewrite length_app]. }
  destruct (build_opts options (List.length (signals w)) (default true (autoJSON config)))
    as [opts|err] eqn:Eb.
  - destruct (build_opts_fields _ _ _ _ Eb) as [Hsig _].
    destruct (prepared_world_signal (default 0%Z (timeout config)) w) as [_ Hv].
    rewrite <- Hsig in Hv.
    destruct (safeFetch_loop_trace T url opts
                (prepared_timer (default 0%Z (timeout config)) w)
                (default 0%Z (retries config)) 0%Z _ Hv)
      as (added & Hc & Hs' & Ht' & Hall & _ & Hsplit & _).
    exists added. split; [exact Hc|]. split; [congruence|]. split; [congruence|].
    split; [|exact Hsplit].
    eapply Forall_impl; [|exact Hall]. cbn. intros c [_ ->]. exact Hsig.
  - exists []. cbn [snd]. rewrite app_nil_r.
    split; [reflexivity|]. split; [exact Hs|]. split; [exact Ht|].
    split; [constructor|]. intros [|? ?] ? ? ?; discriminate.
Qed.

(** C2 (the code at the failing input).  With [{ retries: 1, timeout:
    100 }] and a server that does not answer the first attempt in time
    but would answer the second, the retry is issued on the signal the
    timeout has aborted: it is refused before it reaches the server and
    the call resolves with the abort error.  And once a response has
    arrived, line 835 has cleared the one timer of the call: a retry that
    stalls is never timed out, and the call never settles. *)
Theorem safeFetch_retry_after_timeout_is_refused :
  let run := safeFetch stalls_then_answers "/api/items" no_options
               one_retry_with_timeout world_initial in
  let rerun := safeFetch fails_then_stalls "/api/items" no_options
                 one_retry_with_timeout world_initial in
  fst run = Fulfilled (JArr [AbortError; JNull]) /\
  map call_aborted (calls (snd run)) = [false; true] /\
  map call_outcome (calls (snd run)) = [TimedOut; Refused] /\
  ~ fresh_signal_per_attempt stalls_then_answers "/api/items" no_options
      one_retry_with_timeout /\
  fst rerun = Pending /\
  timers (snd rerun) = [TimerCleared] /\
  map call_outcome (calls (snd rerun)) = [Arrived; Hung].
Proof.
  cbv zeta. repeat split; try (vm_compute; reflexivity).
  unfold fresh_signal_per_attempt. vm_compute. intros H.
  inversion H as [|? ? _ H']. inversion H' as [|? ? Habs _]. discriminate Habs.
Qed.

(** C3 as claimed fails: a successful JSON response whose body is [null]
    resolves with [[null, null]], neither side populated. *)
Lemma safeFetch_null_body_both_null :
  exists v w',
    safeFetch (fun _ _ _ => Responds json_null) "/api/items" no_options no_config
              world_initial = (Fulfilled v, w') /\
    ~ exactly_one_side v.
Proof.
  eexists _, _. split; [vm_compute; reflexivity|].
  intros (err & data & [= <- <-] & [[H _] | [_ H]]); now apply H.
Qed.

(** C3 (as the code has it).  With [retries] not negative, whatever
    [safeFetch] resolves with is a pair of which at most one side is
    populated: an error object with [null] data, or a [null] error with
    the body read from a successful response, which is [null] when that
    body is the JSON value [null]. *)
Theorem safeFetch_at_most_one_side T url options config w v w' :
  (0 <= default 0%Z (retries config))%Z ->
  safeFetch T url options config w = (Fulfilled v, w') ->
  exists err data,
    v = JArr [err; data] /\
    ((err <> JNull /\ data = JNull /\
      exists name message props, err = JError name message props) \/
     (err = JNull /\
      exists n opts response,
        T n url opts = Responds response /\ ok response = true /\
        read_body response = Normal data)).
Proof.
  intros Hr. rewrite safeFetch_unfold.
  destruct (build_opts options (List.length (signals w)) (default true (autoJSON config)))
    as [opts|err]; [|discriminate].
  intros H.
  pose proof (safeFetch_loop_result T url opts
                (prepared_timer (default 0%Z (timeout config)) w)
                (default 0%Z (retries config)) 0%Z
                (prepared_world (default 0%Z (timeout config)) w) Hr) as Hres.
  rewrite H in Hres. cbn [fst] in Hres.
  destruct Hres as [(name & message & props & ->) | (n & response & data & Hn & Hok & Hb & ->)].
  - exists (JError name message props), JNull.
    split; [reflexivity|]. left. repeat split; [discriminate | eauto].
  - exists JNull, data. split; [reflexivity|]. right. split; [reflexivity|]. eauto 6.
Qed.

Lemma safeFetch_at_most_one_side_witness :
  exists err data,
    JArr [JNull; JNull] = JArr [err; data] /\
    ((err <> JNull /\ data = JNull /\
      exists name message props, err = JError name message props) \/
     (err = JNull /\
      exists n opts response,
        (fun (_ : nat) (_ : string) (_ : Req.t) => Responds json_null) n "/api/items" opts
        = Responds response /\
        ok response = true /\ read_body response = Normal data)).
Proof.
  apply (safeFetch_at_most_one_side (fun _ _ _ => Responds json_null) "/api/items"
           no_options no_config world_initial (JArr [JNull; JNull])
           (snd (safeFetch (fun _ _ _ => Responds json_null) "/api/items"
                           no_options no_config world_initial))).
  - vm_compute. discriminate.
  - vm_compute. reflexivity.
Defined.

(** C4 as claimed fails: with a body that [JSON.stringify] cannot
    serialise the transport is not invoked at all, whatever [retries]
    says, and no pair comes back. *)
Lemma safeFetch_cyclic_body_never_attempts :
  always_fails unreachable /\
  ~ invoked_retries_plus_one unreachable "/api/items" cyclic_request two_retries.
Proof.
  split.
  - intros n url opts. cbn. discriminate.
  - intros (err & w' & H & _). vm_compute in H. discriminate H.
Qed.

(** C4 (as the code has it).  With [retries = N], [N] not negative, and
    a transport that fails on every attempt: when the options can be
    built (the serialisation of line 828 does not throw), [safeFetch]
    calls [fetch] exactly [N + 1] times, each time with the options it
    has built and on a live signal, and then resolves with the pair of
    the error of the last of these attempts, an error object, and
    [null]; with [N = 0] that is one attempt.  When the serialisation
    throws, [fetch] is not called at all. *)
Theorem safeFetch_retry_count T url options config w :
  (0 <= default 0%Z (retries config))%Z ->
  always_fails T ->
  match build_opts options (List.length (signals w)) (default true (autoJSON config)) with
  | Normal opts =>
      exists err w' added,
        safeFetch T url options config w = (Fulfilled (JArr [err; JNull]), w') /\
        failure_of (T (List.length (calls w) + Z.to_nat (default 0%Z (retries config)))
                      url opts) = Some err /\
        (exists name message props, err = JError name message props) /\
        err <> JNull /\
        calls w' = (calls w ++ added)%list /\
        List.length added = Z.to_nat (default 0%Z (retries config)) + 1 /\
        Forall (fun c => call_url c = url /\ call_opts c = opts) added /\
        Forall (fun c => call_aborted c = false) added
  | Throw e =>
      JSON.stringify (Req.body options) = Throw e /\
      calls (snd (safeFetch T url options config w)) = calls w
  end.
Proof.
  intros Hr Hfail. rewrite safeFetch_unfold.
  destruct (build_opts options (List.length (signals w)) (default true (autoJSON config)))
    as [opts|e] eqn:Eb.
  - destruct (build_opts_fields _ _ _ _ Eb) as [Hsig _].
    destruct (prepared_world_signal (default 0%Z (timeout config)) w) as [Ha Hv].
    rewrite <- Hsig in Ha, Hv.
    destruct (safeFetch_loop_exhausts T url opts
                (prepared_timer (default 0%Z (timeout config)) w)
                (default 0%Z (retries config)) 0%Z _
                (fun n => Hfail n url opts) Hr Ha)
      as (err & w' & added & Hres & Hlast & Hc & Hlen & Hall).
    destruct (safeFetch_loop_trace T url opts
                (prepared_timer (default 0%Z (timeout config)) w)
                (default 0%Z (retries config)) 0%Z _ Hv)
      as (added' & Hc' & _ & _ & Hopts & _).
    rewrite Hres in Hc'. cbn [snd] in Hc'. rewrite Hc in Hc'.
    apply app_inv_head in Hc'. subst added'.
    rewrite Z.sub_0_r in Hlast, Hlen.
    exists err, w', added. split; [exact Hres|]. split; [exact Hlast|].
    pose proof (failure_of_error _ _ Hlast) as (name & message & props & ->).
    split; [eauto|]. split; [discriminate|].
    split; [exact Hc|]. split; [exact Hlen|]. split; [exact Hopts | exact Hall].
  - split; [eapply build_opts_throws; exact Eb | reflexivity].
Qed.

Lemma safeFetch_retry_count_witness :
  exists err w' added,
    safeFetch unreachable "/api/items" no_options one_retry_with_timeout world_initial
    = (Fulfilled (JArr [err; JNull]), w') /\
    failure_of (unreachable
                  (List.length (calls world_initial)
                   + Z.to_nat (default 0%Z (retries one_retry_with_timeout)))
                  "/api/items"
                  {| Req.method := None;
                     Req.headers := Some [("Accept", JStr "application/json")];
                     Req.body := JUndefined; Req.signal := Some 0 |}) = Some err /\
    (exists name message props, err = JError name message props) /\
    err <> JNull /\
    calls w' = (calls world_initial ++ added)%list /\
    List.length added = Z.to_nat (default 0%Z (retries one_retry_with_timeout)) + 1 /\
    Forall (fun c => call_url c = "/api/items" /\
                     call_opts c
                     = {| Req.method := None;
                          Req.headers := Some [("Accept", JStr "application/json")];
                          Req.body := JUndefined; Req.signal := Some 0 |}) added /\
    Forall (fun c => call_aborted c = false) added.
Proof.
  apply (safeFetch_retry_count unreachable "/api/items" no_options
           one_retry_with_timeout world_initial).
  - vm_compute. discriminate.
  - intros n url opts. vm_compute. discriminate.
Defined.

(** C5 as claimed fails: the error of a 404 response carries the status
    but is an [Error] object, not the [http] variant of the normaliser. *)
Lemma safeFetch_error_not_http_variant :
  ~ resolves_with_http_variant (fun _ _ _ => Responds not_found) "/api/items"
      no_options no_config not_found.
Proof.
  intros (err & w' & H & _ & stack_trace & r & state & Hr).
  vm_compute in H. injection H as <- _. cbn in Hr. discriminate Hr.
Qed.

Lemma always_refuses_fails (T : Transport) : always_refuses T -> always_fails T.
Proof.
  intros H n url opts. destruct (H n url opts) as (response & data & -> & Hok & Hb).
  cbn. rewrite Hb, Hok. discriminate.
Qed.

(** C5 (as the code has it).  When every attempt is answered by a
    readable response whose status is outside the success range (and the
    body of the request can be serialised, [retries] not negative),
    [safeFetch] resolves, after [retries + 1] attempts, with an error and
    [null], where the error is the object made at lines 843-846 from the
    response to the last attempt: an [Error] with message
    [HTTP <status>: <statusText>], [status] the status of that response
    and [data] its body as read.  It is not an [http] variant of the
    normaliser, which [safeFetch] never calls and which would file this
    error under [js], with its message and the stack trace of the
    engine. *)
Theorem safeFetch_http_error T url options config w :
  (0 <= default 0%Z (retries config))%Z ->
  always_refuses T ->
  serialisable (Req.body options) ->
  exists opts response data w' added,
    build_opts options (List.length (signals w)) (default true (autoJSON config))
    = Normal opts /\
    T (List.length (calls w) + Z.to_nat (default 0%Z (retries config))) url opts
    = Responds response /\
    ok response = false /\ read_body response = Normal data /\
    safeFetch T url options config w
    = (Fulfilled (JArr [http_error response data; JNull]), w') /\
    calls w' = (calls w ++ added)%list /\
    List.length added = Z.to_nat (default 0%Z (retries config)) + 1 /\
    Forall (fun c => call_url c = url /\ call_opts c = opts) added /\
    Js.get (http_error response data) "status" = JNum (status response) /\
    Js.get (http_error response data) "data" = data /\
    Js.get (http_error response data) "message"
    = JStr ("HTTP " ++ Str.ofZ (status response) ++ ": " ++ statusText response) /\
    ~ http_variant (http_error response data) /\
    forall stack_trace,
      normalizeError stack_trace (ThrownValue (http_error response data))
      = Fulfilled (JObj [("type", JStr "js");
                         ("message", Js.get (http_error response data) "message");
                         ("stack", JStr (stack_trace (http_error response data)))]).
Proof.
  intros Hr Href Hser. rewrite safeFetch_unfold.
  destruct (build_opts_serialisable options (List.length (signals w))
              (default true (autoJSON config)) Hser) as [opts Eb].
  rewrite Eb. destruct (build_opts_fields _ _ _ _ Eb) as [Hsig _].
  destruct (prepared_world_signal (default 0%Z (timeout config)) w) as [Ha Hv].
  rewrite <- Hsig in Ha, Hv.
  destruct (safeFetch_loop_exhausts T url opts
              (prepared_timer (default 0%Z (timeout config)) w)
              (default 0%Z (retries config)) 0%Z _
              (fun n => always_refuses_fails T Href n url opts) Hr Ha)
    as (err & w' & added & Hres & Hlast & Hc & Hlen & _).
  destruct (safeFetch_loop_trace T url opts
              (prepared_timer (default 0%Z (timeout config)) w)
              (default 0%Z (retries config)) 0%Z _ Hv)
    as (added' & Hc' & _ & _ & Hopts & _).
  rewrite Hres in Hc'. cbn [snd] in Hc'. rewrite Hc in Hc'.
  apply app_inv_head in Hc'. subst added'.
  rewrite Z.sub_0_r in Hlast, Hlen.
  destruct (Href (List.length (calls (prepared_world (default 0%Z (timeout config)) w))
                  + Z.to_nat (default 0%Z (retries config))) url opts)
    as (response & data & HT & Hok & Hb).
  rewrite HT in Hlast. cbn [failure_of] in Hlast. rewrite Hb, Hok in Hlast.
  injection Hlast as <-.
  exists opts, response, data, w', added.
  split; [reflexivity|]. split; [exact HT|]. split; [exact Hok|]. split; [exact Hb|].
  split; [exact Hres|]. split; [exact Hc|]. split; [exact Hlen|].
  split; [exact Hopts|].
  split; [reflexivity|]. split; [reflexivity|]. split; [reflexivity|].
  split; [|reflexivity].
  intros (stack_trace & r & state & Hr'). cbn in Hr'. discriminate Hr'.
Qed.

Lemma safeFetch_http_error_witness :
  exists response data w',
    (fun (_ : nat) (_ : string) (_ : Req.t) => Responds not_found)
      0 "/api/items" no_options = Responds response /\
    ok response = false /\ read_body response = Normal data /\
    safeFetch (fun _ _ _ => Responds not_found) "/api/items" no_options no_config
              world_initial
    = (Fulfilled (JArr [http_error response data; JNull]), w') /\
    Js.get (http_error response data) "status" = JNum (status response).
Proof.
  destruct (safeFetch_http_error (fun _ _ _ => Responds not_found) "/api/items"
              no_options no_config world_initial)
    as (opts & response & data & w' & added & _ & H1 & H2 & H3 & H4 & _ & _ & _ & H5 & _).
  - vm_compute. discriminate.
  - intros n url opts. exists not_found, (JStr "no such item").
    repeat split; reflexivity.
  - eexists. vm_compute. reflexivity.
  - exists response, data, w'. cbv beta in *. auto.
Defined.

(** ** [fetchWithCSRF] *)

Lemma fetchWithCSRF_unfold T document url options st w :
  fetchWithCSRF T document url options st w =
  let options' :=
    {| Req.method := Some (default "POST" (present (Req.method options)));
       Req.headers :=
         Some (Js.spread [("X-CSRFToken", token_value (fst (getCSRFToken document st)))]
                         (default [] (Req.headers options)));
       Req.body := Req.body options;
       Req.signal := Req.signal options |} in
  let run := safeFetch T url options'
               {| autoJSON := Some true; retries := Some 0%Z; timeout := Some 0%Z |} w in
  (fst run, snd (getCSRFToken document st), snd run).
Proof.
  unfold fetchWithCSRF. destruct (getCSRFToken document st) as [tok st1].
  cbn [fst snd].
  match goal with |- (let (_, _) := ?a in _) = (fst ?b, _, snd ?b) => change a with b; destruct b end.
  reflexivity.
Qed.

(** With [autoJSON] on, the options are built exactly for the bodies
    that [JSON.stringify] takes. *)
Lemma build_opts_auto_serialisable options controller opts :
  build_opts options controller true = Normal opts ->
  serialisable (Req.body options).
Proof.
  unfold build_opts, serialisable. cbn [andb].
  destruct (Req.body options) as [ | | b | n | s | items | props | isFile | files
                                  | entries | name message props | up ] eqn:Ebody;
    cbn [Js.truthy Js.typeof_object is_FormData negb andb];
    try (intros _; eexists; reflexivity).
  - destruct (JSON.stringify (JArr items)) as [o|e]; [eauto | discriminate].
  - destruct (JSON.stringify (JObj props)) as [o|e]; [eauto | discriminate].
  - destruct (JSON.stringify (JFileList files)) as [o|e]; [eauto | discriminate].
  - destruct (JSON.stringify (JError name message props)) as [o|e]; [eauto | discriminate].
  - discriminate.
Qed.

(** C10 (as the code has it).  [fetchWithCSRF] is [safeFetch] on the
    options with the token header added and the method defaulted to
    [POST], under the configuration [{ autoJSON: true }], that is with
    [retries] and [timeout] at their default 0.  It creates no timer and
    never calls [fetch] twice: it calls it exactly once, with the
    defaulted method, for a body that can be serialised, and not at all
    for a body that cannot. *)
Theorem fetchWithCSRF_single_attempt T document url options st w :
  let options' :=
    {| Req.method := Some (default "POST" (present (Req.method options)));
       Req.headers :=
         Some (Js.spread [("X-CSRFToken", token_value (fst (getCSRFToken document st)))]
                         (default [] (Req.headers options)));
       Req.body := Req.body options;
       Req.signal := Req.signal options |} in
  let outcome := fetchWithCSRF T document url options st w in
  (fst (fst outcome), snd outcome)
  = safeFetch T url options'
      {| autoJSON := Some true; retries := None; timeout := None |} w /\
  (fst (fst outcome), snd outcome)
  = safeFetch T url options'
      {| autoJSON := Some true; retries := Some 0%Z; timeout := Some 0%Z |} w /\
  snd (fst outcome) = snd (getCSRFToken document st) /\
  List.length (timers (snd outcome)) = List.length (timers w) /\
  exists added,
    calls (snd outcome) = (calls w ++ added)%list /\
    List.length added <= 1 /\
    (serialisable (Req.body options) -> List.length added = 1) /\
    (~ serialisable (Req.body options) -> added = []) /\
    Forall (fun c => Req.method (call_opts c)
                     = Some (default "POST" (present (Req.method options)))) added.
Proof.
  intros options' outcome. subst outcome. rewrite fetchWithCSRF_unfold.
  fold options'. cbn zeta. cbn [fst snd].
  set (run := safeFetch T url options'
                {| autoJSON := Some true; retries := Some 0%Z; timeout := Some 0%Z |} w).
  split; [symmetry; exact (surjective_pairing run)|].
  split; [symmetry; exact (surjective_pairing run)|].
  split; [reflexivity|].
  subst run. rewrite safeFetch_unfold. cbn [default autoJSON retries timeout].
  destruct (build_opts options' (List.length (signals w)) true) as [opts|err] eqn:Eb.
  - destruct (build_opts_fields _ _ _ _ Eb) as [Hsig Hm].
    destruct (prepared_world_signal 0%Z w) as [_ Hv]. rewrite <- Hsig in Hv.
    destruct (safeFetch_loop_trace T url opts (prepared_timer 0%Z w) 0%Z 0%Z _ Hv)
      as (added & Hc & _ & Ht & Hall & _ & _ & Hle & Hge).
    split; [exact Ht|]. exists added. split; [exact Hc|].
    change (Z.to_nat (0 + 1 - 0)) with 1 in Hle. specialize (Hge (Z.le_refl 0)).
    split; [exact Hle|]. split; [intros _; lia|].
    split; [intros Hnot; exfalso; apply Hnot;
            exact (build_opts_auto_serialisable _ _ _ Eb)|].
    eapply Forall_impl; [|exact Hall]. cbn. intros c [_ ->]. exact Hm.
  - cbn [snd]. split; [reflexivity|]. exists []. rewrite app_nil_r.
    split; [reflexivity|]. split; [cbn; lia|].
    split; [|split; [reflexivity | constructor]].
    intros Hser.
    destruct (build_opts_serialisable options' (List.length (signals w)) true Hser)
      as [opts Eb']. congruence.
Qed.

Lemma fetchWithCSRF_single_attempt_witness :
  exists added,
    calls (snd (fetchWithCSRF unreachable page_with_hidden_field "/api/items"
                              no_options csrf_initial world_initial))
    = (calls world_initial ++ added)%list /\
    List.length added = 1 /\
    Forall (fun c => Req.method (call_opts c) = Some "POST") added.
Proof.
  destruct (fetchWithCSRF_single_attempt unreachable page_with_hidden_field
              "/api/items" no_options csrf_initial world_initial)
    as (_ & _ & _ & _ & added & Hc & _ & Hone & _ & Hall).
  exists added. split; [exact Hc|]. split; [|exact Hall].
  apply Hone. eexists. vm_compute. reflexivity.
Defined.

(* ================================================================== *)
(** * Further properties *)
(* ================================================================== *)

(** ** [safeFetch]: recovery, edge values of [retries] *)

(** An attempt on a live signal that is answered by a readable response
    in the success range. *)
Lemma try_block_success T url opts id w response data :
  signal_aborted w (Req.signal opts) = false ->
  T (List.length (calls w)) url opts = Responds response ->
  ok response = true ->
  read_body response = Normal data ->
  exists w',
    try_block T url opts id w = (Fulfilled (JArr [JNull; data]), w') /\
    signals w' = signals w /\
    calls w' = logged w url opts Arrived.
Proof.
  intros Ha HT Hok Hb. unfold try_block, fetch. rewrite Ha, HT, Hb, Hok. cbn [negb].
  eexists. split; [reflexivity|].
  now rewrite clearTimeout_signals, clearTimeout_calls.
Qed.

Lemma safeFetch_loop_recovers T url opts id retries k :
  forall attempts w response data,
    signal_aborted w (Req.signal opts) = false ->
    (attempts + Z.of_nat k <= retries)%Z ->
    (forall i, i < k -> failure_of (T (List.length (calls w) + i) url opts) <> None) ->
    T (List.length (calls w) + k) url opts = Responds response ->
    ok response = true ->
    read_body response = Normal data ->
    exists w' added,
      safeFetch_loop T url opts id retries attempts w
      = (Fulfilled (JArr [JNull; data]), w') /\
      calls w' = (calls w ++ added)%list /\
      List.length added = k + 1.
Proof.
  induction k as [|k IH]; intros attempts w response data Ha Hle Hfail HT Hok Hb;
    rewrite safeFetch_loop_turn.
  - destruct (Z.leb_spec attempts retries); [|lia].
    rewrite Nat.add_0_r in HT.
    destruct (try_block_success T url opts id w response data Ha HT Hok Hb)
      as (w' & -> & _ & Hc).
    exists w', [{| call_url := url; call_opts := opts;
                   call_aborted := signal_aborted w (Req.signal opts);
                   call_outcome := Arrived |}].
    auto.
  - destruct (Z.leb_spec attempts retries); [|lia].
    destruct (failure_of (T (List.length (calls w)) url opts)) as [err|] eqn:Ef.
    2:{ exfalso. apply (Hfail 0); [lia|]. now rewrite Nat.add_0_r. }
    destruct (try_block_failure T url opts id w err Ha Ef) as (w1 & o & -> & Hs & _ & Hc).
    destruct (Z.ltb_spec attempts retries); [|lia].
    assert (signal_aborted w1 (Req.signal opts) = false) as Ha1.
    { unfold signal_aborted in *. now rewrite Hs. }
    assert (List.length (calls w1) = S (List.length (calls w))) as Hlen.
    { rewrite Hc. unfold logged. rewrite length_app. cbn. lia. }
    destruct (IH (attempts + 1)%Z w1 response data Ha1) as (w' & added & Hres & Hc' & Hl);
      try assumption; try lia.
    + intros i Hi. rewrite Hlen.
      replace (S (List.length (calls w)) + i) with (List.length (calls w) + S i) by lia.
      apply Hfail. lia.
    + rewrite Hlen.
      now replace (S (List.length (calls w)) + k) with (List.length (calls w) + S k) by lia.
    + eexists w', (_ :: added). split; [exact Hres|]. split.
      * rewrite Hc', Hc. unfold logged. now rewrite <- app_assoc.
      * cbn [List.length]. lia.
Qed.

(** X1.  Retried faults are invisible: when the first [k] attempts fail,
    [k] within the retry budget, and attempt [k + 1] is answered by a
    readable response in the success range, [safeFetch] resolves with
    [null] and the body of that response after exactly [k + 1] calls of
    [fetch]. *)
Theorem safeFetch_recovers_after_failures T url options config w k response data :
  serialisable (Req.body options) ->
  (Z.of_nat k <= default 0%Z (retries config))%Z ->
  (forall i opts, i < k -> failure_of (T (List.length (calls w) + i) url opts) <> None) ->
  (forall opts, T (List.length (calls w) + k) url opts = Responds response) ->
  ok response = true ->
  read_body response = Normal data ->
  exists w' added,
    safeFetch T url options config w = (Fulfilled (JArr [JNull; data]), w') /\
    calls w' = (calls w ++ added)%list /\
    List.length added = k + 1.
Proof.
  intros Hser Hk Hfail HT Hok Hb. rewrite safeFetch_unfold.
  destruct (build_opts_serialisable options (List.length (signals w))
              (default true (autoJSON config)) Hser) as [opts Eb].
  rewrite Eb. destruct (build_opts_fields _ _ _ _ Eb) as [Hsig _].
  destruct (prepared_world_signal (default 0%Z (timeout config)) w) as [Ha _].
  rewrite <- Hsig in Ha.
  apply (safeFetch_loop_recovers T url opts _ _ k 0%Z _ response data Ha); auto.
Qed.

Lemma safeFetch_recovers_after_failures_witness :
  exists w' added,
    safeFetch (fun n _ _ => match n with
                            | 0 | 1 => Fails "Failed to fetch"
                            | _ => Responds json_null
                            end)
              "/api/items" no_options
              {| autoJSON := None; retries := Some 2%Z; timeout := None |}
              world_initial
    = (Fulfilled (JArr [JNull; JNull]), w') /\
    calls w' = (calls world_initial ++ added)%list /\
    List.length added = 2 + 1.
Proof.
  apply (safeFetch_recovers_after_failures _ "/api/items" no_options _ world_initial 2
           json_null JNull).
  - eexists. vm_compute. reflexivity.
  - vm_compute. discriminate.
  - intros [|[|i]] opts Hi; [vm_compute; discriminate.. | lia].
  - reflexivity.
  - reflexivity.
  - reflexivity.
Defined.

(** X2.  With a negative [retries] the loop is never entered:
    [safeFetch] resolves with [undefined], not with a pair, and [fetch]
    is not called. *)
Theorem safeFetch_negative_retries T url options config w :
  (default 0%Z (retries config) < 0)%Z ->
  serialisable (Req.body options) ->
  fst (safeFetch T url options config w) = Fulfilled JUndefined /\
  calls (snd (safeFetch T url options config w)) = calls w.
Proof.
  intros Hr Hser. rewrite safeFetch_unfold.
  destruct (build_opts_serialisable options (List.length (signals w))
              (default true (autoJSON config)) Hser) as [opts ->].
  rewrite safeFetch_loop_turn.
  destruct (Z.leb_spec 0 (default 0%Z (retries config))); [lia|].
  split; reflexivity.
Qed.

Lemma safeFetch_negative_retries_witness :
  fst (safeFetch unreachable "/api/items" no_options
         {| autoJSON := None; retries := Some (-1)%Z; timeout := None |} world_initial)
  = Fulfilled JUndefined /\
  calls (snd (safeFetch unreachable "/api/items" no_options
                {| autoJSON := None; retries := Some (-1)%Z; timeout := None |}
                world_initial)) = calls world_initial.
Proof.
  apply safeFetch_negative_retries.
  - vm_compute. reflexivity.
  - eexists. vm_compute. reflexivity.
Defined.

(** ** [safeFetch]: the timer *)

Lemma nth_error_replace_nth {A : Type} (i j : nat) (x : A) (l : list A) :
  nth_error (replace_nth i x l) j =
  if (i =? j)%nat then option_map (fun _ => x) (nth_error l j) else nth_error l j.
Proof.
  revert i j. induction l as [|y l IH]; intros [|i] [|j]; cbn; auto;
    try (now destruct (i =? j)%nat).
Qed.

Lemma nth_replace_nth_true (c c' : nat) (l : list bool) :
  nth c l false = true -> nth c (replace_nth c' true l) false = true.
Proof.
  revert c c'. induction l as [|y l IH]; intros [|c] [|c']; cbn; auto.
Qed.

Lemma clearTimeout_timer (i : nat) (w : World) :
  nth_error (timers (clearTimeout (Some i) w)) i =
  match nth_error (timers w) i with
  | Some (TimerPending _ _) => Some TimerCleared
  | other => other
  end.
Proof.
  unfold clearTimeout.
  destruct (nth_error (timers w) i) as [[| |]|] eqn:E; cbn [timers];
    rewrite ?nth_error_replace_nth, ?Nat.eqb_refl, ?E; reflexivity.
Qed.

(** An attempt keeps the timer accounted for. *)
Lemma try_block_timer_accounted T url opts i c w r w' :
  Req.signal opts = Some c ->
  c < List.length (signals w) ->
  timer_accounted (Some i) c w ->
  try_block T url opts (Some i) w = (r, w') ->
  timer_accounted (Some i) c w' /\
  (forall v, r = Fulfilled v -> nth_error (timers w') i = Some TimerCleared).
Proof.
  intros Hsig Hv Hacc. unfold try_block, fetch. rewrite Hsig.
  unfold timer_accounted in *.
  destruct (signal_aborted w (Some c)) eqn:Ha.
  { intros [= <- <-]. cbn [timers]. split; [|discriminate].
    destruct (nth_error (timers w) i) as [[| |]|]; auto. }
  destruct (T (List.length (calls w)) url opts) as [response|message|].
  - assert (forall w1,
              signals w1 = signals w -> timers w1 = timers w ->
              match nth_error (timers (clearTimeout (Some i) w1)) i with
              | Some (TimerPending _ _) | Some TimerCleared => True
              | Some TimerFired => signal_aborted (clearTimeout (Some i) w1) (Some c) = true
              | None => False
              end /\
              nth_error (timers (clearTimeout (Some i) w1)) i = Some TimerCleared) as Hclear.
    { intros w1 Hs1 Ht1. rewrite clearTimeout_timer, Ht1.
      destruct (nth_error (timers w) i) as [[| |]|]; try tauto.
      cbn in Hacc. cbn in Ha. congruence. }
    cbv zeta.
    match goal with
    | |- context [clearTimeout (Some i) ?w1] =>
        destruct (Hclear w1 eq_refl eq_refl) as [H1 H2];
        remember (clearTimeout (Some i) w1) as W eqn:HW
    end.
    destruct (read_body response) as [data|err];
      [destruct (negb (ok response))|]; intros [= <- <-];
      (split; [exact H1 | first [discriminate | intros; exact H2]]).
  - intros [= <- <-]. cbn [timers]. split; [|discriminate].
    destruct (nth_error (timers w) i) as [[| |]|]; auto. congruence.
  - destruct (pending_timer c (timers w) 0) as [j|].
    + intros [= <- <-]. cbn [timers signals]. split; [|discriminate].
      rewrite nth_error_replace_nth.
      assert (signal_aborted
                {| signals := replace_nth c true (signals w);
                   timers := replace_nth j TimerFired (timers w);
                   calls := logged w url opts TimedOut |} (Some c) = true) as Hab.
      { cbn. now apply nth_replace_nth. }
      destruct (j =? i)%nat.
      * destruct (nth_error (timers w) i) as [t|]; cbn; [exact Hab | exact Hacc].
      * destruct (nth_error (timers w) i) as [[| |]|]; auto.
    + intros [= <- <-]. cbn [timers]. split; [|discriminate].
      destruct (nth_error (timers w) i) as [[| |]|]; auto. congruence.
Qed.

Lemma safeFetch_loop_clears_timer T url opts i c retries attempts w :
  Req.signal opts = Some c ->
  c < List.length (signals w) ->
  timer_accounted (Some i) c w ->
  forall data w',
    safeFetch_loop T url opts (Some i) retries attempts w
    = (Fulfilled (JArr [JNull; data]), w') ->
    nth_error (timers w') i = Some TimerCleared.
Proof.
  intros Hsig. revert attempts w.
  apply (safeFetch_loop_induction T url opts (Some i) retries
           (fun attempts w res =>
              c < List.length (signals w) ->
              timer_accounted (Some i) c w ->
              forall data w',
                res = (Fulfilled (JArr [JNull; data]), w') ->
                nth_error (timers w') i = Some TimerCleared)).
  - intros attempts w _ _ _ data w' [=].
  - intros attempts w v w0 _ Ht Hv Hacc data w' [= -> <-].
    destruct (try_block_timer_accounted _ _ _ _ _ _ _ _ Hsig Hv Hacc Ht) as [_ H].
    now apply (H (JArr [JNull; data])).
  - intros attempts w w0 _ _ _ _ data w' [=].
  - intros w err w0 Ht _ _ data w' [= -> _ _].
    destruct (try_block_result _ _ _ _ _ _ _ Ht) as (? & ? & ? & [=]).
  - intros attempts w err w1 _ Ht IH Hv Hacc data w' Hres.
    destruct (try_block_timer_accounted _ _ _ _ _ _ _ _ Hsig Hv Hacc Ht) as [Hacc1 _].
    destruct (try_block_step _ _ _ _ _ _ _ Ht) as (o & _ & Hs & _).
    apply (IH ltac:(now rewrite Hs) Hacc1 data w' Hres).
Qed.

(** X3.  A call of [safeFetch] with a timeout that resolves with data
    leaves no timer behind: the timer it created is cleared. *)
Theorem safeFetch_success_clears_timer T url options config w data w' :
  default 0%Z (timeout config) <> 0%Z ->
  safeFetch T url options config w = (Fulfilled (JArr [JNull; data]), w') ->
  nth_error (timers w') (List.length (timers w)) = Some TimerCleared.
Proof.
  intros Hto. rewrite safeFetch_unfold.
  destruct (build_opts options (List.length (signals w)) (default true (autoJSON config)))
    as [opts|err] eqn:Eb; [|discriminate].
  destruct (build_opts_fields _ _ _ _ Eb) as [Hsig _].
  unfold prepared_timer. destruct (Z.eqb_spec (default 0%Z (timeout config)) 0); [tauto|].
  cbn [negb]. intros H.
  apply (safeFetch_loop_clears_timer T url opts _ (List.length (signals w)) _ _ _ Hsig)
    with (data := data) in H; [exact H | |].
  - unfold prepared_world. cbn [signals]. rewrite length_app. cbn. lia.
  - unfold timer_accounted, prepared_world. cbn [timers].
    destruct (Z.eqb_spec (default 0%Z (timeout config)) 0); [tauto|]. cbn [negb].
    rewrite nth_error_app2, Nat.sub_diag by lia. exact I.
Qed.

Lemma safeFetch_success_clears_timer_witness :
  nth_error
    (timers (snd (safeFetch (fun _ _ _ => Responds json_null) "/api/items" no_options
                            one_retry_with_timeout world_initial)))
    (List.length (timers world_initial)) = Some TimerCleared.
Proof.
  apply (safeFetch_success_clears_timer (fun _ _ _ => Responds json_null) "/api/items"
           no_options one_retry_with_timeout world_initial JNull).
  - vm_compute. discriminate.
  - vm_compute. reflexivity.
Defined.

(** ** [safeFetch]: what is sent *)

Lemma lookup_assign {A : Type} (k k' : string) (v : A) (props : list (string * A)) :
  Js.lookup k' (Js.assign k v props) =
  if String.eqb k k' then Some v else Js.lookup k' props.
Proof.
  induction props as [|[k0 v0] props IH]; cbn.
  - destruct (String.eqb_spec k k'); reflexivity.
  - destruct (String.eqb_spec k0 k) as [->|Hk0]; cbn.
    + destruct (String.eqb_spec k k'); reflexivity.
    + destruct (String.eqb_spec k0 k') as [->|]; [|exact IH].
      destruct (String.eqb_spec k k'); [congruence | reflexivity].
Qed.

Lemma lookup_app {A : Type} (k : string) (l1 l2 : list (string * A)) :
  Js.lookup k (l1 ++ l2)%list =
  match Js.lookup k l1 with Some v => Some v | None => Js.lookup k l2 end.
Proof.
  induction l1 as [|[k0 v0] l1 IH]; cbn; [reflexivity|].
  destruct (String.eqb k0 k); [reflexivity | exact IH].
Qed.

(** An object spread reads as: the last entry of the source, else the
    target. *)
Lemma lookup_spread {A : Type} (k : string) (target source : list (string * A)) :
  Js.lookup k (Js.spread target source) =
  match last_value k source with
  | Some v => Some v
  | None => Js.lookup k target
  end.
Proof.
  unfold Js.spread, last_value. revert target.
  induction source as [|[k0 v0] source IH]; intros target; [reflexivity|].
  cbn [fold_left rev fst snd]. rewrite IH, lookup_app, lookup_assign. cbn [Js.lookup].
  destruct (Js.lookup k (rev source)); [reflexivity|].
  destruct (String.eqb k0 k); reflexivity.
Qed.

(** The calls of one [safeFetch] all carry the options built at lines
    816-829; there is none when building them throws. *)
Lemma safeFetch_calls T url options config w :
  exists added,
    calls (snd (safeFetch T url options config w)) = (calls w ++ added)%list /\
    match build_opts options (List.length (signals w)) (default true (autoJSON config)) with
    | Normal opts => Forall (fun c => call_url c = url /\ call_opts c = opts) added
    | Throw _ => added = []
    end.
Proof.
  rewrite safeFetch_unfold.
  destruct (build_opts options (List.length (signals w)) (default true (autoJSON config)))
    as [opts|err] eqn:Eb.
  - destruct (build_opts_fields _ _ _ _ Eb) as [Hsig _].
    destruct (prepared_world_signal (default 0%Z (timeout config)) w) as [_ Hv].
    rewrite <- Hsig in Hv.
    destruct (safeFetch_loop_trace T url opts
                (prepared_timer (default 0%Z (timeout config)) w)
                (default 0%Z (retries config)) 0%Z _ Hv)
      as (added & Hc & _ & _ & Hall & _).
    exists added. auto.
  - exists []. cbn [snd]. now rewrite app_nil_r.
Qed.



(** X5.  When the body is not serialised ([autoJSON] off, or a body that
    is absent, a string or a [FormData]), every request carries the body
    as given, and the headers of the caller over the default [Accept]:
    no [Content-Type] is added. *)
Theorem safeFetch_passes_other_bodies T url options config w :
  auto_encoded (default true (autoJSON config)) (Req.body options) = false ->
  exists added,
    calls (snd (safeFetch T url options config w)) = (calls w ++ added)%list /\
    Forall (fun c =>
              Req.body (call_opts c) = Req.body options /\
              exists sent,
                Req.headers (call_opts c) = Some sent /\
                (forall k,
                    Js.lookup k sent =
                    match last_value k (default [] (Req.headers options)) with
                    | Some v => Some v
                    | None => if String.eqb "Accept" k
                              then Some (JStr "application/json") else None
                    end))
           added.
Proof.
  intros Henc.
  destruct (safeFetch_calls T url options config w) as (added & Hc & Hall).
  exists added. split; [exact Hc|].
  unfold build_opts in Hall. fold (auto_encoded (default true (autoJSON config))
                                     (Req.body options)) in Hall.
  rewrite Henc in Hall.
  eapply Forall_impl; [|exact Hall]. cbn beta. intros c [_ ->]. cbn [Req.body Req.headers].
  split; [reflexivity|]. eexists. split; [reflexivity|].
  intros k. rewrite lookup_spread. reflexivity.
Qed.

Lemma safeFetch_passes_other_bodies_witness :
  exists added,
    calls (snd (safeFetch unreachable "/api/items"
                  {| Req.method := Some "POST"; Req.headers := None;
                     Req.body := JFormData [("avatar", JBlob true)];
                     Req.signal := None |}
                  no_config world_initial)) = (calls world_initial ++ added)%list /\
    Forall (fun c => Req.body (call_opts c) = JFormData [("avatar", JBlob true)]) added.
Proof.
  destruct (safeFetch_passes_other_bodies unreachable "/api/items"
              {| Req.method := Some "POST"; Req.headers := None;
                 Req.body := JFormData [("avatar", JBlob true)];
                 Req.signal := None |}
              no_config world_initial eq_refl)
    as (added & Hc & Hall).
  exists added. split; [exact Hc|].
  eapply Forall_impl; [|exact Hall]. cbn. tauto.
Defined.

(** ** [fetchWithCSRF]: the token header *)

Lemma assign_keys_in {A : Type} (k k0 : string) (v : A) (l : list (string * A)) :
  In k (map fst (Js.assign k0 v l)) -> k = k0 \/ In k (map fst l).
Proof.
  induction l as [|[k1 v1] l IH]; cbn.
  - intros [->|[]]. now left.
  - destruct (String.eqb_spec k1 k0) as [->|]; cbn; tauto.
Qed.

(** Writing a property keeps the keys of an object distinct. *)
Lemma distinct_keys_assign {A : Type} (k : string) (v : A) (l : list (string * A)) :
  NoDup (map fst l) -> NoDup (map fst (Js.assign k v l)).
Proof.
  induction l as [|[k1 v1] l IH]; cbn; intros Hn.
  - constructor; [intros []|constructor].
  - inversion Hn as [|? ? Hnot Hn']; subst.
    destruct (String.eqb_spec k1 k) as [->|Hne]; cbn.
    + constructor; assumption.
    + constructor; [|now apply IH].
      intros Hin. apply assign_keys_in in Hin as [->|Hin]; [congruence | tauto].
Qed.

Lemma distinct_keys_spread {A : Type} (target source : list (string * A)) :
  NoDup (map fst target) -> NoDup (map fst (Js.spread target source)).
Proof.
  unfold Js.spread. revert target.
  induction source as [|[k v] source IH]; intros target Hn; [exact Hn|].
  cbn [fold_left fst snd]. apply IH. now apply distinct_keys_assign.
Qed.

Lemma lookup_not_in {A : Type} (k : string) (l : list (string * A)) :
  ~ In k (map fst l) -> Js.lookup k l = None.
Proof.
  induction l as [|[k1 v1] l IH]; cbn; [reflexivity|].
  intros Hnot. destruct (String.eqb_spec k1 k); [tauto | apply IH; tauto].
Qed.

(** On an object, whose keys are distinct, the last entry of a key is
    its only one. *)
Lemma lookup_rev_distinct {A : Type} (k : string) (l : list (string * A)) :
  NoDup (map fst l) -> Js.lookup k (rev l) = Js.lookup k l.
Proof.
  induction l as [|[k0 v0] l IH]; intros Hn; [reflexivity|].
  inversion Hn as [|? ? Hnot Hn']; subst.
  cbn [rev]. rewrite lookup_app, IH by assumption. cbn [Js.lookup].
  destruct (String.eqb_spec k0 k) as [->|]; [|now destruct (Js.lookup k l)].
  now rewrite (lookup_not_in k l Hnot).
Qed.

(** X6.  Every request made by [fetchWithCSRF] carries an [X-CSRFToken]
    header: the one the caller gave under that key when there is one,
    otherwise the token resolved by [getCSRFToken], [null] when none was
    found; and the resolver's cache is left as that one lookup left
    it. *)
Theorem fetchWithCSRF_token_header T document url options st w :
  snd (fst (fetchWithCSRF T document url options st w))
  = snd (getCSRFToken document st) /\
  exists added,
    calls (snd (fetchWithCSRF T document url options st w)) = (calls w ++ added)%list /\
    Forall (fun c =>
              exists sent,
                Req.headers (call_opts c) = Some sent /\
                Js.lookup "X-CSRFToken" sent
                = Some (default (token_value (fst (getCSRFToken document st)))
                          (last_value "X-CSRFToken" (default [] (Req.headers options)))))
           added.
Proof.
  rewrite fetchWithCSRF_unfold. cbn zeta. cbn [fst snd]. split; [reflexivity|].
  match goal with
  | |- context [safeFetch T url ?o ?cfg w] =>
      destruct (safeFetch_calls T url o cfg w) as (added & Hc & Hall);
      remember o as options' eqn:Ho
  end.
  exists added. split; [exact Hc|].
  assert (forall opts,
             build_opts options' (List.length (signals w)) true = Normal opts ->
             exists sent,
               Req.headers opts = Some sent /\
               Js.lookup "X-CSRFToken" sent
               = Some (default (token_value (fst (getCSRFToken document st)))
                         (last_value "X-CSRFToken" (default [] (Req.headers options)))))
    as Hbuild.
  { intros opts. unfold build_opts.
    assert (Js.lookup "X-CSRFToken"
              (Js.spread [("Accept", JStr "application/json")]
                         (default [] (Req.headers options')))
            = Some (default (token_value (fst (getCSRFToken document st)))
                      (last_value "X-CSRFToken" (default [] (Req.headers options)))))
      as Hlook.
    { rewrite Ho. cbn [Req.headers default].
      rewrite lookup_spread. unfold last_value at 1.
      rewrite lookup_rev_distinct.
      2:{ apply distinct_keys_spread. cbn. constructor; [intros []|constructor]. }
      rewrite lookup_spread. cbn [Js.lookup String.eqb Ascii.eqb Bool.eqb].
      destruct (last_value "X-CSRFToken" (default [] (Req.headers options))); reflexivity. }
    destruct (true && Js.truthy (Req.body options') && Js.typeof_object (Req.body options')
              && negb (is_FormData (Req.body options'))).
    - destruct (JSON.stringify (Req.body options')); cbn [bind]; [|discriminate].
      intros [= <-]. cbn [Req.headers]. eexists. split; [reflexivity|].
      rewrite lookup_assign. exact Hlook.
    - intros [= <-]. cbn [Req.headers]. eexists. split; [reflexivity | exact Hlook]. }
  cbn [default autoJSON] in Hall.
  destruct (build_opts options' (List.length (signals w)) true) as [opts|err].
  - eapply Forall_impl; [|exact Hall]. cbn beta. intros c [_ ->]. now apply Hbuild.
  - subst added. constructor.
Qed.

Lemma fetchWithCSRF_token_header_witness :
  exists added,
    calls (snd (fetchWithCSRF unreachable page_with_hidden_field "/api/items"
                              no_options csrf_initial world_initial))
    = (calls world_initial ++ added)%list /\
    Forall (fun c =>
              exists sent,
                Req.headers (call_opts c) = Some sent /\
                Js.lookup "X-CSRFToken" sent = Some (JStr "tok123"))
           added.
Proof.
  destruct (fetchWithCSRF_token_header unreachable page_with_hidden_field "/api/items"
              no_options csrf_initial world_initial) as (_ & added & Hc & Hall).
  exists added. split; [exact Hc | exact Hall].
Defined.

(** ** [normalizeError] after [safeFetch] *)

(** X7.  Whatever error [safeFetch] resolves with, [normalizeError] files
    it under [js], with a message that is not empty: the status and the
    data that [safeFetch] attached to its error are not carried over. *)
Theorem normalizeError_of_safeFetch_error
    stack_trace T url options config w err data w' :
  (0 <= default 0%Z (retries config))%Z ->
  safeFetch T url options config w = (Fulfilled (JArr [err; data]), w') ->
  err <> JNull ->
  exists message stack,
    message <> EmptyString /\
    normalizeError stack_trace (ThrownValue err)
    = Fulfilled (JObj [("type", JStr "js"); ("message", JStr message); ("stack", stack)]).
Proof.
  intros Hr. rewrite safeFetch_unfold.
  destruct (build_opts options (List.length (signals w)) (default true (autoJSON config)))
    as [opts|e]; [|discriminate].
  intros H Hnn.
  pose proof (safeFetch_loop_result T url opts
                (prepared_timer (default 0%Z (timeout config)) w)
                (default 0%Z (retries config)) 0%Z
                (prepared_world (default 0%Z (timeout config)) w) Hr) as Hres.
  rewrite H in Hres. cbn [fst] in Hres.
  destruct Hres as [(name & message & props & [= -> ->]) | (? & ? & ? & _ & _ & _ & [= -> _])];
    [|congruence].
  cbn [normalizeError Js.get String.eqb]. unfold or_string. cbn [Js.truthy].
  destruct message as [|ch message]; cbn [Str.truthy].
  - exists "Unknown error". eexists. split; [discriminate | reflexivity].
  - exists (String ch message). eexists. split; [discriminate | reflexivity].
Qed.

Lemma normalizeError_of_safeFetch_error_witness :
  exists message stack,
    message <> EmptyString /\
    normalizeError (fun _ => "Error: HTTP 404: Not Found at safeFetch")
                   (ThrownValue (http_error not_found (JStr "no such item")))
    = Fulfilled (JObj [("type", JStr "js"); ("message", JStr message); ("stack", stack)]).
Proof.
  apply (normalizeError_of_safeFetch_error
           (fun _ => "Error: HTTP 404: Not Found at safeFetch")
           (fun _ _ _ => Responds not_found) "/api/items"
           no_options no_config world_initial _ JNull
           (snd (safeFetch (fun _ _ _ => Responds not_found) "/api/items"
                           no_options no_config world_initial))).
  - vm_compute. discriminate.
  - vm_compute. reflexivity.
  - discriminate.
Defined.

(** ** The two readers of a response body *)

Lemma includes_toLowerCase (s pat : string) :
  Str.includes s pat = true ->
  Str.includes (Str.toLowerCase s) (Str.toLowerCase pat) = true.
Proof.
  intros H. apply includes_spec in H as (pre & post & ->).
  apply ci_contains_spec. now exists pre, pat, post.
Qed.

Lemma getResponseType_spells_json (r : Response) :
  spells_json r = true -> getResponseType r = "json".
Proof.
  unfold spells_json, getResponseType.
  change (Headers.get (headers r) "content-type")
    with (Headers.get (headers r) "Content-Type").
  destruct (Headers.get (headers r) "Content-Type") as [ct|]; [|discriminate].
  intros H. replace (if Str.truthy ct then ct else EmptyString) with ct by now destruct ct.
  pose proof (includes_toLowerCase ct "application/json" H) as H'.
  change (Str.toLowerCase "application/json") with "application/json" in H'.
  now rewrite H'.
Qed.

(** X8.  [safelyReadResponse] and the reader inside [safeFetch] agree
    whenever [safeFetch] parses JSON and whenever the classifier says
    text or multipart.  They part on a header that names
    [application/json] in other letter case: the classifier lowers the
    case and [safelyReadResponse] parses JSON, [safeFetch] compares the
    header as written and returns the text. *)
Theorem readers_agree (r : Response) :
  (spells_json r = true \/ getResponseType r = "text" \/ getResponseType r = "multipart" ->
   safelyReadResponse r = read_by_safeFetch r) /\
  (getResponseType r = "json" -> spells_json r = false ->
   safelyReadResponse r = (v <- json r ;; Normal (ReadValue v)) /\
   read_by_safeFetch r = Normal (ReadValue (JStr (body_text r)))).
Proof.
  assert (spells_json r = false -> read_by_safeFetch r = Normal (ReadValue (JStr (body_text r))))
    as Htext.
  { unfold spells_json, read_by_safeFetch, read_body.
    destruct (Headers.get (headers r) "content-type") as [ct|]; [|reflexivity].
    now intros ->. }
  split.
  - intros [Hj | Ht].
    + unfold safelyReadResponse. rewrite (getResponseType_spells_json r Hj). cbn.
      unfold read_by_safeFetch, read_body. unfold spells_json in Hj.
      destruct (Headers.get (headers r) "content-type") as [ct|]; [|discriminate].
      now rewrite Hj.
    + assert (spells_json r = false) as Hs.
      { destruct (spells_json r) eqn:E; [|reflexivity].
        apply getResponseType_spells_json in E. destruct Ht as [Ht|Ht]; congruence. }
      rewrite (Htext Hs). unfold safelyReadResponse.
      destruct Ht as [-> | ->]; reflexivity.
  - intros Hj Hs. split; [|now apply Htext].
    unfold safelyReadResponse. now rewrite Hj.
Qed.

Lemma readers_agree_witness :
  safelyReadResponse json_null = read_by_safeFetch json_null /\
  safelyReadResponse not_found = read_by_safeFetch not_found.
Proof.
  split.
  - apply (proj1 (readers_agree json_null)). left. reflexivity.
  - apply (proj1 (readers_agree not_found)). right. left. reflexivity.
Defined.

(** ** [isCSRFTokenAvailable] *)



(** ** [createHeaders]: one header per name *)

Lemma put_names_in (h : Headers.t) (n v k : string) :
  In k (map (fun kv => Str.toLowerCase (fst kv)) (Headers.put h n v)) ->
  k = Str.toLowerCase n \/ In k (map (fun kv => Str.toLowerCase (fst kv)) h).
Proof.
  induction h as [|[k0 v0] h IH]; cbn [Headers.put map fst].
  - intros [<-|[]]. now left.
  - destruct (Headers.same_name k0 n) eqn:E; cbn [map fst].
    + intros [<-|Hin]; [right; now left|].
      right. right. apply in_map_iff in Hin as (kv & <- & Hin).
      apply filter_In in Hin as [Hin _]. apply in_map_iff. eauto.
    + intros [<-|Hin]; [right; now left|].
      apply IH in Hin as [->|Hin]; [now left | right; now right].
Qed.

Lemma dropping_keeps_names_distinct (keep : string * string -> bool) (h : Headers.t) :
  NoDup (map (fun kv => Str.toLowerCase (fst kv)) h) ->
  NoDup (map (fun kv => Str.toLowerCase (fst kv)) (filter keep h)).
Proof.
  induction h as [|kv h IH]; cbn [filter map]; intros Hn; [constructor|].
  inversion Hn as [|? ? Hnot Hn']; subst.
  destruct (keep kv); cbn [map]; [|now apply IH].
  constructor; [|now apply IH].
  intros Hin. apply Hnot. apply in_map_iff in Hin as (x & <- & Hin).
  apply filter_In in Hin as [Hin _]. apply in_map_iff. eauto.
Qed.

Lemma put_keeps_names_distinct (h : Headers.t) (n v : string) :
  NoDup (map (fun kv => Str.toLowerCase (fst kv)) h) ->
  NoDup (map (fun kv => Str.toLowerCase (fst kv)) (Headers.put h n v)).
Proof.
  induction h as [|[k0 v0] h IH]; cbn [Headers.put map fst]; intros Hn.
  - constructor; [intros []|constructor].
  - inversion Hn as [|? ? Hnot Hn']; subst.
    destruct (Headers.same_name k0 n) eqn:E; cbn [map fst].
    + constructor.
      * intros Hin. apply Hnot. apply in_map_iff in Hin as (kv & <- & Hin).
        apply filter_In in Hin as [Hin _]. apply in_map_iff. eauto.
      * now apply dropping_keeps_names_distinct.
    + constructor; [|now apply IH].
      intros Hin. apply put_names_in in Hin as [Heq|Hin]; [|tauto].
      unfold Headers.same_name in E. rewrite Heq, String.eqb_refl in E. discriminate.
Qed.

Lemma set_keeps_names_distinct (h h' : Headers.t) (n v : string) :
  Headers.set h n v = Normal h' ->
  NoDup (map (fun kv => Str.toLowerCase (fst kv)) h) ->
  NoDup (map (fun kv => Str.toLowerCase (fst kv)) h').
Proof.
  rewrite set_settable. destruct (settable (n, v)); [|discriminate].
  intros [= <-]. apply put_keeps_names_distinct.
Qed.

(** X11.  A header set made by [createHeaders] never holds two headers
    of the same name, letter case ignored, whatever [extra] contains. *)
Theorem createHeaders_names_distinct (cfg : HeaderConfig) (h : Headers.t) :
  createHeaders cfg = Normal h ->
  NoDup (map (fun kv => Str.toLowerCase (fst kv)) h).
Proof.
  unfold createHeaders.
  destruct (if isJson cfg && negb (truthy_opt (Js.lookup "Content-Type" (extra cfg)))
            then Headers.set Headers.empty "Content-Type" "application/json"
            else Normal Headers.empty) as [h0|e0] eqn:E0; [|discriminate].
  assert (NoDup (map (fun kv => Str.toLowerCase (fst kv)) h0)) as H0.
  { destruct (_ && _).
    - eapply set_keeps_names_distinct; [exact E0 | constructor].
    - injection E0 as <-. constructor. }
  cbn [bind].
  destruct (match token cfg with
            | Some tok => if Str.truthy tok
                          then Headers.set h0 "Authorization" ("Bearer " ++ tok)
                          else Normal h0
            | None => Normal h0
            end) as [h1|e1] eqn:E1; [|discriminate].
  assert (NoDup (map (fun kv => Str.toLowerCase (fst kv)) h1)) as H1.
  { destruct (token cfg) as [tok|]; [|now injection E1 as <-].
    destruct (Str.truthy tok); [|now injection E1 as <-].
    eapply set_keeps_names_distinct; eassumption. }
  cbn [bind]. rewrite set_each_settable.
  destruct (forallb settable (extra cfg)); [|discriminate].
  intros [= <-]. clear E0 E1 H0. revert h1 H1.
  induction (extra cfg) as [|[k v] entries IH]; intros h1 Hh; [exact Hh|].
  cbn [fold_left fst snd]. apply IH. now apply put_keeps_names_distinct.
Qed.

Lemma createHeaders_names_distinct_witness :
  NoDup (map (fun kv => Str.toLowerCase (fst kv))
             [("Content-Type", "text/plain"); ("Authorization", "Bearer abc")]).
Proof.
  apply (createHeaders_names_distinct
           {| isJson := true; token := Some "abc";
              extra := [("content-type", " text/plain ")] |}).
  reflexivity.
Defined.

(** ** [getCookie] *)

Lemma has_char_app (c : ascii) (a b : string) :
  has_char c (a ++ b) = has_char c a || has_char c b.
Proof.
  induction a as [|d a IH]; cbn; [reflexivity|]. now rewrite IH, orb_assoc.
Qed.

Lemma split_without (c : ascii) (s : string) :
  has_char c s = false -> Str.split c s = [s].
Proof.
  induction s as [|d s IH]; cbn; [reflexivity|].
  intros H. apply orb_false_iff in H as [Hd Hs]. now rewrite Hd, (IH Hs).
Qed.

Lemma split_at (c : ascii) (a b : string) :
  has_char c a = false -> Str.split c (a ++ String c b) = a :: Str.split c b.
Proof.
  induction a as [|d a IH]; cbn.
  - intros _. now rewrite Ascii.eqb_refl.
  - intros H. apply orb_false_iff in H as [Hd Ha]. now rewrite Hd, (IH Ha).
Qed.

Lemma split_head (c : ascii) (s : string) :
  exists rest, Str.split c s = before c s :: rest.
Proof.
  induction s as [|d s [rest IH]]; cbn; [now exists []|].
  destruct (Ascii.eqb d c); [eauto|]. rewrite IH. eauto.
Qed.

Lemma dropWhile_none (p : ascii -> bool) (s : string) :
  starts_with p s = false -> Str.dropWhile p s = s.
Proof. destruct s as [|c s]; cbn; [reflexivity | now intros ->]. Qed.

Lemma dropWhileEnd_none (p : ascii -> bool) (s : string) :
  ends_with p s = false -> Str.dropWhileEnd p s = s.
Proof.
  induction s as [|c s IH]; [reflexivity|].
  cbn [ends_with Str.dropWhileEnd]. destruct s as [|d s].
  - cbn. now intros ->.
  - intros H. now rewrite (IH H).
Qed.

Lemma ends_with_app (p : ascii -> bool) (a : string) (c : ascii) (b : string) :
  ends_with p (a ++ String c b) = ends_with p (String c b).
Proof.
  induction a as [|d a IH]; [reflexivity|].
  cbn [append]. cbn [ends_with]. destruct (a ++ String c b) eqn:E; [|exact IH].
  destruct a; discriminate.
Qed.

Lemma tidy_pair_facts (kv : string * string) :
  tidy_pair kv = true ->
  has_char ";" (cookie_pair kv) = false /\
  has_char "=" (fst kv) = false /\
  Str.trim (cookie_pair kv) = cookie_pair kv /\
  Str.trim (" " ++ cookie_pair kv) = cookie_pair kv.
Proof.
  unfold tidy_pair, cookie_pair. destruct kv as [k v]. cbn [fst snd].
  rewrite !andb_true_iff, !negb_true_iff. intros ((((Hk & He) & Hs) & Hv) & Ht).
  assert (Str.trim (k ++ "=" ++ v) = k ++ "=" ++ v) as Htrim.
  { unfold Str.trim. rewrite dropWhile_none.
    - apply dropWhileEnd_none. cbn [append]. rewrite ends_with_app.
      destruct v; [reflexivity | exact Ht].
    - destruct k; [reflexivity | exact Hs]. }
  split; [|split; [exact He|split; [exact Htrim|]]].
  - rewrite has_char_app, Hk. cbn. exact Hv.
  - unfold Str.trim in *. cbn [append Str.dropWhile]. exact Htrim.
Qed.

Lemma split_cookie_string (kv : string * string) (rest : list (string * string)) :
  forallb tidy_pair (kv :: rest) = true ->
  map Str.trim (Str.split ";" (cookie_string (kv :: rest))) = map cookie_pair (kv :: rest).
Proof.
  revert kv. induction rest as [|kv' rest IH]; intros kv H;
    cbn [forallb] in H; apply andb_true_iff in H as [Hkv Hrest].
  - destruct (tidy_pair_facts kv Hkv) as (Hsemi & _ & Htrim & _).
    unfold cookie_string. cbn [map String.concat].
    rewrite (split_without _ _ Hsemi). cbn [map]. now rewrite Htrim.
  - destruct (tidy_pair_facts kv Hkv) as (Hsemi & _ & Htrim & _).
    assert (cookie_string (kv :: kv' :: rest)
            = cookie_pair kv ++ String ";" (" " ++ cookie_string (kv' :: rest))) as ->
      by reflexivity.
    rewrite (split_at _ _ _ Hsemi). cbn [map]. rewrite Htrim. f_equal.
    specialize (IH kv' Hrest).
    assert (forallb tidy_pair (kv' :: rest) = true) as Hrest' by exact Hrest.
    cbn [forallb] in Hrest'. apply andb_true_iff in Hrest' as [Hkv' _].
    destruct (tidy_pair_facts kv' Hkv') as (_ & _ & _ & Htrim').
    cbn [append Str.split]. cbn [Ascii.eqb Bool.eqb].
    destruct (Str.split ";" (cookie_string (kv' :: rest))) as [|piece pieces] eqn:Es;
      [discriminate IH|].
    cbn [map] in IH |- *. injection IH as Hp Hps. rewrite Hps. f_equal.
    (* the piece after the separator starts with the space of the separator *)
    destruct (split_head ";" (cookie_string (kv' :: rest))) as [rest' Hh].
    rewrite Es in Hh. injection Hh as -> _.
    assert (before ";" (cookie_string (kv' :: rest)) = cookie_pair kv') as Hb.
    { destruct (tidy_pair_facts kv' Hkv') as (Hs' & _).
      destruct rest as [|kv'' rest].
      - unfold cookie_string. cbn [map String.concat].
        clear -Hs'. induction (cookie_pair kv') as [|d s IH]; [reflexivity|].
        cbn in *. apply orb_false_iff in Hs' as [-> Hs']. now rewrite IH.
      - assert (cookie_string (kv' :: kv'' :: rest)
                = cookie_pair kv' ++ String ";" (" " ++ cookie_string (kv'' :: rest))) as ->
          by reflexivity.
        clear -Hs'. induction (cookie_pair kv') as [|d s IH]; [reflexivity|].
        cbn in *. apply orb_false_iff in Hs' as [-> Hs']. now rewrite IH. }
    rewrite Hb. exact Htrim'.
Qed.

Lemma startsWith_pair (k name v : string) :
  has_char "=" k = false -> has_char "=" name = false ->
  Str.startsWith (cookie_pair (k, v)) (name ++ "=") = String.eqb k name.
Proof.
  unfold cookie_pair. cbn [fst snd].
  change ("=" ++ v) with (String "=" v). revert name.
  induction k as [|c k IH]; intros [|n name];
    cbn [append Str.startsWith String.eqb has_char].
  - intros _ _. rewrite Ascii.eqb_refl. now destruct v.
  - intros _ H. apply orb_false_iff in H as [Hn _].
    rewrite Ascii.eqb_sym in Hn. now rewrite Hn.
  - intros H _. apply orb_false_iff in H as [Hc _]. now rewrite Hc.
  - intros Hk Hn. apply orb_false_iff in Hk as [_ Hk]. apply orb_false_iff in Hn as [_ Hn].
    rewrite (IH name Hk Hn). now destruct (Ascii.eqb c n).
Qed.

(** X9.  On a cookie string of tidy [name=value] pairs, [getCookie] finds
    the first pair of that exact name and returns its value up to the
    first equals sign, with the double quotes around it removed; it
    returns [null] when the jar has no such name. *)
Theorem getCookie_reads_jar (jar : list (string * string)) (name : string)
    (input meta : option string) :
  forallb tidy_pair jar = true ->
  has_char "=" name = false ->
  getCookie {| csrf_input := input; csrf_meta := meta; cookie := cookie_string jar |} name
  = option_map (fun v => strip_quotes (before "=" v)) (Js.lookup name jar).
Proof.
  intros Htidy Hname. unfold getCookie. cbn [cookie].
  destruct jar as [|kv rest]; [reflexivity|].
  assert (Str.truthy (cookie_string (kv :: rest)) = true) as ->.
  { unfold cookie_string. cbn [map]. destruct kv as [k v]. unfold cookie_pair at 1.
    cbn [fst snd]. destruct rest; cbn [String.concat]; destruct k; reflexivity. }
  cbn [negb]. rewrite (split_cookie_string kv rest Htidy).
  induction (kv :: rest) as [|[k v] jar IH]; [reflexivity|].
  cbn [forallb] in Htidy. apply andb_true_iff in Htidy as [Hkv Hjar].
  destruct (tidy_pair_facts (k, v) Hkv) as (_ & Hk & _). cbn [fst] in Hk.
  cbn [map find Js.lookup]. rewrite (startsWith_pair k name v Hk Hname).
  destruct (String.eqb k name); [|exact (IH Hjar)].
  unfold cookie_pair. cbn [fst snd]. change ("=" ++ v) with (String "=" v).
  rewrite (split_at "=" k v Hk).
  destruct (split_head "=" v) as [rest' ->]. reflexivity.
Qed.

Lemma getCookie_reads_jar_witness :
  getCookie {| csrf_input := None; csrf_meta := None;
               cookie := cookie_string [("theme", "dark"); ("csrftoken", "abc=="); ("lang", "en")] |}
            "csrftoken"
  = Some "abc".
Proof.
  apply (getCookie_reads_jar [("theme", "dark"); ("csrftoken", "abc=="); ("lang", "en")]
           "csrftoken" None None); reflexivity.
Defined.

(** ** File detection and [formParser] *)

(** Induction over a value and the values inside it. *)
Lemma jsval_nested_ind (P : jsval -> Prop) :
  P JUndefined -> P JNull ->
  (forall b, P (JBool b)) -> (forall n, P (JNum n)) -> (forall s, P (JStr s)) ->
  (forall items, Forall P items -> P (JArr items)) ->
  (forall props, Forall (fun kv => P (snd kv)) props -> P (JObj props)) ->
  (forall isFile, P (JBlob isFile)) ->
  (forall files, Forall P files -> P (JFileList files)) ->
  (forall entries, Forall (fun kv => P (snd kv)) entries -> P (JFormData entries)) ->
  (forall name message props,
      Forall (fun kv => P (snd kv)) props -> P (JError name message props)) ->
  (forall up, P (JBackRef up)) ->
  forall v, P v.
Proof.
  intros Hu Hn Hb Hz Hs Harr Hobj Hblob Hfl Hfd Herr Hback.
  fix IH 1. intros [ | | b | n | s | items | props | isFile | files | entries
                   | name message props | up ].
  - exact Hu.
  - exact Hn.
  - apply Hb.
  - apply Hz.
  - apply Hs.
  - apply Harr. revert items. fix IHl 1.
    intros [|x l]; constructor; [apply IH | apply IHl].
  - apply Hobj. revert props. fix IHl 1.
    intros [|[k x] l]; constructor; [apply IH | apply IHl].
  - apply Hblob.
  - apply Hfl. revert files. fix IHl 1.
    intros [|x l]; constructor; [apply IH | apply IHl].
  - apply Hfd. revert entries. fix IHl 1.
    intros [|[k x] l]; constructor; [apply IH | apply IHl].
  - apply Herr. revert props. fix IHl 1.
    intros [|[k x] l]; constructor; [apply IH | apply IHl].
  - apply Hback.
Qed.

Lemma some_spec {A : Type} (f : A -> completion bool) (Q : A -> Prop) (l : list A) :
  Forall (fun x => exists b, f x = Normal b /\ (b = true <-> Q x)) l ->
  exists b, some f l = Normal b /\ (b = true <-> Exists Q l).
Proof.
  induction 1 as [|x l (b & Hf & Hb) _ (bs & Hs & Hbs)]; cbn.
  - exists false. split; [reflexivity|]. split; [discriminate | inversion 1].
  - rewrite Hf. cbn. destruct b.
    + exists true. split; [reflexivity|]. split; [|reflexivity].
      intros _. left. now apply Hb.
    + exists bs. split; [exact Hs|]. rewrite Hbs. split.
      * intros H. now right.
      * inversion 1 as [? ? Hq|]; subst; [|assumption].
        apply Hb in Hq. discriminate.
Qed.

Lemma Forall_cycle_free {A : Type} (g : A -> jsval) (P : jsval -> Prop) (l : list A) :
  Forall (fun x => cycle_free (g x) = true -> P (g x)) l ->
  forallb (fun x => cycle_free (g x)) l = true ->
  Forall (fun x => P (g x)) l.
Proof.
  induction 1 as [|x l Hx _ IH]; cbn; [constructor|].
  intros H. apply andb_true_iff in H as [H1 H2]. constructor; auto.
Qed.

Lemma containsFile_spec (v : jsval) :
  cycle_free v = true ->
  exists b, containsFile v = Normal b /\ (b = true <-> file_inside v).
Proof.
  induction v as [ | | b | n | s | items IH | props IH | isFile | files IH
                 | entries IH | name message props IH | up ] using jsval_nested_ind;
    intros Hc.
  - exists false. split; [reflexivity|]. split; [discriminate | inversion 1].
  - exists false. split; [reflexivity|]. split; [discriminate | inversion 1].
  - exists false. split; [reflexivity|]. split; [discriminate | inversion 1].
  - exists false. split; [reflexivity|]. split; [discriminate | inversion 1].
  - exists false. split; [reflexivity|]. split; [discriminate | inversion 1].
  - cbn [cycle_free] in Hc.
    destruct (some_spec containsFile file_inside items) as (b & Hs & Hb).
    { apply (Forall_cycle_free (fun x => x)
               (fun v => exists b, containsFile v = Normal b /\ (b = true <-> file_inside v)) items IH Hc). }
    exists b. split; [exact Hs|]. rewrite Hb, Exists_exists. split.
    + intros (x & Hin & Hx). eapply file_in_array; eassumption.
    + inversion 1; subst. eauto.
  - cbn [cycle_free] in Hc.
    destruct (some_spec (fun kv => containsFile (snd kv)) (fun kv => file_inside (snd kv)) props)
      as (b & Hs & Hb).
    { apply (Forall_cycle_free snd
               (fun v => exists b, containsFile v = Normal b /\ (b = true <-> file_inside v)) props IH Hc). }
    exists b. split; [exact Hs|]. rewrite Hb, Exists_exists. split.
    + intros ([k x] & Hin & Hx). eapply file_in_object; eassumption.
    + inversion 1; subst. eexists. split; [eassumption | assumption].
  - exists true. split; [reflexivity|]. split; [constructor | reflexivity].
  - destruct files as [|f files].
    + exists false. split; [reflexivity|]. split; [discriminate | inversion 1].
    + exists true. split; [reflexivity|]. split; [constructor | reflexivity].
  - cbn [cycle_free] in Hc.
    destruct (some_spec (fun kv => containsFile (snd kv)) (fun kv => file_inside (snd kv)) entries)
      as (b & Hs & Hb).
    { apply (Forall_cycle_free snd
               (fun v => exists b, containsFile v = Normal b /\ (b = true <-> file_inside v)) entries IH Hc). }
    exists b. split; [exact Hs|]. rewrite Hb, Exists_exists. split.
    + intros ([k x] & Hin & Hx). eapply file_in_form; eassumption.
    + inversion 1; subst. eexists. split; [eassumption | assumption].
  - cbn [cycle_free] in Hc.
    destruct (some_spec (fun kv => containsFile (snd kv)) (fun kv => file_inside (snd kv)) props)
      as (b & Hs & Hb).
    { apply (Forall_cycle_free snd
               (fun v => exists b, containsFile v = Normal b /\ (b = true <-> file_inside v)) props IH Hc). }
    exists b. split; [exact Hs|]. rewrite Hb, Exists_exists. split.
    + intros ([k x] & Hin & Hx). eapply file_in_error; eassumption.
    + inversion 1; subst. eexists. split; [eassumption | assumption].
  - discriminate.
Qed.

(** X15.  On a value without cycles the helper [containsFile] of the
    older copy never throws: it returns [true] exactly when the value is
    or holds, at any depth, a [File], a [Blob] or a non-empty [FileList],
    and [false] exactly when it holds none. *)
Theorem containsFile_finds_files (v : jsval) :
  cycle_free v = true ->
  (containsFile v = Normal true <-> file_inside v) /\
  (containsFile v = Normal false <-> ~ file_inside v).
Proof.
  intros Hc. destruct (containsFile_spec v Hc) as (b & Hb & Hiff).
  rewrite Hb. split; split.
  - intros [= ->]. now apply Hiff.
  - intros H. apply Hiff in H. now rewrite H.
  - intros [= ->] H. apply Hiff in H. discriminate.
  - intros H. destruct b; [|reflexivity]. exfalso. apply H. now apply Hiff.
Qed.

Lemma containsFile_finds_files_witness :
  containsFile (JObj [("username", JStr "alice");
                      ("profile", JObj [("avatar", JBlob true)])]) = Normal true <->
  file_inside (JObj [("username", JStr "alice");
                     ("profile", JObj [("avatar", JBlob true)])]).
Proof.
  apply (proj1 (containsFile_finds_files
                  (JObj [("username", JStr "alice");
                         ("profile", JObj [("avatar", JBlob true)])]) eq_refl)).
Defined.

Lemma to_FormData_is_FormData (dataObj r : jsval) :
  to_FormData dataObj = Some (Normal r) -> is_FormData r = true.
Proof.
  unfold to_FormData.
  destruct (append_all (flat_map append_entry (Object_entries dataObj))) as [[entries|e]|];
    try discriminate.
  now intros [= <-].
Qed.

(** X12.  [formParser] of utils.js never returns a JSON string or a plain
    object: whatever it returns is a [FormData].  A form element or a
    [FormData] comes back as the form data; every plain object and every
    array, text-only or not, ends in the [ReferenceError] of
    [objectContainsFile]. *)
Theorem formParser_returns_FormData_only (autoJson : bool) :
  (forall form r, formParser form autoJson = Some (Normal r) -> is_FormData r = true) /\
  (forall fields,
      formParser (FormElement fields) autoJson = Some (Normal (JFormData fields))) /\
  (forall entries,
      formParser (Value (JFormData entries)) autoJson
      = Some (Normal (JFormData entries))) /\
  (forall props,
      formParser (Value (JObj props)) autoJson
      = Some (Throw (ReferenceError "containsFile"))) /\
  (forall items,
      formParser (Value (JArr items)) autoJson
      = Some (Throw (ReferenceError "containsFile"))).
Proof.
  split; [|repeat split; reflexivity].
  intros [fields | v] r.
  - intros [= <-]. reflexivity.
  - destruct v as [ | | b | n | s | items | props | isFile | [|f files] | entries
                   | name message props | up ];
      try (cbn; discriminate); try (cbn; intros [= <-]; reflexivity).
    unfold formParser.
    cbn [accepted_input Js.typeof_object Js.is_null negb andb is_FormData
         objectContainsFile objectContainsFile_in].
    apply to_FormData_is_FormData.
Qed.

Lemma formParser_returns_FormData_only_witness :
  is_FormData (JFormData [("avatar", JBlob true)]) = true.
Proof.
  apply (proj1 (formParser_returns_FormData_only true)
           (FormElement [("avatar", JBlob true)]) (JFormData [("avatar", JBlob true)])).
  reflexivity.
Defined.

(** X13.  [formParser] of the older copy, on a plain object without
    cycles: when a file sits anywhere inside, the object goes through the
    conversion to a [FormData], which gives a [FormData] when it returns;
    when none does, the result is the object itself. *)
Theorem older_formParser_dispatch (props : list (string * jsval)) :
  cycle_free (JObj props) = true ->
  (file_inside (JObj props) ->
   Older.formParser (Value (JObj props)) = to_FormData (JObj props) /\
   forall r, Older.formParser (Value (JObj props)) = Some (Normal r) ->
             is_FormData r = true) /\
  (~ file_inside (JObj props) ->
   Older.formParser (Value (JObj props)) = Some (Normal (JObj props))).
Proof.
  intros Hc. destruct (containsFile_spec (JObj props) Hc) as (b & Hb & Hiff).
  unfold Older.formParser.
  cbn [accepted_input Js.typeof_object Js.is_null negb andb is_FormData].
  rewrite Hb. split; intros H.
  - apply Hiff in H. rewrite H. split; [reflexivity|].
    intros r. apply to_FormData_is_FormData.
  - destruct b; [|reflexivity]. exfalso. apply H. now apply Hiff.
Qed.

Lemma older_formParser_dispatch_witness :
  Older.formParser (Value alice) = Some (Normal alice).
Proof.
  apply (proj2 (older_formParser_dispatch [("username", JStr "alice")] eq_refl)).
  intros H. inversion H as [| | |? ? ? Hin Hf| |]; subst.
  destruct Hin as [[= <- <-]|[]]. inversion Hf.
Defined.

Lemma appended_entry_value (v x : jsval) :
  appended v = Some (Normal x) -> entry_value x = true.
Proof.
  unfold appended.
  destruct v; try (destruct (ToString _) as [[s'|e]|]; try discriminate;
                   intros [= <-]; reflexivity).
  intros [= <-]. reflexivity.
Qed.

(** The entries stored are, call by call, what [append] makes of the
    value handed over. *)
Lemma append_all_entries (calls fd : list (string * jsval)) :
  append_all calls = Some (Normal fd) ->
  Forall2 (fun call entry =>
             fst entry = fst call /\
             appended (snd call) = Some (Normal (snd entry))) calls fd.
Proof.
  revert fd. induction calls as [|[key value] calls IH]; intros fd; cbn [append_all].
  - intros [= <-]. constructor.
  - destruct (appended value) as [[stored|e]|] eqn:Ea; try discriminate.
    destruct (append_all calls) as [[entries|e]|]; try discriminate.
    intros [= <-]. constructor; [split; [reflexivity | exact Ea]|].
    now apply IH.
Qed.

Lemma append_all_strings_and_files (props : list (string * jsval)) :
  forallb (fun kv => match snd kv with
                     | JStr _ | JBlob true => true
                     | _ => false
                     end) props = true ->
  append_all (flat_map append_entry props) = Some (Normal props).
Proof.
  induction props as [|[k v] props IH]; [reflexivity|].
  cbn [forallb snd flat_map]. intros H. apply andb_prop in H as [Hv Hrest].
  destruct v as [ | | | | s | | | [|] | | | | ]; try discriminate.
  - change (append_entry (k, JStr s)) with [(k, JStr s)].
    cbn [app append_all appended ToString]. now rewrite (IH Hrest).
  - change (append_entry (k, JBlob true)) with [(k, JBlob true)].
    cbn [app append_all appended]. now rewrite (IH Hrest).
Qed.

(** X14.  The [FormData] that the older [formParser] makes from a plain
    object holds one entry per call of [append], in the order of the
    object: one call per value, and one per file for a value that is a
    [FileList] (none when the list is empty).  Under the key of the call
    it holds what [append] stores: a [Blob] as a [File], any other value
    as the string it converts to, so that every entry is a string or a
    [File]; a nested object is stored as a string, its files are not
    taken out.  An object whose values are all strings and [File]s gives
    its own entries. *)
Theorem older_formParser_entries (props fd : list (string * jsval)) :
  Older.formParser (Value (JObj props)) = Some (Normal (JFormData fd)) ->
  Forall2 (fun call entry =>
             fst entry = fst call /\
             appended (snd call) = Some (Normal (snd entry)))
          (flat_map append_entry props) fd /\
  Forall (fun entry => entry_value (snd entry) = true) fd /\
  (forallb (fun kv => match snd kv with
                      | JStr _ | JBlob true => true
                      | _ => false
                      end) props = true -> fd = props).
Proof.
  unfold Older.formParser.
  cbn [accepted_input Js.typeof_object Js.is_null negb andb is_FormData].
  destruct (containsFile (JObj props)) as [[|]|e]; try discriminate.
  unfold to_FormData. cbn [Object_entries].
  destruct (append_all (flat_map append_entry props)) as [[entries|e]|] eqn:Ea;
    try discriminate.
  intros [= <-]. pose proof (append_all_entries _ _ Ea) as Hall.
  split; [exact Hall|]. split.
  - clear Ea. induction Hall as [|call entry calls fd' [_ Hst] _ IH]; constructor.
    + eapply appended_entry_value; eassumption.
    + exact IH.
  - intros Hplain. rewrite (append_all_strings_and_files props Hplain) in Ea.
    now injection Ea as <-.
Qed.

Lemma older_formParser_entries_witness :
  Forall2 (fun call entry =>
             fst entry = fst call /\
             appended (snd call) = Some (Normal (snd entry)))
          (flat_map append_entry
             [("n", JNum 5); ("profile", JObj [("avatar", JBlob true)]);
              ("photos", JFileList [JBlob true; JBlob false])])
          [("n", JStr "5"); ("profile", JStr "[object Object]");
           ("photos", JBlob true); ("photos", JBlob true)] /\
  Forall (fun entry => entry_value (snd entry) = true)
         [("n", JStr "5"); ("profile", JStr "[object Object]");
          ("photos", JBlob true); ("photos", JBlob true)] /\
  (forallb (fun kv => match snd kv with
                      | JStr _ | JBlob true => true
                      | _ => false
                      end)
           [("n", JNum 5); ("profile", JObj [("avatar", JBlob true)]);
            ("photos", JFileList [JBlob true; JBlob false])] = true ->
   [("n", JStr "5"); ("profile", JStr "[object Object]");
    ("photos", JBlob true); ("photos", JBlob true)]
   = [("n", JNum 5); ("profile", JObj [("avatar", JBlob true)]);
      ("photos", JFileList [JBlob true; JBlob false])]).
Proof.
  apply (older_formParser_entries
           [("n", JNum 5); ("profile", JObj [("avatar", JBlob true)]);
            ("photos", JFileList [JBlob true; JBlob false])]
           [("n", JStr "5"); ("profile", JStr "[object Object]");
            ("photos", JBlob true); ("photos", JBlob true)]).
  reflexivity.
Defined.

(** ** The first [safeFetch] *)

(** X16.  The first version of [safeFetch] never rejects, whatever the
    options: it calls [fetch] once, with the options as given, and every
    fault comes back in the error slot, as an error object next to
    [null]: the abort error of a signal that was aborted beforehand, the
    error of the network, the error of a body that cannot be read, the
    error made for a status outside the success range.  Only a response
    in the success range, its body read, gives [null] and the data. *)
Theorem older_safeFetch_never_rejects T url options w :
  (forall err, fst (Older.safeFetch T url options w) <> Rejected err) /\
  (signal_aborted w (Req.signal options) = true ->
   fst (Older.safeFetch T url options w) = Fulfilled (JArr [AbortError; JNull])) /\
  (signal_aborted w (Req.signal options) = false ->
   forall err,
     failure_of (T (List.length (calls w)) url options) = Some err ->
     fst (Older.safeFetch T url options w) = Fulfilled (JArr [err; JNull])) /\
  (signal_aborted w (Req.signal options) = false ->
   forall response data,
     T (List.length (calls w)) url options = Responds response ->
     ok response = true -> read_body response = Normal data ->
     fst (Older.safeFetch T url options w) = Fulfilled (JArr [JNull; data])) /\
  (forall v,
      fst (Older.safeFetch T url options w) = Fulfilled v ->
      (exists name message props, v = JArr [JError name message props; JNull]) \/
      (exists response data,
          T (List.length (calls w)) url options = Responds response /\
          ok response = true /\ read_body response = Normal data /\
          v = JArr [JNull; data])) /\
  exists c,
    calls (snd (Older.safeFetch T url options w)) = (calls w ++ [c])%list /\
    call_opts c = options /\ call_url c = url.
Proof.
  unfold Older.safeFetch.
  destruct (fetch T url options w) as [r w1] eqn:Ef.
  destruct (fetch_step _ _ _ _ _ _ Ef) as (o & Hc & _ & _ & Hab & _ & _ & _ & Hresp & Herr).
  assert (exists c, calls w1 = (calls w ++ [c])%list /\ call_opts c = options /\ call_url c = url)
    as Hcall.
  { eexists. split; [exact Hc|]. split; reflexivity. }
  assert (signal_aborted w (Req.signal options) = false ->
          r = match T (List.length (calls w)) url options with
              | Responds response => Fulfilled response
              | Fails message => Rejected (JSON.TypeError message)
              | Stalls => r
              end) as Hlive.
  { intros Ha. unfold fetch in Ef. rewrite Ha in Ef.
    destruct (T (List.length (calls w)) url options); [| |reflexivity];
      now injection Ef as <- _. }
  split.
  { destruct r as [response|err|]; cbn [fst]; [|discriminate|discriminate].
    destruct (read_body response); [destruct (negb (ok response))|]; discriminate. }
  split.
  { intros Ha. destruct (Hab Ha) as (_ & _ & ->). reflexivity. }
  split.
  { intros Ha err Hf. specialize (Hlive Ha).
    destruct (T (List.length (calls w)) url options) as [response|message|];
      cbn [failure_of] in Hf; [| |discriminate]; subst r; cbn [fst].
    - destruct (read_body response) as [data|e].
      + destruct (ok response); [discriminate|]. now injection Hf as <-.
      + now injection Hf as <-.
    - now injection Hf as <-. }
  split.
  { intros Ha response data HT Hok Hb. specialize (Hlive Ha). rewrite HT in Hlive.
    subst r. cbn [fst]. now rewrite Hb, Hok. }
  split; [|destruct r as [response|err|]; cbn [snd];
           [destruct (read_body response); [destruct (negb (ok response))|]|..];
           exact Hcall].
  intros v. destruct r as [response|err|]; cbn [fst]; [| |discriminate].
  - pose proof (Hresp response eq_refl) as HT.
    destruct (read_body response) as [data|e] eqn:Eb.
    + destruct (ok response) eqn:Eok; cbn [negb]; intros [= <-].
      * right. eauto 6.
      * left. unfold http_error. eauto.
    + intros [= <-]. left.
      destruct (read_body_throws _ _ Eb) as (name & message & props & ->). eauto.
  - intros [= <-]. left. destruct (Herr err eq_refl) as (name & message & props & ->). eauto.
Qed.

(** X17.  Left at its default [retries] and [timeout], [safeFetch] of
    utils.js is the first version run on the options it has built (the
    [Accept] default, the serialised body, its own abort signal): same
    outcome, same calls. *)
Theorem safeFetch_default_is_first_version T url options flag w opts :
  build_opts options (List.length (signals w)) (default true flag) = Normal opts ->
  safeFetch T url options {| autoJSON := flag; retries := None; timeout := None |} w
  = Older.safeFetch T url opts (prepared_world 0%Z w).
Proof.
  intros Hb. rewrite safeFetch_unfold. cbn [autoJSON retries timeout default].
  rewrite Hb, safeFetch_loop_turn. cbn [Z.leb Z.compare].
  unfold try_block, Older.safeFetch, prepared_timer. cbn [Z.eqb negb].
  destruct (fetch T url opts (prepared_world 0%Z w)) as [[response|err|] w1];
    try reflexivity.
  unfold clearTimeout.
  destruct (read_body response); [destruct (negb (ok response))|]; reflexivity.
Qed.

Lemma safeFetch_default_is_first_version_witness :
  safeFetch unreachable "/api/items" no_options
            {| autoJSON := None; retries := None; timeout := None |} world_initial
  = Older.safeFetch unreachable "/api/items"
      {| Req.method := None; Req.headers := Some [("Accept", JStr "application/json")];
         Req.body := JUndefined; Req.signal := Some 0 |}
      (prepared_world 0%Z world_initial).
Proof.
  apply (safeFetch_default_is_first_version unreachable "/api/items" no_options None
           world_initial). reflexivity.
Defined.

(* ================================================================== *)
(** ** [throttle] *)
(* ================================================================== *)

(** The delay of a timer is not negative, and not less than what was
    asked for when that fits in 31 bits. *)
Lemma delay_of_bounds (ms : Z) :
  (0 <= delay_of ms)%Z /\ ((ms <= 2147483647)%Z -> (ms <= delay_of ms)%Z).
Proof.
  unfold delay_of.
  destruct (Z.leb_spec 0 ms); destruct (Z.leb_spec ms 2147483647); cbn [andb]; lia.
Qed.

Section ThrottleFacts.

Context {A R : Type}.
Variable func : Z -> A -> completion R.
Variable limit : Z.

Lemma throttle_invariant_init (now : Z) :
  Throttle.invariant func limit (Throttle.init now).
Proof. repeat split. Qed.

Lemma throttle_invariant_step (e : event A) (s s' : Throttle.state) (c : completion unit) :
  Throttle.invariant func limit s ->
  Throttle.step func limit e s = Some (c, s') ->
  Throttle.invariant func limit s'.
Proof.
  unfold Throttle.invariant.
  intros [Hsp Hst]. destruct s as [flag timers log now0].
  cbn [Throttle.applied Throttle.inThrottle Throttle.pending Throttle.clock] in *.
  destruct e as [now args|now k]; cbn [Throttle.step Throttle.clock].
  - destruct (Z.leb_spec now0 now) as [Hle|]; [|discriminate].
    unfold Throttle.throttled, Throttle.at_time.
    cbn [Throttle.applied Throttle.inThrottle Throttle.pending Throttle.clock].
    destruct flag; cbn [negb].
    + intros [= <- <-]. split; [exact Hsp|].
      cbn [Throttle.applied Throttle.inThrottle Throttle.pending Throttle.clock].
      destruct log as [|[t a] log]; [exact Hst|].
      destruct Hst as [Ht Hp]. split; [lia | exact Hp].
    + assert (Throttle.spaced func limit ((now, args) :: log)) as Hsp'.
      { cbn [Throttle.spaced]. split; [|exact Hsp].
        destruct log as [|[t a] log]; [exact I|].
        destruct Hst as [Ht [_ Hgap]]. intros Hok. specialize (Hgap Hok). lia. }
      pose proof (delay_of_bounds limit) as [Hd0 _].
      assert (timers = []) as ->.
      { destruct log as [|[t a] log]; apply Hst. }
      destruct (func now args) as [r|err] eqn:Ef; intros [= <- <-];
        (split; [exact Hsp'|]);
        cbn [Throttle.applied Throttle.inThrottle Throttle.pending Throttle.clock app].
      * split; [lia|]. split; [reflexivity | eauto].
      * split; [lia|]. split; [reflexivity|]. intros [r Hr]. congruence.
  - cbn [Throttle.pending].
    destruct (nth_error timers k) as [due|] eqn:Ek; [|discriminate].
    destruct (Z.leb_spec now0 now) as [Hle|]; cbn [andb]; [|discriminate].
    destruct (Z.leb_spec due now) as [Hdue|]; [|discriminate].
    intros [= <- <-]. unfold Throttle.reopen, Throttle.at_time.
    cbn [Throttle.applied Throttle.inThrottle Throttle.pending Throttle.clock].
    split; [exact Hsp|].
    destruct log as [|[t a] log].
    + destruct Hst as [_ ->]. destruct k; discriminate.
    + destruct Hst as [Ht Hp]. destruct flag.
      * destruct Hp as [-> Hok]. destruct k as [|[|k]]; try discriminate.
        injection Ek as <-. split; [lia|]. split; [reflexivity|].
        intros _. lia.
      * destruct Hp as [-> _]. destruct k; discriminate.
Qed.

Lemma throttle_invariant_run (events : list (event A)) (s s' : Throttle.state) :
  Throttle.invariant func limit s ->
  Throttle.run func limit events s = Some s' ->
  Throttle.invariant func limit s'.
Proof.
  revert s. induction events as [|e events IH]; intros s Hinv; cbn [Throttle.run].
  - now intros [= <-].
  - destruct (Throttle.step func limit e s) as [[c s1]|] eqn:Es; [|discriminate].
    apply IH. eapply throttle_invariant_step; eassumption.
Qed.

Lemma throttle_spaced_inside (pre post : list (Z * A)) (t1 t2 : Z) (a1 a2 : A) :
  Throttle.spaced func limit (pre ++ (t2, a2) :: (t1, a1) :: post) ->
  (exists r, func t1 a1 = Normal r) -> (t1 + delay_of limit <= t2)%Z.
Proof.
  induction pre as [|[t a] pre IH]; cbn [app Throttle.spaced].
  - intros [H _]. exact H.
  - intros [_ H]. exact (IH H).
Qed.

End ThrottleFacts.

(** X18.  A throttled function is applied at most once every [limit]
    milliseconds, for a [limit] that [setTimeout] honours: of two
    successive applications, the later comes at least the delay of the
    timer after the earlier, that is at least [limit] after it when
    [limit] is at most 2^31 - 1, provided the earlier returned.  (An
    application that threw leaves the throttle open; a larger [limit]
    does not throttle.) *)
Theorem throttle_applications_spaced {A R : Type}
    (func : Z -> A -> completion R) (limit start : Z)
    (events : list (event A)) (s : Throttle.state)
    (pre post : list (Z * A)) (t1 t2 : Z) (a1 a2 : A) :
  Throttle.run func limit events (Throttle.init start) = Some s ->
  Throttle.applied s = (pre ++ (t2, a2) :: (t1, a1) :: post)%list ->
  (exists r, func t1 a1 = Normal r) ->
  (t1 + delay_of limit <= t2)%Z /\
  ((limit <= 2147483647)%Z -> (t1 + limit <= t2)%Z).
Proof.
  intros Hrun Hlog Hok.
  destruct (throttle_invariant_run func limit events _ _
              (throttle_invariant_init func limit start) Hrun) as [Hsp _].
  rewrite Hlog in Hsp.
  pose proof (throttle_spaced_inside func limit _ _ _ _ _ _ Hsp Hok) as Hgap.
  split; [exact Hgap|]. intros Hfit.
  pose proof (delay_of_bounds limit) as [_ Hd]. specialize (Hd Hfit). lia.
Qed.

Lemma throttle_applications_spaced_witness :
  (0 + delay_of 500 <= 700)%Z /\ ((500 <= 2147483647)%Z -> (0 + 500 <= 700)%Z).
Proof.
  apply (throttle_applications_spaced
           (fun (_ : Z) (x : string) => Normal x) 500%Z 0%Z
           [Invoke 0%Z "a"; Invoke 100%Z "b"; TimerFires 600%Z 0; Invoke 700%Z "c"]
           {| Throttle.inThrottle := true; Throttle.pending := [1200%Z];
              Throttle.applied := [(700%Z, "c"); (0%Z, "a")];
              Throttle.clock := 700%Z |}
           [] [] 0%Z 700%Z "a" "c").
  - reflexivity.
  - reflexivity.
  - exists "a". reflexivity.
Defined.

(** X19.  The throttle cannot stay shut: [inThrottle] is set exactly
    while one timer is pending, the one that resets it, which may fire
    once the delay of the timer has passed since the last application
    ([limit] when it lies between 0 and 2^31 - 1); otherwise no timer is
    pending at all. *)
Theorem throttle_one_timer {A R : Type}
    (func : Z -> A -> completion R) (limit start : Z)
    (events : list (event A)) (s : Throttle.state) :
  Throttle.run func limit events (Throttle.init start) = Some s ->
  if Throttle.inThrottle s
  then exists t a older due,
         Throttle.applied s = (t, a) :: older /\
         Throttle.pending s = [due] /\
         due = (t + delay_of limit)%Z /\
         ((0 <= limit <= 2147483647)%Z -> due = (t + limit)%Z)
  else Throttle.pending s = [].
Proof.
  intros Hrun.
  destruct (throttle_invariant_run func limit events _ _
              (throttle_invariant_init func limit start) Hrun) as [_ Hst].
  destruct (Throttle.applied s) as [|[t a] older].
  - destruct Hst as [-> ->]. reflexivity.
  - destruct Hst as [_ Hp]. destruct (Throttle.inThrottle s).
    + exists t, a, older, (t + delay_of limit)%Z.
      split; [reflexivity|]. split; [apply Hp|]. split; [reflexivity|].
      intros [Hlo Hhi]. unfold delay_of.
      destruct (Z.leb_spec 0 limit); destruct (Z.leb_spec limit 2147483647);
        cbn [andb]; lia.
    + apply Hp.
Qed.

Lemma throttle_one_timer_witness :
  exists t a older due,
    [(100%Z, "b")] = (t, a) :: older /\ [600%Z] = [due] /\
    due = (t + delay_of 500)%Z /\
    ((0 <= 500 <= 2147483647)%Z -> due = (t + 500)%Z).
Proof.
  exact (throttle_one_timer
           (fun (_ : Z) (x : string) => Normal x) 500%Z 0%Z
           [Invoke 100%Z "b"; Invoke 300%Z "c"]
           {| Throttle.inThrottle := true; Throttle.pending := [600%Z];
              Throttle.applied := [(100%Z, "b")]; Throttle.clock := 300%Z |}
           eq_refl).
Defined.

(* ================================================================== *)
(** ** [debounce] *)
(* ================================================================== *)

Lemma calls_of_app {A : Type} (l1 l2 : list (event A)) (acc : list (Z * A)) :
  calls_of (l1 ++ l2) acc = calls_of l2 (calls_of l1 acc).
Proof.
  revert acc. induction l1 as [|[now a|now k] l1 IH]; intros acc; cbn [app calls_of];
    [reflexivity | apply IH | apply IH].
Qed.

Section DebounceFacts.

Context {A R : Type}.
Variable func : Z -> A -> completion R.
Variable wait : Z.
Variable opts : Debounce.options.

Ltac fields :=
  unfold Debounce.at_time in *;
  cbn [Debounce.timeoutId Debounce.lastCallTime Debounce.result Debounce.pending
       Debounce.next_id Debounce.applied Debounce.clock
       Debounce.id Debounce.due Debounce.args] in *.

Lemma debounce_invariant_init (now : Z) :
  Debounce.invariant func wait opts [] (Debounce.init now).
Proof.
  unfold Debounce.invariant. split; [reflexivity|].
  destruct (Debounce.immediate opts); [repeat split | now left].
Qed.

Lemma debounce_clearTimeout_fields (t : Debounce.timer_id) (s : Debounce.state (A := A) (R := R)) :
  Debounce.result (Debounce.clearTimeout t s) = Debounce.result s /\
  Debounce.applied (Debounce.clearTimeout t s) = Debounce.applied s /\
  Debounce.timeoutId (Debounce.clearTimeout t s) = Debounce.timeoutId s /\
  Debounce.next_id (Debounce.clearTimeout t s) = Debounce.next_id s /\
  Debounce.clock (Debounce.clearTimeout t s) = Debounce.clock s.
Proof. destruct t; repeat split. Qed.

(** When the identifier is that of the one pending timer, or no timer is
    pending, [clearTimeout(timeoutId)] leaves none. *)
Lemma debounce_clearTimeout_pending (calls : list (Z * A)) (s : Debounce.state) :
  Debounce.invariant func wait opts calls s ->
  Debounce.pending (Debounce.clearTimeout (Debounce.timeoutId s) s) = [].
Proof.
  intros [_ Hmode]. destruct (Debounce.immediate opts).
  - destruct Hmode as (-> & Hp & _). exact Hp.
  - destruct Hmode as [Hp|(tm & tc & earlier & Hp & Hid & _)].
    + destruct (Debounce.timeoutId s); cbn [Debounce.clearTimeout Debounce.pending];
        rewrite ?Hp; reflexivity.
    + rewrite Hid. cbn [Debounce.clearTimeout Debounce.pending]. rewrite Hp.
      cbn [filter]. rewrite Nat.eqb_refl. reflexivity.
Qed.

Lemma debounce_invariant_step (calls : list (Z * A)) (e : event A)
    (s s' : Debounce.state) (c : completion (option R)) :
  Debounce.invariant func wait opts calls s ->
  Debounce.step func wait opts e s = Some (c, s') ->
  Debounce.invariant func wait opts (calls_of [e] calls) s'.
Proof.
  intros Hinv.
  destruct e as [now a|now k]; cbn [Debounce.step calls_of].
  - destruct (Debounce.clock s <=? now)%Z; [|discriminate].
    assert (Debounce.invariant func wait opts calls (Debounce.at_time now s)) as Hinv'
      by exact Hinv.
    pose proof (debounce_clearTimeout_pending _ _ Hinv') as Hclr.
    destruct (debounce_clearTimeout_fields
                (Debounce.timeoutId (Debounce.at_time now s)) (Debounce.at_time now s))
      as (Hr & Ha & Ht & Hn & Hc).
    destruct Hinv' as [Hres Hmode].
    unfold Debounce.debounced, Debounce.invariant.
    destruct (Debounce.immediate opts) eqn:Eimm; cbn [andb].
    + destruct Hmode as (Hid & Hp & Hlog). rewrite Hid. cbn [Debounce.falsy].
      unfold Debounce.apply_func. fields.
      rewrite Hid in *. cbn [Debounce.clearTimeout] in *. fields.
      destruct (func now a) as [r|err] eqn:Ef; intros [= <- <-]; fields;
        cbn [Debounce.latest_result]; rewrite Ef.
      * repeat split; [exact Hp | now rewrite Hlog].
      * split; [exact Hres|]. repeat split; [exact Hp | now rewrite Hlog].
    + unfold Debounce.arm. intros [= <- <-]. fields.
      rewrite Hr, Ha, Hclr, Hn. split; [exact Hres|]. right.
      eexists _, now, calls. cbn [app]. repeat split. fields. lia.
  - destruct (nth_error (Debounce.pending s) k) as [tm|] eqn:Ek; [|discriminate].
    destruct (Z.leb_spec (Debounce.clock s) now) as [Hclk|]; cbn [andb]; [|discriminate].
    destruct (Z.leb_spec (Debounce.due tm) now) as [Hdue|]; [|discriminate].
    destruct Hinv as [Hres Hmode]. unfold Debounce.invariant.
    destruct (Debounce.immediate opts) eqn:Eimm.
    { destruct Hmode as (_ & Hp & _). rewrite Hp in Ek. destruct k; discriminate. }
    destruct Hmode as [Hp|(tm' & tc & earlier & Hp & Hid & Hcalls & Hlast & Hgap)].
    { rewrite Hp in Ek. destruct k; discriminate. }
    rewrite Hp in Ek. destruct k as [|[|k]]; try discriminate. injection Ek as ->.
    unfold Debounce.later, Debounce.at_time. fields. rewrite Hp. cbn [without_nth].
    destruct (Debounce.within_maxWait opts now _) eqn:Ew.
    + unfold Debounce.arm. fields. intros [= <- <-]. fields. split; [exact Hres|].
      right. eexists _, tc, earlier. cbn [app]. repeat split; fields; try assumption.
      pose proof (delay_of_bounds wait) as [Hd0 _]. lia.
    + rewrite Eimm. cbn [negb]. unfold Debounce.apply_func. fields.
      destruct (func now (Debounce.args tm)) as [r|err] eqn:Ef; cbn [bind];
        intros [= <- <-]; fields; cbn [Debounce.latest_result]; rewrite Ef.
      * split; [reflexivity | now left].
      * split; [exact Hres | now left].
Qed.

Lemma debounce_invariant_run (events : list (event A)) (calls : list (Z * A))
    (s s' : Debounce.state) :
  Debounce.invariant func wait opts calls s ->
  Debounce.run func wait opts events s = Some s' ->
  Debounce.invariant func wait opts (calls_of events calls) s'.
Proof.
  revert calls s. induction events as [|e events IH]; intros calls s Hinv;
    cbn [Debounce.run].
  - now intros [= <-].
  - destruct (Debounce.step func wait opts e s) as [[c s1]|] eqn:Es; [|discriminate].
    intros Hrun. change (e :: events) with ([e] ++ events)%list.
    rewrite calls_of_app. eapply IH; [|exact Hrun].
    eapply debounce_invariant_step; eassumption.
Qed.

End DebounceFacts.

(** X20.  With [immediate] set, [debounce] does not debounce: no timer
    is ever set ([timeoutId] is assigned only on the other paths), so
    every call applies [func] to its own arguments at once and returns
    what [func] returns (or throws what it throws). *)
Theorem debounce_immediate_applies_every_call {A R : Type}
    (func : Z -> A -> completion R) (wait start : Z) (opts : Debounce.options)
    (events : list (event A)) (s : Debounce.state) :
  Debounce.immediate opts = true ->
  Debounce.run func wait opts events (Debounce.init start) = Some s ->
  Debounce.applied s = calls_of events [] /\
  Debounce.pending s = [] /\
  forall now a out s',
    Debounce.step func wait opts (Invoke now a) s = Some (out, s') ->
    out = (r <- func now a ;; Normal (Some r)) /\
    Debounce.applied s' = (now, a) :: Debounce.applied s /\
    Debounce.pending s' = [].
Proof.
  intros Himm Hrun.
  pose proof (debounce_invariant_run func wait opts events [] _ _
                (debounce_invariant_init func wait opts start) Hrun) as Hinv.
  destruct Hinv as [_ Hmode]. rewrite Himm in Hmode.
  destruct Hmode as (Hid & Hp & Hlog). split; [exact Hlog|]. split; [exact Hp|].
  intros now a out s'. cbn [Debounce.step].
  destruct (Debounce.clock s <=? now)%Z; [|discriminate].
  unfold Debounce.debounced, Debounce.at_time, Debounce.apply_func.
  cbn [Debounce.timeoutId Debounce.lastCallTime Debounce.result Debounce.pending
       Debounce.next_id Debounce.applied Debounce.clock].
  rewrite Himm, Hid. cbn [andb Debounce.falsy Debounce.clearTimeout].
  cbn [Debounce.timeoutId Debounce.lastCallTime Debounce.result Debounce.pending
       Debounce.next_id Debounce.applied Debounce.clock].
  destruct (func now a) as [r|err]; intros [= <- <-]; cbn [bind];
    cbn [Debounce.timeoutId Debounce.lastCallTime Debounce.result Debounce.pending
         Debounce.next_id Debounce.applied Debounce.clock]; auto.
Qed.

Lemma debounce_immediate_applies_every_call_witness :
  [(20%Z, "b"); (10%Z, "a")] = calls_of [Invoke 10%Z "a"; Invoke 20%Z "b"] [] /\
  @nil (Debounce.timer (A := string)) = [] /\
  forall now a out s',
    Debounce.step (fun (_ : Z) (x : string) => Normal x) 300%Z
      {| Debounce.immediate := true; Debounce.maxWait := None |} (Invoke now a)
      {| Debounce.timeoutId := Debounce.Undefined;
         Debounce.lastCallTime := Some 20%Z; Debounce.result := Some "b";
         Debounce.pending := []; Debounce.next_id := 1;
         Debounce.applied := [(20%Z, "b"); (10%Z, "a")];
         Debounce.clock := 20%Z |} = Some (out, s') ->
    out = (r <- Normal a ;; Normal (Some r)) /\
    Debounce.applied s' = [(now, a); (20%Z, "b"); (10%Z, "a")] /\
    Debounce.pending s' = [].
Proof.
  exact (debounce_immediate_applies_every_call
           (fun (_ : Z) (x : string) => Normal x) 300%Z 0%Z
           {| Debounce.immediate := true; Debounce.maxWait := None |}
           [Invoke 10%Z "a"; Invoke 20%Z "b"] _ eq_refl eq_refl).
Defined.

(** X21.  Without [immediate], a call never applies [func]: it returns
    the result of the latest application that returned ([undefined]
    when there is none yet), and leaves exactly one timer pending, its
    own, whatever timer was pending before; that timer may fire once its
    delay has passed, [wait] when it lies between 0 and 2^31 - 1. *)
Theorem debounce_call_only_rearms {A R : Type}
    (func : Z -> A -> completion R) (wait start : Z) (opts : Debounce.options)
    (events : list (event A)) (s s' : Debounce.state)
    (now : Z) (a : A) (out : completion (option R)) :
  Debounce.immediate opts = false ->
  Debounce.run func wait opts events (Debounce.init start) = Some s ->
  Debounce.step func wait opts (Invoke now a) s = Some (out, s') ->
  out = Normal (Debounce.latest_result func (Debounce.applied s)) /\
  Debounce.applied s' = Debounce.applied s /\
  exists n,
    Debounce.pending s'
    = [{| Debounce.id := n; Debounce.due := (now + delay_of wait)%Z;
          Debounce.args := a |}].
Proof.
  intros Himm Hrun.
  pose proof (debounce_invariant_run func wait opts events [] _ _
                (debounce_invariant_init func wait opts start) Hrun) as Hinv.
  cbn [Debounce.step].
  destruct (Debounce.clock s <=? now)%Z; [|discriminate].
  assert (Debounce.invariant func wait opts (calls_of events []) (Debounce.at_time now s))
    as Hinv' by exact Hinv.
  pose proof (debounce_clearTimeout_pending _ _ _ _ _ Hinv') as Hclr.
  destruct (debounce_clearTimeout_fields
              (Debounce.timeoutId (Debounce.at_time now s)) (Debounce.at_time now s))
    as (Hr & Ha & _ & Hn & _).
  change (Debounce.timeoutId (Debounce.at_time now s)) with (Debounce.timeoutId s)
    in Hclr, Hr, Ha, Hn.
  destruct Hinv as [Hres _].
  unfold Debounce.debounced. rewrite Himm. cbn [andb]. unfold Debounce.arm.
  intros [= <- <-].
  cbn [Debounce.timeoutId Debounce.lastCallTime Debounce.result Debounce.pending
       Debounce.next_id Debounce.applied Debounce.clock].
  rewrite Hr, Ha, Hclr, Hn. unfold Debounce.at_time.
  cbn [Debounce.result Debounce.applied Debounce.next_id app].
  rewrite Hres. repeat split. eexists. reflexivity.
Qed.

Lemma debounce_call_only_rearms_witness :
  @Normal (option string) None = Normal None /\
  @nil (Z * string) = [] /\
  exists n,
    [{| Debounce.id := 2; Debounce.due := 320%Z; Debounce.args := "b" |}]
    = [{| Debounce.id := n; Debounce.due := (20 + delay_of 300)%Z;
          Debounce.args := "b" |}].
Proof.
  exact (debounce_call_only_rearms
           (fun (_ : Z) (x : string) => Normal x) 300%Z 0%Z
           {| Debounce.immediate := false; Debounce.maxWait := None |}
           [Invoke 10%Z "a"] _ _ 20%Z "b" _ eq_refl eq_refl eq_refl).
Defined.

(** X22.  Without [immediate], [func] is applied only when a timer
    fires, and then to the arguments of the latest call, no earlier than
    the delay of the timer after that call: [wait] or more after it when
    [wait] is at most 2^31 - 1.  A non-zero [maxWait] does not bound the
    delay: a timer that fires less than [maxWait] after the latest call
    is set again, so the application comes no earlier than [maxWait]
    after that call. *)
Theorem debounce_timer_applies_latest_call {A R : Type}
    (func : Z -> A -> completion R) (wait start : Z) (opts : Debounce.options)
    (events : list (event A)) (s s' : Debounce.state)
    (now : Z) (k : nat) (out : completion (option R)) :
  Debounce.immediate opts = false ->
  Debounce.run func wait opts events (Debounce.init start) = Some s ->
  Debounce.step func wait opts (TimerFires now k) s = Some (out, s') ->
  exists tc a earlier,
    calls_of events [] = (tc, a) :: earlier /\
    (tc + delay_of wait <= now)%Z /\
    ((wait <= 2147483647)%Z -> (tc + wait <= now)%Z) /\
    ((Debounce.applied s' = (now, a) :: Debounce.applied s /\
      Debounce.pending s' = [] /\
      forall m, Debounce.maxWait opts = Some m -> m = 0%Z \/ (tc + m <= now)%Z)
     \/
     (Debounce.applied s' = Debounce.applied s /\
      (exists n,
          Debounce.pending s'
          = [{| Debounce.id := n; Debounce.due := (now + delay_of wait)%Z;
                Debounce.args := a |}]) /\
      exists m, Debounce.maxWait opts = Some m /\ m <> 0%Z /\ (now < tc + m)%Z)).
Proof.
  intros Himm Hrun.
  pose proof (debounce_invariant_run func wait opts events [] _ _
                (debounce_invariant_init func wait opts start) Hrun) as Hinv.
  destruct Hinv as [_ Hmode]. rewrite Himm in Hmode.
  cbn [Debounce.step].
  destruct (nth_error (Debounce.pending s) k) as [tm|] eqn:Ek; [|discriminate].
  destruct (Z.leb_spec (Debounce.clock s) now) as [Hclk|]; cbn [andb]; [|discriminate].
  destruct (Z.leb_spec (Debounce.due tm) now) as [Hdue|]; [|discriminate].
  destruct Hmode as [Hp|(tm' & tc & earlier & Hp & Hid & Hcalls & Hlast & Hgap)].
  { rewrite Hp in Ek. destruct k; discriminate. }
  rewrite Hp in Ek. destruct k as [|[|k]]; try discriminate. injection Ek as ->.
  assert ((tc + delay_of wait <= now)%Z /\
          ((wait <= 2147483647)%Z -> (tc + wait <= now)%Z)) as Hquiet.
  { split; [lia|]. intros Hfit.
    pose proof (delay_of_bounds wait) as [_ Hd]. specialize (Hd Hfit). lia. }
  unfold Debounce.later, Debounce.at_time, Debounce.within_maxWait.
  cbn [Debounce.timeoutId Debounce.lastCallTime Debounce.result Debounce.pending
       Debounce.next_id Debounce.applied Debounce.clock].
  rewrite Hp, Hlast, Himm. cbn [without_nth negb].
  destruct (Debounce.maxWait opts) as [m|] eqn:Em.
  - destruct (Z.eqb_spec m 0) as [Hm|Hm]; cbn [negb andb].
    + unfold Debounce.apply_func.
      destruct (func now (Debounce.args tm)); cbn [bind]; intros [= <- <-];
        cbn [Debounce.pending Debounce.applied];
        exists tc, (Debounce.args tm), earlier; (split; [exact Hcalls|]);
        (split; [apply Hquiet|]); (split; [apply Hquiet|]); left; repeat split;
        intros m' [= <-]; now left.
    + destruct (Z.ltb_spec (now - tc) m) as [Hlt|Hge].
      * unfold Debounce.arm. intros [= <- <-].
        cbn [Debounce.pending Debounce.applied Debounce.next_id app].
        exists tc, (Debounce.args tm), earlier. split; [exact Hcalls|].
        split; [apply Hquiet|]. split; [apply Hquiet|]. right.
        split; [reflexivity|]. split; [eexists; reflexivity|].
        exists m. repeat split; [exact Hm | lia].
      * unfold Debounce.apply_func.
        destruct (func now (Debounce.args tm)); cbn [bind]; intros [= <- <-];
          cbn [Debounce.pending Debounce.applied];
          exists tc, (Debounce.args tm), earlier; (split; [exact Hcalls|]);
          (split; [apply Hquiet|]); (split; [apply Hquiet|]); left; repeat split;
          intros m' [= <-]; right; lia.
  - unfold Debounce.apply_func.
    destruct (func now (Debounce.args tm)); cbn [bind]; intros [= <- <-];
      cbn [Debounce.pending Debounce.applied];
      exists tc, (Debounce.args tm), earlier; (split; [exact Hcalls|]);
      (split; [apply Hquiet|]); (split; [apply Hquiet|]); left; repeat split; discriminate.
Qed.

Lemma debounce_timer_applies_latest_call_witness :
  exists tc a earlier,
    [(20%Z, "b"); (10%Z, "a")] = (tc, a) :: earlier /\
    (tc + delay_of 300 <= 350)%Z /\
    ((300 <= 2147483647)%Z -> (tc + 300 <= 350)%Z) /\
    (([(350%Z, "b")] = [(350%Z, a)] /\
      @nil (Debounce.timer (A := string)) = [] /\
      forall m, @None Z = Some m -> m = 0%Z \/ (tc + m <= 350)%Z)
     \/
     ([(350%Z, "b")] = @nil (Z * string) /\
      (exists n,
          @nil (Debounce.timer (A := string))
          = [{| Debounce.id := n; Debounce.due := (350 + delay_of 300)%Z;
                Debounce.args := a |}]) /\
      exists m, @None Z = Some m /\ m <> 0%Z /\ (350 < tc + m)%Z)).
Proof.
  exact (debounce_timer_applies_latest_call
           (fun (_ : Z) (x : string) => Normal x) 300%Z 0%Z
           {| Debounce.immediate := false; Debounce.maxWait := None |}
           [Invoke 10%Z "a"; Invoke 20%Z "b"] _ _ 350%Z 0 _ eq_refl eq_refl eq_refl).
Defined.

(* ================================================================== *)
(** ** [setElementLocked] *)
(* ================================================================== *)

Lemma filter_assign_new {A : Type} (k : string) (v : A) (l : list (string * A)) :
  Js.lookup k l = None ->
  filter (fun kv => negb (String.eqb (fst kv) k)) (Js.assign k v l) = l.
Proof.
  induction l as [|[k0 v0] l IH]; cbn [Js.lookup Js.assign filter fst].
  - intros _. now rewrite String.eqb_refl.
  - destruct (String.eqb k0 k) eqn:E; [discriminate|]. intros Hl.
    cbn [filter fst]. rewrite E. cbn [negb]. now rewrite IH.
Qed.

Lemma filter_assign_other {A : Type} (k d : string) (v : A) (l : list (string * A)) :
  String.eqb k d = false ->
  filter (fun kv => negb (String.eqb (fst kv) d)) (Js.assign k v l)
  = Js.assign k v (filter (fun kv => negb (String.eqb (fst kv) d)) l).
Proof.
  intros Hkd. induction l as [|[k0 v0] l IH]; cbn [Js.assign filter fst].
  - now rewrite Hkd.
  - destruct (String.eqb_spec k0 k) as [->|Hne]; cbn [filter fst].
    + rewrite Hkd. cbn [negb Js.assign]. now rewrite String.eqb_refl.
    + destruct (String.eqb k0 d); cbn [negb Js.assign]; [exact IH|].
      destruct (String.eqb_spec k0 k); [contradiction|]. now rewrite IH.
Qed.

Lemma assign_twice {A : Type} (k : string) (v1 v2 : A) (l : list (string * A)) :
  Js.assign k v2 (Js.assign k v1 l) = Js.assign k v2 l.
Proof.
  induction l as [|[k0 v0] l IH]; cbn [Js.assign].
  - now rewrite String.eqb_refl.
  - destruct (String.eqb k0 k) eqn:E; cbn [Js.assign]; rewrite E; [reflexivity|].
    now rewrite IH.
Qed.

Lemma assign_same {A : Type} (k : string) (v : A) (l : list (string * A)) :
  Js.lookup k l = Some v -> Js.assign k v l = l.
Proof.
  induction l as [|[k0 v0] l IH]; cbn [Js.lookup Js.assign]; [discriminate|].
  destruct (String.eqb k0 k); [now intros [= ->] | intros H; now rewrite IH].
Qed.

Lemma lookup_filter_other {A : Type} (k d : string) (l : list (string * A)) :
  String.eqb k d = false ->
  Js.lookup k (filter (fun kv => negb (String.eqb (fst kv) d)) l) = Js.lookup k l.
Proof.
  intros Hkd. induction l as [|[k0 v0] l IH]; [reflexivity|].
  cbn [filter fst Js.lookup].
  destruct (String.eqb_spec k0 d) as [->|Hne]; cbn [negb Js.lookup].
  - rewrite String.eqb_sym, Hkd. exact IH.
  - now rewrite IH.
Qed.

Lemma filter_added_token (token : string) (l : list string) :
  existsb (String.eqb token) l = false ->
  filter (fun c => negb (String.eqb c token)) (l ++ [token]) = l.
Proof.
  induction l as [|c l IH]; cbn [existsb app filter].
  - intros _. now rewrite String.eqb_refl.
  - intros H. apply orb_false_elim in H as [Hc Hl].
    rewrite String.eqb_sym, Hc. cbn [negb]. now rewrite IH.
Qed.

(** *** Tokens of a [class] attribute *)

Lemma append_empty (s : string) : s ++ EmptyString = s.
Proof. induction s as [|c s IH]; cbn; [reflexivity | now rewrite IH]. Qed.

Lemma split_words_app (t r : string) :
  Headers.all_chars (fun c => negb (Dom.is_ascii_whitespace c)) t = true ->
  Dom.split_words (t ++ r) =
  (t ++ fst (Dom.split_words r), snd (Dom.split_words r)).
Proof.
  induction t as [|c t IH]; cbn [append Headers.all_chars].
  - intros _. now destruct (Dom.split_words r).
  - intros H. apply andb_prop in H as [Hc Ht]. cbn [Dom.split_words].
    rewrite (IH Ht). apply negb_true_iff in Hc. now rewrite Hc.
Qed.

Lemma words_token_first (t rest : string) :
  Dom.is_token t = true ->
  Dom.words (t ++ String " " rest) = t :: Dom.words rest.
Proof.
  unfold Dom.is_token. intros H. apply andb_prop in H as [Hne Hws].
  unfold Dom.words. rewrite (split_words_app _ _ Hws).
  cbn [Dom.split_words]. change (Dom.is_ascii_whitespace " ") with true.
  destruct (Dom.split_words rest) as [w ws]. cbn [fst snd].
  rewrite append_empty, Hne. reflexivity.
Qed.

Lemma words_token (t : string) : Dom.is_token t = true -> Dom.words t = [t].
Proof.
  unfold Dom.is_token. intros H. apply andb_prop in H as [Hne Hws].
  unfold Dom.words. rewrite <- (append_empty t) at 1.
  rewrite (split_words_app _ _ Hws). cbn [Dom.split_words fst snd].
  rewrite append_empty, Hne. reflexivity.
Qed.

(** Splitting what was joined gives the tokens back. *)
Lemma words_serialize (tokens : list string) :
  forallb Dom.is_token tokens = true -> Dom.words (Dom.serialize tokens) = tokens.
Proof.
  unfold Dom.serialize.
  induction tokens as [|t tokens IH]; [reflexivity|].
  cbn [forallb]. intros H. apply andb_prop in H as [Ht Hrest].
  destruct tokens as [|t' tokens].
  - cbn [String.concat]. now apply words_token.
  - change (String.concat " " (t :: t' :: tokens))
      with (t ++ String " " (String.concat " " (t' :: tokens))).
    rewrite (words_token_first _ _ Ht). now rewrite (IH Hrest).
Qed.

Lemma split_words_tokens (s : string) :
  Headers.all_chars (fun c => negb (Dom.is_ascii_whitespace c))
                    (fst (Dom.split_words s)) = true /\
  forallb Dom.is_token (snd (Dom.split_words s)) = true.
Proof.
  induction s as [|c s [IHw IHo]]; [split; reflexivity|].
  cbn [Dom.split_words]. destruct (Dom.split_words s) as [w ws]. cbn [fst snd] in *.
  destruct (Dom.is_ascii_whitespace c) eqn:Ec; cbn [fst snd Headers.all_chars].
  - split; [reflexivity|]. destruct (Str.truthy w) eqn:Ew; [|exact IHo].
    cbn [forallb]. unfold Dom.is_token at 1. now rewrite Ew, IHw, IHo.
  - rewrite Ec, IHw. split; [reflexivity | exact IHo].
Qed.

Lemma words_tokens (s : string) : forallb Dom.is_token (Dom.words s) = true.
Proof.
  unfold Dom.words. pose proof (split_words_tokens s) as [Hw Ho].
  destruct (Dom.split_words s) as [w ws]. cbn [fst snd] in *.
  destruct (Str.truthy w) eqn:Ew; [|exact Ho].
  cbn [forallb]. unfold Dom.is_token at 1. now rewrite Ew, Hw, Ho.
Qed.

Lemma forallb_filter {A : Type} (p q : A -> bool) (l : list A) :
  forallb p l = true -> forallb p (filter q l) = true.
Proof.
  induction l as [|x l IH]; [reflexivity|]. cbn [forallb filter].
  intros H. apply andb_prop in H as [Hx Hl].
  destruct (q x); cbn [forallb]; [rewrite Hx|]; now apply IH.
Qed.

Lemma ordered_set_tokens (l : list string) :
  forallb Dom.is_token l = true -> forallb Dom.is_token (Dom.ordered_set l) = true.
Proof.
  induction l as [|x l IH]; [reflexivity|]. cbn [forallb Dom.ordered_set].
  intros H. apply andb_prop in H as [Hx Hl]. rewrite Hx. cbn [andb].
  apply forallb_filter. now apply IH.
Qed.

Lemma filter_absent (x : string) (l : list string) :
  existsb (String.eqb x) l = false ->
  filter (fun y => negb (String.eqb y x)) l = l.
Proof.
  induction l as [|y l IH]; [reflexivity|]. cbn [existsb filter].
  intros H. apply orb_false_elim in H as [Hy Hl].
  rewrite String.eqb_sym, Hy. cbn [negb]. now rewrite IH.
Qed.

Lemma existsb_filter_removed (x : string) (l : list string) :
  existsb (String.eqb x) (filter (fun y => negb (String.eqb y x)) l) = false.
Proof.
  induction l as [|y l IH]; [reflexivity|]. cbn [filter].
  destruct (String.eqb y x) eqn:E; cbn [negb existsb]; [exact IH|].
  now rewrite String.eqb_sym, E, IH.
Qed.

Lemma existsb_filter_other (x z : string) (l : list string) :
  existsb (String.eqb x) l = false ->
  existsb (String.eqb x) (filter (fun y => negb (String.eqb y z)) l) = false.
Proof.
  induction l as [|y l IH]; [reflexivity|]. cbn [existsb filter].
  intros H. apply orb_false_elim in H as [Hy Hl].
  destruct (negb (String.eqb y z)); cbn [existsb]; [rewrite Hy|]; now apply IH.
Qed.

Lemma distinct_filter (z : string) (l : list string) :
  Dom.distinct l = true -> Dom.distinct (filter (fun y => negb (String.eqb y z)) l) = true.
Proof.
  induction l as [|x l IH]; [reflexivity|]. cbn [Dom.distinct filter].
  intros H. apply andb_prop in H as [Hx Hl]. apply negb_true_iff in Hx.
  destruct (negb (String.eqb x z)); cbn [Dom.distinct]; [|now apply IH].
  rewrite (existsb_filter_other _ _ _ Hx). cbn [negb andb]. now apply IH.
Qed.

Lemma ordered_set_distinct (l : list string) : Dom.distinct (Dom.ordered_set l) = true.
Proof.
  induction l as [|x l IH]; [reflexivity|]. cbn [Dom.ordered_set Dom.distinct].
  rewrite existsb_filter_removed. cbn [negb andb]. now apply distinct_filter.
Qed.

Lemma ordered_set_of_distinct (l : list string) :
  Dom.distinct l = true -> Dom.ordered_set l = l.
Proof.
  induction l as [|x l IH]; [reflexivity|]. cbn [Dom.distinct Dom.ordered_set].
  intros H. apply andb_prop in H as [Hx Hl]. apply negb_true_iff in Hx.
  rewrite (IH Hl), (filter_absent _ _ Hx). reflexivity.
Qed.

Lemma distinct_added (x : string) (l : list string) :
  Dom.distinct l = true -> existsb (String.eqb x) l = false ->
  Dom.distinct (l ++ [x]) = true.
Proof.
  induction l as [|y l IH]; [reflexivity|]. cbn [Dom.distinct existsb app].
  intros H Hx. apply andb_prop in H as [Hy Hl]. apply negb_true_iff in Hy.
  apply orb_false_elim in Hx as [Hxy Hxl].
  rewrite existsb_app, Hy. cbn [existsb orb].
  rewrite String.eqb_sym, Hxy. cbn [negb andb orb]. now apply IH.
Qed.

(** The tokens of an element are tokens, once each. *)
Lemma classList_tokens (el : Dom.Element) :
  forallb Dom.is_token (Dom.classList el) = true /\ Dom.distinct (Dom.classList el) = true.
Proof.
  unfold Dom.classList. split.
  - apply ordered_set_tokens, words_tokens.
  - apply ordered_set_distinct.
Qed.

(** Reading the tokens back after they were written. *)
Lemma classList_written (el : Dom.Element) (tokens : list string) :
  forallb Dom.is_token tokens = true -> Dom.distinct tokens = true ->
  Dom.classList (Dom.setAttribute el "class" (Dom.serialize tokens)) = tokens.
Proof.
  intros Ht Hd. unfold Dom.classList, Dom.setAttribute. cbn [Dom.attributes].
  rewrite lookup_assign, String.eqb_refl, (words_serialize _ Ht).
  now apply ordered_set_of_distinct.
Qed.

Lemma update_nonempty (el : Dom.Element) (tokens : list string) (t : string) :
  Dom.update el (tokens ++ [t]) = Dom.setAttribute el "class" (Dom.serialize (tokens ++ [t])).
Proof.
  unfold Dom.update. destruct (Js.lookup "class" (Dom.attributes el)); [reflexivity|].
  now destruct tokens.
Qed.

(** What locking does to an element that is not disabled. *)
Lemma setElementLocked_locks (el : Dom.Element) :
  Dom.hasAttribute el "disabled" = false ->
  existsb (String.eqb "is-locked") (Dom.classList el) = false ->
  setElementLocked (Some el) true
  = Normal (Some false,
            Some (Dom.setAttribute (Dom.setAttribute el "disabled" "true") "class"
                    (Dom.serialize (Dom.classList el ++ ["is-locked"])))).
Proof.
  intros Hd Hc. cbn [setElementLocked]. rewrite Hd.
  unfold Dom.classList_add. change (Dom.checked "is-locked") with (Normal tt).
  cbn [bind].
  assert (Dom.classList (Dom.setAttribute el "disabled" "true") = Dom.classList el) as ->.
  { unfold Dom.classList, Dom.setAttribute. cbn [Dom.attributes].
    now rewrite lookup_assign. }
  rewrite Hc, update_nonempty. reflexivity.
Qed.

(** X23.  Locking is idempotent: after [setElementLocked(el, true)] the
    element has the [disabled] attribute, and a second call changes
    nothing and answers [true], whatever the first one answered. *)
Theorem setElementLocked_lock_twice (el : Dom.Element) :
  exists locked answer,
    setElementLocked (Some el) true = Normal (Some answer, Some locked) /\
    Dom.hasAttribute locked "disabled" = true /\
    setElementLocked (Some locked) true = Normal (Some true, Some locked).
Proof.
  cbn [setElementLocked].
  destruct (Dom.hasAttribute el "disabled") eqn:Hd.
  - exists el, true. rewrite Hd. auto.
  - unfold Dom.classList_add. change (Dom.checked "is-locked") with (Normal tt).
    cbn [bind]. eexists _, false. split; [reflexivity|].
    match goal with
    | |- Dom.hasAttribute ?locked _ = true /\ _ =>
        assert (Dom.hasAttribute locked "disabled" = true) as Hset
    end.
    { unfold Dom.hasAttribute, Dom.update.
      destruct (Js.lookup "class" (Dom.attributes (Dom.setAttribute el "disabled" "true")));
        [|destruct (if existsb _ _ then _ else _)];
        unfold Dom.setAttribute; cbn [Dom.attributes];
        rewrite ?lookup_assign; cbn [String.eqb Ascii.eqb Bool.eqb];
        rewrite ?lookup_assign, ?String.eqb_refl; reflexivity. }
    rewrite Hset. auto.
Qed.

(** X24.  Unlocking undoes locking, up to the [class] attribute: on an
    element that is not disabled and does not carry the class
    [is-locked], a lock followed by an unlock gives the element back with
    its [class] attribute rewritten as its tokens joined by single
    spaces, and created empty when the element had none (the token list
    writes the attribute back at each change).  The element comes back
    exactly as it was when its [class] attribute was already written that
    way. *)
Theorem setElementLocked_unlock_restores (el : Dom.Element) :
  Dom.hasAttribute el "disabled" = false ->
  existsb (String.eqb "is-locked") (Dom.classList el) = false ->
  exists locked,
    setElementLocked (Some el) true = Normal (Some false, Some locked) /\
    setElementLocked (Some locked) false
    = Normal (Some true,
              Some (Dom.setAttribute el "class" (Dom.serialize (Dom.classList el)))) /\
    (Js.lookup "class" (Dom.attributes el) = Some (Dom.serialize (Dom.classList el)) ->
     setElementLocked (Some locked) false = Normal (Some true, Some el)).
Proof.
  intros Hd Hc. eexists. split; [exact (setElementLocked_locks el Hd Hc)|].
  destruct (classList_tokens el) as [Htok Hdis].
  assert (forallb Dom.is_token (Dom.classList el ++ ["is-locked"]) = true) as Htok'.
  { rewrite forallb_app, Htok. reflexivity. }
  pose proof (distinct_added _ _ Hdis Hc) as Hdis'.
  assert (setElementLocked
            (Some (Dom.setAttribute (Dom.setAttribute el "disabled" "true") "class"
                     (Dom.serialize (Dom.classList el ++ ["is-locked"])))) false
          = Normal (Some true,
                    Some (Dom.setAttribute el "class" (Dom.serialize (Dom.classList el)))))
    as Hunlock.
  { cbn [setElementLocked]. unfold Dom.classList_remove.
    change (Dom.checked "is-locked") with (Normal tt). cbn [bind].
    set (locked := Dom.setAttribute (Dom.setAttribute el "disabled" "true") "class"
                     (Dom.serialize (Dom.classList el ++ ["is-locked"]))).
    assert (Js.lookup "class" (Dom.attributes (Dom.removeAttribute locked "disabled"))
            = Some (Dom.serialize (Dom.classList el ++ ["is-locked"]))) as Hclass.
    { unfold Dom.removeAttribute. cbn [Dom.attributes].
      rewrite lookup_filter_other by reflexivity.
      subst locked. unfold Dom.setAttribute. cbn [Dom.attributes].
      now rewrite lookup_assign, String.eqb_refl. }
    assert (Dom.classList (Dom.removeAttribute locked "disabled")
            = (Dom.classList el ++ ["is-locked"])%list) as Hlist.
    { unfold Dom.classList. rewrite Hclass, (words_serialize _ Htok').
      now apply ordered_set_of_distinct. }
    rewrite Hlist, (filter_added_token _ _ Hc).
    unfold Dom.update. rewrite Hclass.
    unfold Dom.hasAttribute in Hd.
    destruct (Js.lookup "disabled" (Dom.attributes el)) eqn:Hl; [discriminate|].
    subst locked. unfold Dom.removeAttribute, Dom.setAttribute.
    cbn [Dom.attributes Dom.display].
    rewrite (filter_assign_other "class" "disabled") by reflexivity.
    rewrite (filter_assign_new _ _ _ Hl), assign_twice. reflexivity. }
  split; [exact Hunlock|].
  intros Hsame. rewrite Hunlock. unfold Dom.setAttribute.
  rewrite (assign_same _ _ _ Hsame). now destruct el.
Qed.

Lemma setElementLocked_unlock_restores_witness :
  exists locked,
    setElementLocked
      (Some {| Dom.attributes := [("type", "submit"); ("class", "btn  primary")];
               Dom.display := EmptyString |}) true
    = Normal (Some false, Some locked) /\
    setElementLocked (Some locked) false
    = Normal (Some true,
              Some {| Dom.attributes := [("type", "submit"); ("class", "btn primary")];
                      Dom.display := EmptyString |}).
Proof.
  destruct (setElementLocked_unlock_restores
              {| Dom.attributes := [("type", "submit"); ("class", "btn  primary")];
                 Dom.display := EmptyString |} eq_refl eq_refl)
    as (locked & Hlock & Hunlock & _).
  exists locked. split; [exact Hlock | exact Hunlock].
Defined.

(* ================================================================== *)
(** ** [showElement] and [hideElement] *)
(* ================================================================== *)

(** X25.  [showElement] and [hideElement] never act on the element they
    are given: whatever [el] resolves to, the outcome is the same for
    every non-null argument; with [el] unbound, as in utils.js, both
    throw a [ReferenceError] on every non-null argument and leave the
    page as it is. *)
Theorem showElement_hideElement_ignore_argument
    (el : completion nat) (element other : nat) (page : Page) :
  showElement_in el (Some element) page = showElement_in el (Some other) page /\
  hideElement_in el (Some element) page = hideElement_in el (Some other) page /\
  showElement (Some element) page = (Throw (ReferenceError "el"), page) /\
  hideElement (Some element) page = (Throw (ReferenceError "el"), page).
Proof. repeat split. Qed.

(* ================================================================== *)
(** ** [serializeForm] *)
(* ================================================================== *)

Lemma values_of_cons (key k : string) (v : jsval) (fields : list (string * jsval)) :
  values_of key ((k, v) :: fields) =
  if String.eqb k key then v :: values_of key fields else values_of key fields.
Proof.
  unfold values_of. cbn [filter fst]. destruct (String.eqb k key); reflexivity.
Qed.

Lemma grouped_snoc_many (x y v : jsval) (r : list jsval) :
  grouped ((x :: y :: r) ++ [v]) = Some (JArr ((x :: y :: r) ++ [v])).
Proof. reflexivity. Qed.

(** The accumulator holds, under each name, the values seen so far for
    it, grouped; one more entry adds its value to the group of its
    name. *)
Lemma collect_groups (acc : list (string * jsval)) (g : string -> list jsval)
    (k : string) (v : jsval) :
  (forall key, Js.lookup key acc = grouped (g key)) ->
  (forall key, forallb entry_value (g key) = true) ->
  forall key,
    Js.lookup key (collect acc (k, v)) =
    grouped (if String.eqb k key then g key ++ [v] else g key)%list.
Proof.
  intros Hacc Hval key. unfold collect.
  pose proof (Hacc k) as Hk. pose proof (Hval k) as Hvk.
  destruct (g k) as [|x [|y r]] eqn:Eg; cbn [grouped] in Hk; rewrite Hk.
  - rewrite lookup_assign. destruct (String.eqb_spec k key) as [<-|]; [|apply Hacc].
    now rewrite Eg.
  - cbn [forallb] in Hvk. apply andb_prop in Hvk as [Hx _].
    destruct x; try discriminate; rewrite lookup_assign;
      (destruct (String.eqb_spec k key) as [<-|]; [now rewrite Eg | apply Hacc]).
  - rewrite lookup_assign. destruct (String.eqb_spec k key) as [<-|]; [|apply Hacc].
    now rewrite Eg.
Qed.

Lemma fold_collect_groups (fields : list (string * jsval)) :
  forall (acc : list (string * jsval)) (g : string -> list jsval),
    (forall key, Js.lookup key acc = grouped (g key)) ->
    (forall key, forallb entry_value (g key) = true) ->
    forallb (fun kv => entry_value (snd kv)) fields = true ->
    forall key,
      Js.lookup key (fold_left collect fields acc) =
      grouped (g key ++ values_of key fields)%list.
Proof.
  induction fields as [|[k v] fields IH]; intros acc g Hacc Hval Hfields key.
  - cbn [fold_left]. unfold values_of. cbn [filter map]. rewrite app_nil_r. apply Hacc.
  - cbn [fold_left forallb snd] in *. apply andb_prop in Hfields as [Hv Hrest].
    rewrite (IH (collect acc (k, v))
                (fun key => if String.eqb k key then g key ++ [v] else g key)%list).
    + rewrite values_of_cons. destruct (String.eqb k key); [|reflexivity].
      now rewrite <- app_assoc.
    + apply collect_groups; assumption.
    + intros key'. destruct (String.eqb k key'); [|apply Hval].
      rewrite forallb_app, Hval. cbn [forallb]. now rewrite Hv.
    + exact Hrest.
Qed.

Lemma collect_keeps_names_distinct (acc : list (string * jsval)) (entry : string * jsval) :
  NoDup (map fst acc) -> NoDup (map fst (collect acc entry)).
Proof.
  intros Hn. destruct entry as [k v]. unfold collect.
  destruct (Js.lookup k acc) as [[]|]; now apply distinct_keys_assign.
Qed.

(** X26.  [serializeForm] groups the values of a form by field name:
    in the object it returns, a name used once has its value, a name
    used several times has the array of its values in the order of the
    form, a name not in the form is absent, and no name comes twice. *)
Theorem serializeForm_groups_by_name (fields : list (string * jsval)) :
  forallb (fun kv => plain_name (fst kv)) fields = true ->
  forallb (fun kv => entry_value (snd kv)) fields = true ->
  exists props,
    serializeForm (FormElement fields) false = Some (Normal (JObj props)) /\
    NoDup (map fst props) /\
    forall key, Js.lookup key props = grouped (values_of key fields).
Proof.
  intros Hnames Hvalues. exists (fold_left collect fields []).
  cbn [serializeForm]. rewrite Hnames. split; [reflexivity|]. split.
  - assert (forall acc, NoDup (map fst acc) ->
                        NoDup (map fst (fold_left collect fields acc))) as Hfold.
    { clear. induction fields as [|e fields IH]; intros acc Hn; [exact Hn|].
      cbn [fold_left]. apply IH. now apply collect_keeps_names_distinct. }
    apply Hfold. constructor.
  - intros key.
    apply (fold_collect_groups fields [] (fun _ => [])); auto.
Qed.

Lemma serializeForm_groups_by_name_witness :
  exists props,
    serializeForm
      (FormElement [("tag", JStr "a"); ("name", JStr "x"); ("tag", JStr "b")]) false
    = Some (Normal (JObj props)) /\
    NoDup (map fst props) /\
    forall key,
      Js.lookup key props =
      grouped (values_of key [("tag", JStr "a"); ("name", JStr "x"); ("tag", JStr "b")]).
Proof.
  apply (serializeForm_groups_by_name
           [("tag", JStr "a"); ("name", JStr "x"); ("tag", JStr "b")]);
    reflexivity.
Defined.
